(** * TAPIR solver: a shallow embedding of [Solver.cpp] and [Vector.cpp]

    The development follows the C++ sources function by function.

    Conventions of the embedding.
    - A C++ [double] is a real number ([R]): rounding, infinities and NaN
      are outside the model.  The one place where the source uses
      [numeric_limits<double>::infinity()] carries it as [None] in an
      [option R].  The rollout mixture is read a second time in binary64
      ([Binary64]), where rounding and NaN show.
    - A [long] is an integer ([Z]); overflow is outside the model.
    - A pointer to a belief node is the node's identifier; a pointer that
      may be [nullptr] is an [option].
    - What the C++ standard leaves undefined (dereferencing the end of a
      vector, dereferencing [nullptr]) is the outcome [Undefined] of a
      stateful function and [None] of a pure one; [std::exit] is the
      outcome [Exits]. *)

From Stdlib Require Import String ZArith List Bool Lia Reals Lra Arith.
From Stdlib Require Import Permutation.
From Stdlib Require Import DecimalString.
From Stdlib Require Floats.
Import ListNotations.

(** ** Outcomes and the state monad used for the stateful code *)

Module Exec.

(** How a call ends: it returns a value, or the program leaves through
    [std::exit], in both cases in some state; or its behaviour is
    undefined. *)
Inductive outcome (S A : Type) : Type :=
| Returns (a : A) (s : S)
| Exits (status : Z) (s : S)
| Undefined.
Arguments Returns {S A} a s.
Arguments Exits {S A} status s.
Arguments Undefined {S A}.

(** A computation over a mutable state [S]. *)
Definition M (S A : Type) : Type := S -> outcome S A.

Definition ret {S A} (a : A) : M S A := fun s => Returns a s.

Definition bind {S A B} (m : M S A) (k : A -> M S B) : M S B :=
  fun s =>
    match m s with
    | Returns a s' => k a s'
    | Exits status s' => Exits status s'
    | Undefined => Undefined
    end.

Definition gets {S A} (f : S -> A) : M S A := fun s => Returns (f s) s.
Definition modify {S} (f : S -> S) : M S unit := fun s => Returns tt (f s).
Definition exit {S A} (status : Z) : M S A := fun s => Exits status s.
Definition undefined {S A} : M S A := fun _ => Undefined.

(** [for (x : xs) body(x)] *)
Fixpoint for_each {S A} (xs : list A) (body : A -> M S unit) : M S unit :=
  match xs with
  | [] => ret tt
  | x :: xs' => bind (body x) (fun _ => for_each xs' body)
  end.

Module Notations.
Declare Scope exec_scope.
Delimit Scope exec_scope with exec.
Notation "x <- m ;; k" := (bind m (fun x => k))
  (at level 61, m at next level, right associativity) : exec_scope.
Notation "m ;;; k" := (bind m (fun _ => k))
  (at level 61, right associativity) : exec_scope.
End Notations.

End Exec.

Import Exec.

(** ** [Vector.cpp] *)

Module Vector.

Open Scope R_scope.

(** [Vector::equals]: [v1] is [this->asVector()], [v2] the other point's
    vector.  The loop runs [i1] over [v1] and advances [i2] with it;
    reading [*i2] once [i2] has reached [v2.end()] is undefined: the
    result is then [None]. *)
Fixpoint equals (v1 v2 : list R) : option bool :=
  match v1 with
  | [] => Some true
  | x1 :: v1' =>
      match v2 with
      | [] => None
      | x2 :: v2' =>
          if Req_dec_T x1 x2 then equals v1' v2' else Some false
      end
  end.





Example equals_shorter_other_mismatch : equals [1; 2] [3] = Some false.
Proof. simpl. destruct (Req_dec_T 1 3); [lra|reflexivity]. Qed.

Example equals_shorter_other_match : equals [1; 2] [1] = None.
Proof. simpl. destruct (Req_dec_T 1 1); [reflexivity|lra]. Qed.



(** *** [equals] as a test for a prefix *)





End Vector.

(** ** Types shared by the solver's functions *)

(** An action of an enumerated action space, by its integer code. *)
Definition Action : Type := Z.
(** The identity of a belief node (what a [BeliefNode *] points to). *)
Definition NodeId : Type := Z.

(** ** [Solver::backup] and [Solver::undoBackup] *)

Module Backup.

Import Exec.Notations.
Open Scope R_scope.
Open Scope exec_scope.

(** The fields of [HistoryEntry] that [backup] and [undoBackup] touch. *)
Record HistoryEntry : Type := mkHistoryEntry {
  discount_ : R;
  reward_ : R;
  action_ : option Action;
  totalDiscountedReward_ : R;
  hasBeenBackedUp_ : bool;
  owningBeliefNode_ : NodeId
}.

(** [HistorySequence::histSeq_] *)
Definition HistorySequence : Type := list HistoryEntry.

(** The statistics an action mapping keeps for one action of one node. *)
Record ActionMappingEntry : Type := mkActionMappingEntry {
  totalQValue : R;
  visitCount : Z
}.

(** The action mappings of all belief nodes of the policy tree. *)
Definition BeliefTree : Type := NodeId -> Action -> ActionMappingEntry.

Record Solver : Type := mkSolver {
  policy_ : BeliefTree;
  cerr : list string
}.

Definition set_totalDiscountedReward (e : HistoryEntry) (t : R) : HistoryEntry :=
  mkHistoryEntry (discount_ e) (reward_ e) (action_ e) t
    (hasBeenBackedUp_ e) (owningBeliefNode_ e).

Definition set_hasBeenBackedUp (e : HistoryEntry) (b : bool) : HistoryEntry :=
  mkHistoryEntry (discount_ e) (reward_ e) (action_ e)
    (totalDiscountedReward_ e) b (owningBeliefNode_ e).

(** Modelled from the spec: [BeliefNode::updateQValue] (with
    [ActionMapping::update] behind it) is not among the sources.  The spec
    has a node keep [(visits, totalQ)] per action, with
    [meanQ = totalQ / visitCount], and has [updateQ(action, dQ, dN)] add
    [dQ] to the Q sum and [dN] to the visit count; the two-argument call
    leaves the visit count alone. *)
Definition update_entry (p : BeliefTree) (node : NodeId) (action : Action)
  (dQ : R) (dN : Z) : BeliefTree :=
  fun n a =>
    if (Z.eqb n node && Z.eqb a action)%bool
    then mkActionMappingEntry (totalQValue (p n a) + dQ) (visitCount (p n a) + dN)
    else p n a.

Definition updateQValue (node : NodeId) (action : Action) (dQ : R) (dN : Z)
  : M Solver unit :=
  modify (fun s => mkSolver (update_entry (policy_ s) node action dQ dN) (cerr s)).

(** [cerr << line << endl] *)
Definition print_cerr (line : string) : M Solver unit :=
  modify (fun s => mkSolver (policy_ s) (cerr s ++ [line])).

(** The body of the [for] loop of [backup], for the entry [e] under the
    reverse iterator; returns the entry as written back and the new
    [totalReward].  The loop passes [*action_] on, which is undefined when
    [action_] is [nullptr]. *)
Definition backup_step (e : HistoryEntry) (totalReward : R)
  : M Solver (HistoryEntry * R) :=
  let newTotal := discount_ e * reward_ e + totalReward in
  match action_ e with
  | None => undefined
  | Some a =>
      if hasBeenBackedUp_ e then
        let previousTotalReward := totalDiscountedReward_ e in
        updateQValue (owningBeliefNode_ e) a (newTotal - previousTotalReward) 0 ;;;
        ret (set_totalDiscountedReward e newTotal, newTotal)
      else
        updateQValue (owningBeliefNode_ e) a newTotal 1 ;;;
        ret (set_hasBeenBackedUp (set_totalDiscountedReward e newTotal) true,
             newTotal)
  end.

(** The [for] loop of [backup] over the entries from the second-last to
    the first ([rest] is in that order). *)
Fixpoint backup_loop (rest : list HistoryEntry) (totalReward : R)
  : M Solver (list HistoryEntry) :=
  match rest with
  | [] => ret []
  | e :: rest' =>
      r <- backup_step e totalReward ;;
      rest'' <- backup_loop rest' (snd r) ;;
      ret (fst r :: rest'')
  end.

(** [Solver::backup].  [rev sequence] is the order of the reverse
    iterator; dereferencing [rbegin()] of an empty vector is undefined. *)
Definition backup (sequence : HistorySequence) : M Solver HistorySequence :=
  match rev sequence with
  | [] => undefined
  | last :: rest =>
      let totalReward :=
        match action_ last with
        | None => totalDiscountedReward_ last
        | Some _ => discount_ last * reward_ last
        end in
      let last' :=
        match action_ last with
        | None => last
        | Some _ => set_totalDiscountedReward last totalReward
        end in
      rest' <- backup_loop rest totalReward ;;
      ret (rev (last' :: rest'))
  end.

Definition undo_message : string := "ERROR: Backup not yet done; cannot undo!".

(** The body of the [for] loop of [undoBackup]. *)
Definition undo_step (e : HistoryEntry) : M Solver HistoryEntry :=
  if hasBeenBackedUp_ e then
    match action_ e with
    | None => undefined
    | Some a =>
        updateQValue (owningBeliefNode_ e) a (- totalDiscountedReward_ e) (-1) ;;;
        ret (set_hasBeenBackedUp e false)
    end
  else
    print_cerr undo_message ;;;
    ret e.

Fixpoint undo_loop (rest : list HistoryEntry) : M Solver (list HistoryEntry) :=
  match rest with
  | [] => ret []
  | e :: rest' =>
      e' <- undo_step e ;;
      rest'' <- undo_loop rest' ;;
      ret (e' :: rest'')
  end.

(** [Solver::undoBackup]: the last entry is skipped. *)
Definition undoBackup (sequence : HistorySequence) : M Solver HistorySequence :=
  match rev sequence with
  | [] => undefined
  | last :: rest =>
      rest' <- undo_loop rest ;;
      ret (rev (last :: rest'))
  end.

(** *** The quantities the claims speak of *)

Definition has_action (e : HistoryEntry) : Prop := action_ e <> None.

(** A sequence [backup] can run on: not empty, and every entry but the last
    carries the action taken there. *)
Definition well_formed (sequence : HistorySequence) : Prop :=
  sequence <> [] /\ Forall has_action (removelast sequence).

(** [discount[j] * reward[j]] *)
Definition contribution (e : HistoryEntry) : R := discount_ e * reward_ e.

(** What the last entry contributes: its pre-set estimate when no action
    was taken there. *)
Definition last_contribution (e : HistoryEntry) : R :=
  match action_ e with
  | None => totalDiscountedReward_ e
  | Some _ => contribution e
  end.

(** The sum over the entries of [entries], the last one counted by
    [last_contribution]. *)
Fixpoint discounted_sum (entries : list HistoryEntry) : R :=
  match entries with
  | [] => 0
  | e :: rest =>
      match rest with
      | [] => last_contribution e
      | _ :: _ => contribution e + discounted_sum rest
      end
  end.

Definition default_entry : HistoryEntry :=
  mkHistoryEntry 0 0 None 0 false 0%Z.

(** *** What the loops compute, as pure functions *)

Definition step_entry (e : HistoryEntry) (totalReward : R) : HistoryEntry :=
  let newTotal := contribution e + totalReward in
  if hasBeenBackedUp_ e then set_totalDiscountedReward e newTotal
  else set_hasBeenBackedUp (set_totalDiscountedReward e newTotal) true.

Definition step_policy (e : HistoryEntry) (totalReward : R) (p : BeliefTree)
  : BeliefTree :=
  let newTotal := contribution e + totalReward in
  match action_ e with
  | None => p
  | Some a =>
      if hasBeenBackedUp_ e
      then update_entry p (owningBeliefNode_ e) a
             (newTotal - totalDiscountedReward_ e) 0
      else update_entry p (owningBeliefNode_ e) a newTotal 1
  end.

Fixpoint loop_entries (rest : list HistoryEntry) (totalReward : R)
  : list HistoryEntry :=
  match rest with
  | [] => []
  | e :: rest' =>
      step_entry e totalReward :: loop_entries rest' (contribution e + totalReward)
  end.

Fixpoint loop_policy (rest : list HistoryEntry) (totalReward : R)
  (p : BeliefTree) : BeliefTree :=
  match rest with
  | [] => p
  | e :: rest' =>
      loop_policy rest' (contribution e + totalReward) (step_policy e totalReward p)
  end.

Definition undo_entry (e : HistoryEntry) : HistoryEntry :=
  if hasBeenBackedUp_ e then set_hasBeenBackedUp e false else e.

Definition undo_policy_step (e : HistoryEntry) (p : BeliefTree) : BeliefTree :=
  match hasBeenBackedUp_ e, action_ e with
  | true, Some a =>
      update_entry p (owningBeliefNode_ e) a (- totalDiscountedReward_ e) (-1)
  | _, _ => p
  end.

Fixpoint undo_policy (rest : list HistoryEntry) (p : BeliefTree) : BeliefTree :=
  match rest with
  | [] => p
  | e :: rest' => undo_policy rest' (undo_policy_step e p)
  end.

(** The entries [undoBackup] complains about. *)
Definition not_backed_up (rest : list HistoryEntry) : list HistoryEntry :=
  filter (fun e => negb (hasBeenBackedUp_ e)) rest.

Definition undo_log (rest : list HistoryEntry) : list string :=
  map (fun _ => undo_message) (not_backed_up rest).

(** The Q sum and the visits that the entries of [l] hold for action [a]
    of node [n]. *)
Definition entry_on (n : NodeId) (a : Action) (e : HistoryEntry) : bool :=
  match action_ e with
  | Some a' => (Z.eqb n (owningBeliefNode_ e) && Z.eqb a a')%bool
  | None => false
  end.

Fixpoint q_held (n : NodeId) (a : Action) (l : list HistoryEntry) : R :=
  match l with
  | [] => 0
  | e :: l' =>
      (if entry_on n a e then totalDiscountedReward_ e else 0) + q_held n a l'
  end.

Fixpoint visits_held (n : NodeId) (a : Action) (l : list HistoryEntry) : Z :=
  match l with
  | [] => 0%Z
  | e :: l' => ((if entry_on n a e then 1 else 0) + visits_held n a l')%Z
  end.

(** [reward] summed from the front of [l] down to a given tail value. *)
Definition sum_from (l : list HistoryEntry) (base : R) : R :=
  fold_right (fun e acc => contribution e + acc) base l.

(** *** Running the loops *)

Lemma backup_loop_run (rest : list HistoryEntry) :
  forall totalReward s,
    Forall has_action rest ->
    backup_loop rest totalReward s =
    Returns (loop_entries rest totalReward)
      (mkSolver (loop_policy rest totalReward (policy_ s)) (cerr s)).
Proof.
  induction rest as [|e rest IH]; intros t s Hact.
  - destruct s; reflexivity.
  - inversion Hact as [|? ? He Hrest]; subst.
    unfold has_action in He.
    cbn [backup_loop loop_entries loop_policy].
    unfold bind at 1. unfold backup_step, step_entry, step_policy, contribution.
    destruct (action_ e) as [a|]; [|contradiction].
    destruct (hasBeenBackedUp_ e);
      unfold bind, updateQValue, modify, ret; cbn [snd fst];
      fold (contribution e);
      rewrite IH by assumption; reflexivity.
Qed.

Lemma undo_loop_run (rest : list HistoryEntry) :
  forall s,
    Forall (fun e => hasBeenBackedUp_ e = true -> has_action e) rest ->
    undo_loop rest s =
    Returns (map undo_entry rest)
      (mkSolver (undo_policy rest (policy_ s)) (cerr s ++ undo_log rest)).
Proof.
  induction rest as [|e rest IH]; intros s Hact.
  - destruct s as [p c]. cbn. rewrite app_nil_r. reflexivity.
  - inversion Hact as [|? ? He Hrest]; subst.
    cbn [undo_loop map undo_policy].
    unfold bind at 1. unfold undo_step, undo_entry, undo_policy_step, undo_log,
      not_backed_up.
    cbn [filter].
    destruct (hasBeenBackedUp_ e) eqn:Hflag.
    + specialize (He eq_refl). unfold has_action in He.
      destruct (action_ e) as [a|]; [|contradiction].
      unfold bind, updateQValue, modify, ret. cbn [negb].
      rewrite IH by assumption. reflexivity.
    + unfold bind, print_cerr, modify, ret. cbn [negb map].
      rewrite IH by assumption. cbn [policy_ cerr].
      rewrite <- app_assoc. reflexivity.
Qed.

(** *** The totals written by [backup] *)

Lemma sum_from_app (l1 l2 : list HistoryEntry) (base : R) :
  sum_from (l1 ++ l2) base = sum_from l1 (sum_from l2 base).
Proof. unfold sum_from. apply fold_right_app. Qed.

Lemma discounted_sum_snoc (l : list HistoryEntry) (last : HistoryEntry) :
  discounted_sum (l ++ [last]) = sum_from l (last_contribution last).
Proof.
  induction l as [|e l IH]; [reflexivity|].
  cbn [app discounted_sum sum_from fold_right].
  destruct (l ++ [last]) as [|x xs] eqn:E.
  - destruct l; discriminate.
  - rewrite IH. reflexivity.
Qed.

Lemma loop_entries_length (rest : list HistoryEntry) :
  forall t, length (loop_entries rest t) = length rest.
Proof. induction rest as [|e rest IH]; intros t; cbn; [|rewrite IH]; reflexivity. Qed.

Lemma step_entry_total (e : HistoryEntry) (t : R) :
  totalDiscountedReward_ (step_entry e t) = contribution e + t.
Proof. unfold step_entry. destruct (hasBeenBackedUp_ e); reflexivity. Qed.

Lemma loop_entries_total (rest : list HistoryEntry) :
  forall t k, (k < length rest)%nat ->
    totalDiscountedReward_ (nth k (loop_entries rest t) default_entry) =
    sum_from (rev (firstn (S k) rest)) t.
Proof.
  induction rest as [|e rest IH]; intros t k Hk; cbn [length] in Hk; [lia|].
  destruct k as [|k].
  - cbn. apply step_entry_total.
  - cbn [loop_entries nth]. rewrite IH by lia.
    change (firstn (S (S k)) (e :: rest)) with (e :: firstn (S k) rest).
    cbn [rev]. rewrite sum_from_app. reflexivity.
Qed.

Lemma last_total (last : HistoryEntry) :
  totalDiscountedReward_
    match action_ last with
    | None => last
    | Some _ => set_totalDiscountedReward last (discount_ last * reward_ last)
    end = last_contribution last.
Proof. unfold last_contribution, contribution. destruct (action_ last); reflexivity. Qed.

Lemma well_formed_rev (sequence : HistorySequence) :
  well_formed sequence ->
  exists last rest,
    sequence = rev rest ++ [last] /\ rev sequence = last :: rest /\
    Forall has_action rest.
Proof.
  intros [Hne Hact].
  destruct (exists_last Hne) as [init [last E]]. subst sequence.
  rewrite removelast_last in Hact.
  exists last, (rev init). rewrite rev_involutive, rev_app_distr.
  repeat split. apply Forall_rev. exact Hact.
Qed.

Lemma backup_run (rest : list HistoryEntry) (last : HistoryEntry) (s : Solver) :
  Forall has_action rest ->
  backup (rev rest ++ [last]) s =
  Returns
    (rev (loop_entries rest (last_contribution last)) ++
       [match action_ last with
        | None => last
        | Some _ => set_totalDiscountedReward last (discount_ last * reward_ last)
        end])
      (mkSolver (loop_policy rest (last_contribution last) (policy_ s)) (cerr s)).
Proof.
  intros Hact. unfold backup.
  rewrite rev_app_distr, rev_involutive. cbn [rev app].
  unfold bind, last_contribution, contribution.
  destruct (action_ last); rewrite backup_loop_run by assumption; reflexivity.
Qed.

(** C1. On every sequence that [backup] can run on, [backup] returns, and
    afterwards every entry [i] holds in [totalDiscountedReward_] the sum
    over [j >= i] of [discount[j] * reward[j]], where the last entry
    contributes its pre-set estimate when no action was taken there. *)
Theorem backup_totals (sequence : HistorySequence) (s : Solver) :
  well_formed sequence ->
  exists sequence' s',
    backup sequence s = Returns sequence' s' /\
    length sequence' = length sequence /\
    forall i, (i < length sequence)%nat ->
      totalDiscountedReward_ (nth i sequence' default_entry) =
      discounted_sum (skipn i sequence).
Proof.
  intros Hwf.
  destruct (well_formed_rev sequence Hwf) as [last [rest [E [_ Hact]]]].
  subst sequence. rewrite (backup_run rest last s Hact).
  eexists. eexists. split; [reflexivity|].
  split.
  - rewrite !length_app, !length_rev, loop_entries_length. reflexivity.
  - intros i Hi. rewrite length_app, length_rev in Hi. cbn [length] in Hi.
    assert (Hlen : length (rev (loop_entries rest (last_contribution last)))
                   = length rest)
      by (rewrite length_rev; apply loop_entries_length).
    destruct (Nat.lt_ge_cases i (length rest)) as [Hlt|Hge].
    + rewrite app_nth1 by lia.
      rewrite rev_nth by (rewrite loop_entries_length; lia).
      rewrite loop_entries_length.
      rewrite loop_entries_total by lia.
      rewrite skipn_app, length_rev.
      replace (i - length rest)%nat with 0%nat by lia.
      cbn [skipn]. rewrite discounted_sum_snoc.
      rewrite skipn_rev.
      replace (S (length rest - S i)) with (length rest - i)%nat by lia.
      reflexivity.
    + assert (i = length rest) by lia. subst i.
      rewrite app_nth2 by lia. rewrite Hlen, Nat.sub_diag. cbn [nth].
      rewrite last_total.
      rewrite skipn_app, length_rev, Nat.sub_diag.
      rewrite skipn_all2 by (rewrite length_rev; lia).
      reflexivity.
Qed.

Definition sample_sequence : HistorySequence :=
  [ mkHistoryEntry 1 2 (Some 0%Z) 0 false 0%Z;
    mkHistoryEntry (1/2) 4 (Some 1%Z) 0 false 1%Z;
    mkHistoryEntry (1/4) 0 None 3 false 2%Z ].

Definition empty_solver : Solver :=
  mkSolver (fun _ _ => mkActionMappingEntry 0 0) [].

(** [backup] on the sample: the totals are 7, 5 and 3, and the two actions
    taken are credited with 7 and 5. *)
Example backup_sample_sequence :
  exists sequence' s',
    backup sample_sequence empty_solver = Returns sequence' s' /\
    map totalDiscountedReward_ sequence'
    = [1 * 2 + (1/2 * 4 + 3); 1/2 * 4 + 3; 3] /\
    map hasBeenBackedUp_ sequence' = [true; true; false] /\
    policy_ s' 0%Z 0%Z = mkActionMappingEntry (0 + (1 * 2 + (1/2 * 4 + 3))) 1 /\
    policy_ s' 1%Z 1%Z = mkActionMappingEntry (0 + (1/2 * 4 + 3)) 1.
Proof.
  do 2 eexists. split; [cbn; reflexivity|]. repeat split.
Qed.

Lemma sample_sequence_well_formed : well_formed sample_sequence.
Proof.
  split; [discriminate|].
  repeat constructor; discriminate.
Qed.

Lemma backup_totals_witness :
  exists sequence' s',
    backup sample_sequence empty_solver = Returns sequence' s' /\
    length sequence' = length sample_sequence /\
    forall i, (i < length sample_sequence)%nat ->
      totalDiscountedReward_ (nth i sequence' default_entry) =
      discounted_sum (skipn i sample_sequence).
Proof.
  exact (backup_totals sample_sequence empty_solver sample_sequence_well_formed).
Defined.

(** *** A single-entry sequence *)

(** An entry without an action whose stored total is not
    [discount * reward]. *)
Definition stale_entry : HistoryEntry := mkHistoryEntry 1 0 None 5 false 0%Z.

(** C7, as stated, fails: on a single-entry sequence whose entry has no
    action, [backup] leaves the stored total (here 5) where it is, although
    [discount * reward] is 0. *)
Lemma backup_single_entry_counterexample :
  backup [stale_entry] empty_solver = Returns [stale_entry] empty_solver /\
  totalDiscountedReward_ stale_entry <> discount_ stale_entry * reward_ stale_entry.
Proof.
  split; [reflexivity|]. cbn. lra.
Qed.

(** C7, amended. [backup] of a single-entry sequence returns, touches no
    belief node, and writes [discount * reward] into the entry's total when
    the entry has an action; when it has none (the entries made by
    [addChild] are of this kind) the entry is left as it is, so that its
    total is [discount * reward] afterwards exactly when it was before. *)
Theorem backup_single_entry (e : HistoryEntry) (s : Solver) :
  exists e',
    backup [e] s = Returns [e'] s /\
    (has_action e -> totalDiscountedReward_ e' = discount_ e * reward_ e) /\
    (action_ e = None -> e' = e).
Proof.
  unfold backup, has_action. cbn [rev app backup_loop].
  unfold bind, ret.
  destruct (action_ e) as [a|]; eexists; (split; [reflexivity|]); split;
    intros H; try reflexivity; try discriminate; contradiction.
Qed.

Lemma backup_single_entry_witness :
  (exists e',
     backup [mkHistoryEntry (1/2) 4 (Some 1%Z) 0 false 1%Z] empty_solver
     = Returns [e'] empty_solver /\
     totalDiscountedReward_ e' = 1/2 * 4) /\
  backup [stale_entry] empty_solver = Returns [stale_entry] empty_solver.
Proof.
  split.
  - destruct (backup_single_entry
                (mkHistoryEntry (1/2) 4 (Some 1%Z) 0 false 1%Z) empty_solver)
      as [e' [Hrun [Hact _]]].
    exists e'. split; [exact Hrun|]. apply Hact. discriminate.
  - destruct (backup_single_entry stale_entry empty_solver) as [e' [Hrun [_ Hnone]]].
    rewrite (Hnone eq_refl) in Hrun. exact Hrun.
Defined.

(** *** [backup] followed by [undoBackup] *)

(** An entry that carries an action and has not been backed up. *)
Definition fresh (e : HistoryEntry) : Prop :=
  hasBeenBackedUp_ e = false /\ has_action e.

Definition backed_up (e : HistoryEntry) : Prop :=
  hasBeenBackedUp_ e = true /\ has_action e.

Lemma entry_eq (x y : ActionMappingEntry) :
  totalQValue x = totalQValue y -> visitCount x = visitCount y -> x = y.
Proof. destruct x, y; cbn; intros -> ->; reflexivity. Qed.

Lemma loop_entries_backed_up (rest : list HistoryEntry) :
  forall t, Forall has_action rest -> Forall backed_up (loop_entries rest t).
Proof.
  induction rest as [|e rest IH]; intros t Hact; cbn [loop_entries];
    constructor; inversion Hact; subst.
  - unfold backed_up, has_action, step_entry in *.
    destruct (hasBeenBackedUp_ e) eqn:E; cbn; auto.
  - apply IH; assumption.
Qed.

Lemma loop_policy_fresh (rest : list HistoryEntry) :
  forall t p n a,
    Forall fresh rest ->
    totalQValue (loop_policy rest t p n a) =
      totalQValue (p n a) + q_held n a (loop_entries rest t) /\
    visitCount (loop_policy rest t p n a) =
      (visitCount (p n a) + visits_held n a (loop_entries rest t))%Z.
Proof.
  induction rest as [|e rest IH]; intros t p n a Hfresh.
  - cbn. split; [lra|lia].
  - inversion Hfresh as [|? ? [Hflag Hact] Hrest]; subst.
    cbn [loop_policy loop_entries q_held visits_held].
    destruct (IH (contribution e + t) (step_policy e t p) n a Hrest) as [HQ HN].
    rewrite HQ, HN.
    unfold has_action in Hact.
    unfold step_policy, step_entry, entry_on, update_entry.
    rewrite Hflag. cbn [action_ set_hasBeenBackedUp set_totalDiscountedReward
                        owningBeliefNode_ totalDiscountedReward_].
    destruct (action_ e) as [a0|]; [|contradiction].
    destruct (Z.eqb n (owningBeliefNode_ e) && Z.eqb a a0)%bool;
      cbn [totalQValue visitCount]; split; try lra; lia.
Qed.

Lemma undo_policy_backed_up (l : list HistoryEntry) :
  forall p n a,
    Forall backed_up l ->
    totalQValue (undo_policy l p n a) = totalQValue (p n a) - q_held n a l /\
    visitCount (undo_policy l p n a) = (visitCount (p n a) - visits_held n a l)%Z.
Proof.
  induction l as [|e l IH]; intros p n a Hall.
  - cbn. split; [lra|lia].
  - inversion Hall as [|? ? [Hflag Hact] Hrest]; subst.
    cbn [undo_policy q_held visits_held].
    destruct (IH (undo_policy_step e p) n a Hrest) as [HQ HN].
    rewrite HQ, HN.
    unfold has_action in Hact.
    unfold undo_policy_step, entry_on, update_entry. rewrite Hflag.
    destruct (action_ e) as [a0|]; [|contradiction].
    destruct (Z.eqb n (owningBeliefNode_ e) && Z.eqb a a0)%bool;
      cbn [totalQValue visitCount]; split; try lra; lia.
Qed.

Lemma undo_log_backed_up (l : list HistoryEntry) :
  Forall backed_up l -> undo_log l = [].
Proof.
  unfold undo_log, not_backed_up.
  induction 1 as [|e l [Hflag _] _ IH]; [reflexivity|].
  cbn [filter]. rewrite Hflag. exact IH.
Qed.

Lemma undo_entries_flags (l : list HistoryEntry) :
  map hasBeenBackedUp_ (map undo_entry l) = map (fun _ => false) l.
Proof.
  rewrite map_map. apply map_ext. intros e. unfold undo_entry.
  destruct (hasBeenBackedUp_ e) eqn:E; [reflexivity|exact E].
Qed.

Lemma fresh_flags (rest : list HistoryEntry) :
  forall t, Forall fresh rest ->
    map (fun _ : HistoryEntry => false) (loop_entries rest t)
    = map hasBeenBackedUp_ rest.
Proof.
  induction rest as [|e rest IH]; intros t Hfresh; [reflexivity|].
  inversion Hfresh as [|? ? [Hflag _] Hrest]; subst.
  cbn [loop_entries map]. rewrite Hflag, IH by assumption. reflexivity.
Qed.

Lemma undoBackup_run (l : list HistoryEntry) (last : HistoryEntry) (s : Solver) :
  Forall (fun e => hasBeenBackedUp_ e = true -> has_action e) l ->
  undoBackup (rev l ++ [last]) s =
  Returns (rev (map undo_entry l) ++ [last])
      (mkSolver (undo_policy l (policy_ s)) (cerr s ++ undo_log l)).
Proof.
  intros Hact. unfold undoBackup.
  rewrite rev_app_distr, rev_involutive. cbn [rev app].
  unfold bind. rewrite undo_loop_run by assumption. reflexivity.
Qed.

Lemma fresh_rev (sequence : HistorySequence) (P : HistoryEntry -> Prop) :
  sequence <> [] -> Forall P (removelast sequence) ->
  exists last rest, sequence = rev rest ++ [last] /\ Forall P rest.
Proof.
  intros Hne HP.
  destruct (exists_last Hne) as [init [last E]]. subst sequence.
  rewrite removelast_last in HP.
  exists last, (rev init). rewrite rev_involutive.
  split; [reflexivity|]. apply Forall_rev. exact HP.
Qed.

(** A sequence whose first entry has been backed up before, and a tree that
    has counted that visit. *)
Definition rebacked_sequence : HistorySequence :=
  [ mkHistoryEntry 1 1 (Some 0%Z) 1 true 0%Z;
    mkHistoryEntry 1 0 None 0 false 1%Z ].

Definition visited_solver : Solver :=
  mkSolver (fun _ _ => mkActionMappingEntry 1 1) [].

(** C2, as stated, fails: when an entry had been backed up before, [backup]
    adds only the change of its total and no visit, while [undoBackup]
    takes away the whole total and one visit.  Here the visit count of
    action 0 at node 0 is 1 before and 0 afterwards. *)
Lemma backup_undoBackup_counterexample :
  exists seq1 s1 seq2 s2,
    backup rebacked_sequence visited_solver = Returns seq1 s1 /\
    undoBackup seq1 s1 = Returns seq2 s2 /\
    visitCount (policy_ visited_solver 0%Z 0%Z) = 1%Z /\
    visitCount (policy_ s2 0%Z 0%Z) = 0%Z.
Proof.
  do 4 eexists. split; [cbn; reflexivity|]. split; [cbn; reflexivity|].
  split; reflexivity.
Qed.

(** C2, amended. On a sequence none of whose entries before the last has
    been backed up, [backup] followed by [undoBackup] returns, gives every
    action of every belief node its Q sum and its visit count back, and
    leaves the flags as they were: [backup] sets the flag of every entry
    before the last and [undoBackup] clears them again.  Nothing is
    reported on the error stream. *)
Theorem backup_then_undoBackup (sequence : HistorySequence) (s : Solver) :
  sequence <> [] ->
  Forall fresh (removelast sequence) ->
  exists seq1 s1 seq2 s2,
    backup sequence s = Returns seq1 s1 /\
    undoBackup seq1 s1 = Returns seq2 s2 /\
    (forall n a, policy_ s2 n a = policy_ s n a) /\
    Forall (fun e => hasBeenBackedUp_ e = true) (removelast seq1) /\
    map hasBeenBackedUp_ seq2 = map hasBeenBackedUp_ sequence /\
    cerr s2 = cerr s.
Proof.
  intros Hne Hfresh.
  destruct (fresh_rev sequence fresh Hne Hfresh) as [last [rest [E Hrest]]].
  subst sequence.
  assert (Hact : Forall has_action rest)
    by (eapply Forall_impl; [|exact Hrest]; intros e [_ H]; exact H).
  remember (last_contribution last) as t eqn:Et.
  pose proof (loop_entries_backed_up rest t Hact) as Hbacked.
  exists (rev (loop_entries rest t) ++
          [match action_ last with
           | None => last
           | Some _ => set_totalDiscountedReward last (discount_ last * reward_ last)
           end]).
  eexists. eexists. eexists.
  split; [rewrite backup_run by exact Hact; rewrite <- Et; reflexivity|].
  split.
  { apply undoBackup_run. eapply Forall_impl; [|exact Hbacked].
    intros e [_ H] _; exact H. }
  cbn [policy_ cerr].
  split; [|split; [|split]].
  - intros n a.
    destruct (undo_policy_backed_up (loop_entries rest t)
                (loop_policy rest t (policy_ s)) n a Hbacked) as [HQ HN].
    destruct (loop_policy_fresh rest t (policy_ s) n a Hrest) as [HQ' HN'].
    apply entry_eq; [rewrite HQ, HQ'; lra|rewrite HN, HN'; lia].
  - rewrite removelast_last. apply Forall_rev.
    eapply Forall_impl; [|exact Hbacked]. intros e [H _]; exact H.
  - rewrite !map_app, !map_rev, undo_entries_flags, fresh_flags by assumption.
    cbn [map]. destruct (action_ last); reflexivity.
  - rewrite undo_log_backed_up by assumption. apply app_nil_r.
Qed.

Lemma sample_sequence_fresh : Forall fresh (removelast sample_sequence).
Proof.
  repeat constructor; discriminate.
Qed.

Lemma backup_then_undoBackup_witness :
  exists seq1 s1 seq2 s2,
    backup sample_sequence empty_solver = Returns seq1 s1 /\
    undoBackup seq1 s1 = Returns seq2 s2 /\
    (forall n a, policy_ s2 n a = policy_ empty_solver n a) /\
    Forall (fun e => hasBeenBackedUp_ e = true) (removelast seq1) /\
    map hasBeenBackedUp_ seq2 = map hasBeenBackedUp_ sample_sequence /\
    cerr s2 = cerr empty_solver.
Proof.
  apply (backup_then_undoBackup sample_sequence empty_solver).
  - discriminate.
  - exact sample_sequence_fresh.
Defined.

(** *** [undoBackup] on an entry that was not backed up *)

Lemma undo_log_length (l : list HistoryEntry) :
  undo_log (rev l) = repeat undo_message (length (not_backed_up l)).
Proof.
  unfold undo_log, not_backed_up.
  assert (Hrep : forall l' : list HistoryEntry,
             map (fun _ => undo_message) l' = repeat undo_message (length l')).
  { induction l' as [|x l' IH]; cbn; [|rewrite IH]; reflexivity. }
  rewrite Hrep. f_equal.
  induction l as [|e l IH]; [reflexivity|].
  cbn [rev filter]. rewrite filter_app, length_app, IH. cbn [filter].
  destruct (negb (hasBeenBackedUp_ e)); cbn [length]; lia.
Qed.

Lemma undo_policy_app (l1 l2 : list HistoryEntry) (p : BeliefTree) :
  undo_policy (l1 ++ l2) p = undo_policy l2 (undo_policy l1 p).
Proof.
  revert p. induction l1 as [|e l1 IH]; intros p; [reflexivity|].
  cbn [app undo_policy]. apply IH.
Qed.

Lemma undo_policy_none_backed_up (l : list HistoryEntry) (p : BeliefTree) :
  not_backed_up l = l -> undo_policy (rev l) p = p.
Proof.
  unfold not_backed_up. revert p.
  induction l as [|e l IH]; intros p H; [reflexivity|].
  cbn [filter] in H.
  destruct (hasBeenBackedUp_ e) eqn:Hflag; cbn [negb] in H.
  - exfalso.
    assert (Hlen : (length (filter (fun e => negb (hasBeenBackedUp_ e)) l)
                    <= length l)%nat) by apply filter_length_le.
    rewrite H in Hlen. cbn [length] in Hlen. lia.
  - injection H as H. cbn [rev]. rewrite undo_policy_app.
    rewrite IH by exact H. cbn [undo_policy].
    unfold undo_policy_step. rewrite Hflag. reflexivity.
Qed.

Lemma undoBackup_run_forward (init : list HistoryEntry) (last : HistoryEntry)
  (s : Solver) :
  Forall (fun e => hasBeenBackedUp_ e = true -> has_action e) init ->
  undoBackup (init ++ [last]) s =
  Returns (map undo_entry init ++ [last])
      (mkSolver (undo_policy (rev init) (policy_ s))
                    (cerr s ++ undo_log (rev init))).
Proof.
  intros Hact.
  pose proof (undoBackup_run (rev init) last s (Forall_rev Hact)) as H.
  rewrite rev_involutive in H. rewrite H.
  rewrite <- map_rev, rev_involutive. reflexivity.
Qed.

(** A sequence whose first entry was never backed up. *)
Definition never_backed_up_sequence : HistorySequence :=
  [ mkHistoryEntry 1 1 (Some 0%Z) 1 false 0%Z;
    mkHistoryEntry 1 0 None 0 false 1%Z ].




(** *** More on [backup] and [undoBackup] *)

Lemma backup_loop_undefined (rest : list HistoryEntry) :
  forall t s, ~ Forall has_action rest -> backup_loop rest t s = Undefined.
Proof.
  induction rest as [|e rest IH]; intros t s Hnot.
  - exfalso. apply Hnot. constructor.
  - cbn [backup_loop]. unfold bind at 1. unfold backup_step.
    destruct (action_ e) as [a|] eqn:Ha; [|reflexivity].
    assert (Hrest : ~ Forall has_action rest).
    { intros H. apply Hnot. constructor; [|exact H].
      unfold has_action. rewrite Ha. discriminate. }
    destruct (hasBeenBackedUp_ e);
      unfold bind, updateQValue, modify, ret; cbn [snd fst];
      rewrite IH by exact Hrest; reflexivity.
Qed.

Lemma has_action_dec (e : HistoryEntry) : {has_action e} + {~ has_action e}.
Proof.
  unfold has_action. destruct (action_ e); [left; discriminate|right; auto].
Defined.

Lemma backup_returns_well_formed (sequence : HistorySequence) (s : Solver)
  (sequence' : HistorySequence) (s' : Solver) :
  backup sequence s = Returns sequence' s' -> well_formed sequence.
Proof.
  intros Hrun.
  destruct sequence as [|e0 tl] eqn:E; [discriminate|]. rewrite <- E in *.
  assert (Hne : sequence <> []) by (rewrite E; discriminate).
  destruct (exists_last Hne) as [init [last E']].
  split; [exact Hne|]. rewrite E' in *. rewrite removelast_last.
  destruct (Forall_dec has_action has_action_dec init) as [Hact|Hnot];
    [exact Hact|].
  exfalso. unfold backup in Hrun.
  rewrite rev_app_distr in Hrun. cbn [rev app] in Hrun.
  unfold bind in Hrun.
  rewrite backup_loop_undefined in Hrun; [discriminate|].
  intros H. apply Hnot. rewrite <- (rev_involutive init). apply Forall_rev. exact H.
Qed.

(** X2. [backup] returns on exactly the sequences that are not empty and
    carry an action on every entry but the last; on every other sequence
    its behaviour is undefined (it takes [rbegin()] of an empty vector or
    passes on a null action).  It never leaves the program. *)
Theorem backup_defined_iff_well_formed (sequence : HistorySequence) (s : Solver) :
  (well_formed sequence ->
     exists sequence' s', backup sequence s = Returns sequence' s') /\
  (~ well_formed sequence -> backup sequence s = Undefined) /\
  (forall status s', backup sequence s <> Exits status s').
Proof.
  split; [|split].
  - intros Hwf.
    destruct (well_formed_rev sequence Hwf) as [last [rest [E [_ Hact]]]].
    subst sequence. rewrite (backup_run rest last s Hact). eauto.
  - intros Hnot. destruct (backup sequence s) as [seq' s'| |] eqn:Hrun.
    + exfalso. apply Hnot. eapply backup_returns_well_formed. exact Hrun.
    + exfalso. unfold backup in Hrun.
      destruct (rev sequence) as [|last rest]; [discriminate|].
      unfold bind in Hrun.
      destruct (Forall_dec has_action has_action_dec rest) as [Hact|Hno].
      * rewrite backup_loop_run in Hrun by exact Hact. discriminate.
      * rewrite backup_loop_undefined in Hrun by exact Hno. discriminate.
    + reflexivity.
  - intros status s' Hrun. unfold backup in Hrun.
    destruct (rev sequence) as [|last rest]; [discriminate|].
    unfold bind in Hrun.
    destruct (Forall_dec has_action has_action_dec rest) as [Hact|Hno].
    + rewrite backup_loop_run in Hrun by exact Hact. discriminate.
    + rewrite backup_loop_undefined in Hrun by exact Hno. discriminate.
Qed.

Lemma backup_defined_iff_well_formed_witness :
  (exists sequence' s', backup sample_sequence empty_solver = Returns sequence' s') /\
  backup [] empty_solver = Undefined.
Proof.
  split.
  - apply (proj1 (backup_defined_iff_well_formed sample_sequence empty_solver)).
    exact sample_sequence_well_formed.
  - apply (proj1 (proj2 (backup_defined_iff_well_formed [] empty_solver))).
    intros [H _]. apply H. reflexivity.
Defined.

(** The fields of an entry that neither function writes. *)
Definition same_step (e e' : HistoryEntry) : Prop :=
  discount_ e' = discount_ e /\ reward_ e' = reward_ e /\
  action_ e' = action_ e /\ owningBeliefNode_ e' = owningBeliefNode_ e.

Lemma step_entry_same_step (e : HistoryEntry) (t : R) : same_step e (step_entry e t).
Proof. unfold step_entry, same_step. destruct (hasBeenBackedUp_ e); cbn; auto. Qed.

Lemma loop_entries_same_step (rest : list HistoryEntry) :
  forall t, Forall2 same_step rest (loop_entries rest t).
Proof.
  induction rest as [|e rest IH]; intros t; cbn [loop_entries]; constructor.
  - apply step_entry_same_step.
  - apply IH.
Qed.

Lemma Forall2_rev {A B : Type} (P : A -> B -> Prop) (l1 : list A) (l2 : list B) :
  Forall2 P l1 l2 -> Forall2 P (rev l1) (rev l2).
Proof.
  induction 1 as [|x y l1 l2 Hxy _ IH]; [constructor|].
  cbn [rev]. apply Forall2_app; [exact IH|]. constructor; [exact Hxy|constructor].
Qed.

Lemma loop_policy_elsewhere (rest : list HistoryEntry) :
  forall t p n a,
    Forall (fun e => entry_on n a e = false) rest ->
    loop_policy rest t p n a = p n a.
Proof.
  induction rest as [|e rest IH]; intros t p n a Hoff; [reflexivity|].
  inversion Hoff as [|? ? He Hrest]; subst.
  cbn [loop_policy]. rewrite IH by exact Hrest.
  unfold step_policy. unfold entry_on in He.
  destruct (action_ e) as [a0|]; [|reflexivity].
  destruct (hasBeenBackedUp_ e); unfold update_entry; rewrite He; reflexivity.
Qed.

(** X3. Whenever [backup] returns, it has written nothing to the error
    stream, has kept the length of the sequence and the discount, reward,
    action and belief node of every entry, has left the flag of the last
    entry as it was, and has left alone the statistics of every action of
    every belief node that no entry before the last is on. *)
Theorem backup_frame (sequence sequence' : HistorySequence) (s s' : Solver) :
  backup sequence s = Returns sequence' s' ->
  cerr s' = cerr s /\
  Forall2 same_step sequence sequence' /\
  hasBeenBackedUp_ (last sequence' default_entry)
    = hasBeenBackedUp_ (last sequence default_entry) /\
  (forall n a,
     Forall (fun e => entry_on n a e = false) (removelast sequence) ->
     policy_ s' n a = policy_ s n a).
Proof.
  intros Hrun.
  pose proof (backup_returns_well_formed _ _ _ _ Hrun) as Hwf.
  destruct (well_formed_rev sequence Hwf) as [lst [rest [E [_ Hact]]]].
  subst sequence. rewrite (backup_run rest lst s Hact) in Hrun.
  injection Hrun as <- <-. cbn [cerr policy_].
  split; [reflexivity|]. split; [|split].
  - apply Forall2_app.
    + apply Forall2_rev. apply loop_entries_same_step.
    + constructor; [|constructor].
      unfold same_step. destruct (action_ lst) eqn:Ha; cbn; rewrite ?Ha; auto.
  - rewrite !last_last. destruct (action_ lst); reflexivity.
  - intros n a Hoff. rewrite removelast_last in Hoff.
    apply loop_policy_elsewhere.
    rewrite <- (rev_involutive rest). apply Forall_rev. exact Hoff.
Qed.

Lemma backup_frame_witness :
  exists sequence' s',
    backup sample_sequence empty_solver = Returns sequence' s' /\
    cerr s' = cerr empty_solver /\
    Forall2 same_step sample_sequence sequence' /\
    policy_ s' 5%Z 5%Z = policy_ empty_solver 5%Z 5%Z.
Proof.
  destruct (well_formed_rev sample_sequence sample_sequence_well_formed)
    as (lst & rest & E & _ & Hact).
  pose proof (backup_run rest lst empty_solver Hact) as Hrun.
  rewrite <- E in Hrun.
  eexists. eexists. split; [exact Hrun|].
  destruct (backup_frame _ _ _ _ Hrun) as (Hcerr & Hsame & _ & Hoff).
  split; [exact Hcerr|]. split; [exact Hsame|].
  apply Hoff. repeat constructor.
Defined.

Lemma q_held_app (n : NodeId) (a : Action) (l1 l2 : list HistoryEntry) :
  q_held n a (l1 ++ l2) = q_held n a l1 + q_held n a l2.
Proof.
  induction l1 as [|e l1 IH]; cbn [app q_held]; [lra|rewrite IH; lra].
Qed.

Lemma visits_held_app (n : NodeId) (a : Action) (l1 l2 : list HistoryEntry) :
  visits_held n a (l1 ++ l2) = (visits_held n a l1 + visits_held n a l2)%Z.
Proof.
  induction l1 as [|e l1 IH]; cbn [app visits_held]; [lia|rewrite IH; lia].
Qed.

Lemma q_held_rev (n : NodeId) (a : Action) (l : list HistoryEntry) :
  q_held n a (rev l) = q_held n a l.
Proof.
  induction l as [|e l IH]; [reflexivity|].
  cbn [rev]. rewrite q_held_app, IH. cbn [q_held]. lra.
Qed.

Lemma visits_held_rev (n : NodeId) (a : Action) (l : list HistoryEntry) :
  visits_held n a (rev l) = visits_held n a l.
Proof.
  induction l as [|e l IH]; [reflexivity|].
  cbn [rev]. rewrite visits_held_app, IH. cbn [visits_held]. lia.
Qed.

Lemma step_entry_on (n : NodeId) (a : Action) (e : HistoryEntry) (t : R) :
  entry_on n a (step_entry e t) = entry_on n a e.
Proof. unfold step_entry, entry_on. destruct (hasBeenBackedUp_ e); reflexivity. Qed.

Lemma loop_entries_visits (n : NodeId) (a : Action) (rest : list HistoryEntry) :
  forall t, visits_held n a (loop_entries rest t) = visits_held n a rest.
Proof.
  induction rest as [|e rest IH]; intros t; [reflexivity|].
  cbn [loop_entries visits_held]. rewrite step_entry_on, IH. reflexivity.
Qed.

(** X4. On a sequence none of whose entries before the last has been backed
    up, [backup] adds to every action of every belief node one visit for
    each entry (before the last) that is on it, and to its Q sum the totals
    that [backup] has written into these entries. *)
Theorem backup_credits_fresh_entries (sequence : HistorySequence) (s : Solver) :
  sequence <> [] ->
  Forall fresh (removelast sequence) ->
  exists sequence' s',
    backup sequence s = Returns sequence' s' /\
    forall n a,
      totalQValue (policy_ s' n a)
      = totalQValue (policy_ s n a) + q_held n a (removelast sequence') /\
      visitCount (policy_ s' n a)
      = (visitCount (policy_ s n a) + visits_held n a (removelast sequence))%Z.
Proof.
  intros Hne Hfresh.
  destruct (fresh_rev sequence fresh Hne Hfresh) as [lst [rest [E Hrest]]].
  subst sequence.
  assert (Hact : Forall has_action rest)
    by (eapply Forall_impl; [|exact Hrest]; intros e [_ H]; exact H).
  rewrite (backup_run rest lst s Hact).
  eexists. eexists. split; [reflexivity|].
  intros n a. cbn [policy_]. rewrite !removelast_last.
  destruct (loop_policy_fresh rest (last_contribution lst) (policy_ s) n a Hrest)
    as [HQ HN].
  rewrite HQ, HN, q_held_rev, visits_held_rev, loop_entries_visits.
  split; reflexivity.
Qed.

Lemma backup_credits_fresh_entries_witness :
  exists sequence' s',
    backup sample_sequence empty_solver = Returns sequence' s' /\
    forall n a,
      totalQValue (policy_ s' n a)
      = totalQValue (policy_ empty_solver n a)
        + q_held n a (removelast sequence') /\
      visitCount (policy_ s' n a)
      = (visitCount (policy_ empty_solver n a)
         + visits_held n a (removelast sample_sequence))%Z.
Proof.
  apply (backup_credits_fresh_entries sample_sequence empty_solver).
  - discriminate.
  - exact sample_sequence_fresh.
Defined.

(** *** Running [backup] again *)

Lemma step_entry_idem (e : HistoryEntry) (t : R) :
  step_entry (step_entry e t) t = step_entry e t /\
  contribution (step_entry e t) = contribution e.
Proof.
  destruct e as [d r a tdr [|] n]; unfold step_entry; cbn; split; reflexivity.
Qed.

Lemma loop_entries_idem (rest : list HistoryEntry) :
  forall t, loop_entries (loop_entries rest t) t = loop_entries rest t.
Proof.
  induction rest as [|e rest IH]; intros t; [reflexivity|].
  cbn [loop_entries].
  destruct (step_entry_idem e t) as [H1 H2]. rewrite H1, H2, IH. reflexivity.
Qed.

Lemma step_entry_undone (e : HistoryEntry) (t : R) :
  step_entry (undo_entry (step_entry e t)) t = step_entry e t /\
  contribution (undo_entry (step_entry e t)) = contribution e.
Proof.
  destruct e as [d r a tdr [|] n]; unfold step_entry, undo_entry; cbn;
    split; reflexivity.
Qed.

Lemma loop_entries_undone (rest : list HistoryEntry) :
  forall t,
    loop_entries (map undo_entry (loop_entries rest t)) t = loop_entries rest t.
Proof.
  induction rest as [|e rest IH]; intros t; [reflexivity|].
  cbn [loop_entries map].
  destruct (step_entry_undone e t) as [H1 H2]. rewrite H1, H2, IH. reflexivity.
Qed.

Lemma loop_policy_again (rest : list HistoryEntry) :
  forall t p n a,
    totalQValue (loop_policy (loop_entries rest t) t p n a) = totalQValue (p n a) /\
    visitCount (loop_policy (loop_entries rest t) t p n a) = visitCount (p n a).
Proof.
  induction rest as [|e rest IH]; intros t p n a; [split; reflexivity|].
  cbn [loop_entries loop_policy].
  destruct (step_entry_idem e t) as [_ H2]. rewrite H2.
  destruct (IH (contribution e + t) (step_policy (step_entry e t) t p) n a)
    as [HQ HN].
  rewrite HQ, HN.
  destruct e as [d r [a0|] tdr [|] n0];
    unfold step_policy, step_entry, update_entry, contribution; cbn;
    try (split; reflexivity);
    destruct (Z.eqb n n0 && Z.eqb a a0)%bool; cbn;
    split; try reflexivity; try lra; lia.
Qed.

Lemma last_again (lst : HistoryEntry) :
  let lst' :=
    match action_ lst with
    | None => lst
    | Some _ => set_totalDiscountedReward lst (discount_ lst * reward_ lst)
    end in
  last_contribution lst' = last_contribution lst /\
  match action_ lst' with
  | None => lst'
  | Some _ => set_totalDiscountedReward lst' (discount_ lst' * reward_ lst')
  end = lst'.
Proof.
  unfold last_contribution, contribution.
  destruct (action_ lst) eqn:Ha; cbn; rewrite ?Ha; split; reflexivity.
Qed.

(** X5. Running [backup] a second time changes nothing: it returns the
    sequence as the first run left it and leaves every Q sum and every
    visit count as they were (in exact arithmetic the change of each total
    is 0). *)
Theorem backup_again_changes_nothing
  (sequence sequence1 : HistorySequence) (s s1 : Solver) :
  backup sequence s = Returns sequence1 s1 ->
  exists s2,
    backup sequence1 s1 = Returns sequence1 s2 /\
    (forall n a, policy_ s2 n a = policy_ s1 n a) /\
    cerr s2 = cerr s1.
Proof.
  intros Hrun.
  pose proof (backup_returns_well_formed _ _ _ _ Hrun) as Hwf.
  destruct (well_formed_rev sequence Hwf) as [lst [rest [E [_ Hact]]]].
  subst sequence. rewrite (backup_run rest lst s Hact) in Hrun.
  injection Hrun as <- <-.
  set (t := last_contribution lst).
  pose proof (loop_entries_backed_up rest t Hact) as Hbacked.
  assert (Hact1 : Forall has_action (loop_entries rest t))
    by (eapply Forall_impl; [|exact Hbacked]; intros e [_ H]; exact H).
  pose proof (backup_run (loop_entries rest t)
                match action_ lst with
                | None => lst
                | Some _ =>
                    set_totalDiscountedReward lst (discount_ lst * reward_ lst)
                end
                (mkSolver (loop_policy rest t (policy_ s)) (cerr s))
                Hact1) as Hrun2.
  revert Hrun2.
  destruct (last_again lst) as [Ht Hlast]. cbn zeta in Ht, Hlast.
  rewrite Ht, Hlast. fold t. rewrite loop_entries_idem. cbn [policy_ cerr].
  intros Hrun2. eexists. split; [exact Hrun2|].
  cbn [policy_ cerr]. split; [|reflexivity].
  intros n a.
  destruct (loop_policy_again rest t (loop_policy rest t (policy_ s)) n a).
  apply entry_eq; assumption.
Qed.

Lemma backup_again_changes_nothing_witness :
  exists sequence1 s1 s2,
    backup sample_sequence empty_solver = Returns sequence1 s1 /\
    backup sequence1 s1 = Returns sequence1 s2 /\
    (forall n a, policy_ s2 n a = policy_ s1 n a).
Proof.
  destruct (well_formed_rev sample_sequence sample_sequence_well_formed)
    as (lst & rest & E & _ & Hact).
  pose proof (backup_run rest lst empty_solver Hact) as Hrun.
  rewrite <- E in Hrun.
  destruct (backup_again_changes_nothing _ _ _ _ Hrun) as (s2 & Hrun2 & Hsame & _).
  eexists. eexists. exists s2. split; [exact Hrun|]. split; assumption.
Defined.

(** *** [undoBackup] and then [backup], as [applyChanges] does *)

(** X6. After a [backup], undoing it and backing the sequence up again (what
    [applyChanges] does to a terminal sequence that the revision has left
    alone) returns without a message, gives the sequence back as the first
    backup left it, and leaves every Q sum and visit count as the first
    backup left them. *)
Theorem undoBackup_then_backup_restores
  (sequence sequence1 : HistorySequence) (s s1 : Solver) :
  backup sequence s = Returns sequence1 s1 ->
  exists sequence2 s2 s3,
    undoBackup sequence1 s1 = Returns sequence2 s2 /\
    backup sequence2 s2 = Returns sequence1 s3 /\
    (forall n a, policy_ s3 n a = policy_ s1 n a) /\
    cerr s3 = cerr s1.
Proof.
  intros Hrun.
  pose proof (backup_returns_well_formed _ _ _ _ Hrun) as Hwf.
  destruct (well_formed_rev sequence Hwf) as [lst [rest [E [_ Hact]]]].
  subst sequence. rewrite (backup_run rest lst s Hact) in Hrun.
  injection Hrun as <- <-.
  set (t := last_contribution lst).
  set (lst' := match action_ lst with
               | None => lst
               | Some _ =>
                   set_totalDiscountedReward lst (discount_ lst * reward_ lst)
               end).
  set (s1 := mkSolver (loop_policy rest t (policy_ s)) (cerr s)).
  pose proof (loop_entries_backed_up rest t Hact) as Hbacked.
  assert (Hundo : Forall (fun e => hasBeenBackedUp_ e = true -> has_action e)
                    (loop_entries rest t))
    by (eapply Forall_impl; [|exact Hbacked]; intros e [_ H] _; exact H).
  pose proof (undoBackup_run (loop_entries rest t) lst' s1 Hundo) as Hrun2.
  rewrite (undo_log_backed_up _ Hbacked), app_nil_r in Hrun2.
  assert (Hfresh2 : Forall fresh (map undo_entry (loop_entries rest t))).
  { apply Forall_map. eapply Forall_impl; [|exact Hbacked].
    intros e [Hflag Ha]. unfold fresh, undo_entry, has_action in *.
    rewrite Hflag. cbn. auto. }
  assert (Hact2 : Forall has_action (map undo_entry (loop_entries rest t)))
    by (eapply Forall_impl; [|exact Hfresh2]; intros e [_ H]; exact H).
  pose proof (backup_run (map undo_entry (loop_entries rest t)) lst'
                (mkSolver (undo_policy (loop_entries rest t) (policy_ s1)) (cerr s1))
                Hact2) as Hrun3.
  destruct (last_again lst) as [Ht Hlast]. cbn zeta in Ht, Hlast.
  fold lst' in Ht, Hlast. rewrite Ht, Hlast in Hrun3. fold t in Hrun3.
  rewrite loop_entries_undone in Hrun3.
  eexists. eexists. eexists.
  split; [exact Hrun2|]. split; [exact Hrun3|].
  cbn [policy_ cerr]. split; [|reflexivity].
  intros n a.
  destruct (loop_policy_fresh (map undo_entry (loop_entries rest t)) t
              (undo_policy (loop_entries rest t) (policy_ s1)) n a Hfresh2)
    as [HQ HN].
  rewrite loop_entries_undone in HQ, HN.
  destruct (undo_policy_backed_up (loop_entries rest t) (policy_ s1) n a Hbacked)
    as [HQ' HN'].
  apply entry_eq; [rewrite HQ, HQ'; lra|rewrite HN, HN'; lia].
Qed.

Lemma undoBackup_then_backup_restores_witness :
  exists sequence1 s1 sequence2 s2 s3,
    backup sample_sequence empty_solver = Returns sequence1 s1 /\
    undoBackup sequence1 s1 = Returns sequence2 s2 /\
    backup sequence2 s2 = Returns sequence1 s3 /\
    (forall n a, policy_ s3 n a = policy_ s1 n a).
Proof.
  destruct (well_formed_rev sample_sequence sample_sequence_well_formed)
    as (lst & rest & E & _ & Hact).
  pose proof (backup_run rest lst empty_solver Hact) as Hrun.
  rewrite <- E in Hrun.
  destruct (undoBackup_then_backup_restores _ _ _ _ Hrun)
    as (sequence2 & s2 & s3 & Hrun2 & Hrun3 & Hsame & _).
  eexists. eexists. exists sequence2, s2, s3.
  split; [exact Hrun|]. split; [exact Hrun2|]. split; assumption.
Defined.

(** *** More on [undoBackup] *)

Lemma undo_loop_undefined (rest : list HistoryEntry) :
  forall s,
    ~ Forall (fun e => hasBeenBackedUp_ e = true -> has_action e) rest ->
    undo_loop rest s = Undefined.
Proof.
  induction rest as [|e rest IH]; intros s Hnot.
  - exfalso. apply Hnot. constructor.
  - cbn [undo_loop]. unfold bind at 1. unfold undo_step.
    destruct (hasBeenBackedUp_ e) eqn:Hflag.
    + destruct (action_ e) as [a|] eqn:Ha; [|reflexivity].
      unfold bind, updateQValue, modify, ret.
      rewrite IH; [reflexivity|].
      intros H. apply Hnot. constructor; [|exact H].
      intros _. unfold has_action. rewrite Ha. discriminate.
    + unfold bind, print_cerr, modify, ret.
      rewrite IH; [reflexivity|].
      intros H. apply Hnot. constructor; [|exact H].
      rewrite Hflag. discriminate.
Qed.

Lemma undoable_dec (e : HistoryEntry) :
  {hasBeenBackedUp_ e = true -> has_action e}
  + {~ (hasBeenBackedUp_ e = true -> has_action e)}.
Proof.
  destruct (hasBeenBackedUp_ e); [|left; discriminate].
  destruct (has_action_dec e) as [H|H]; [left; auto|right; auto].
Defined.

Lemma undoBackup_returns_inv (sequence sequence' : HistorySequence) (s s' : Solver) :
  undoBackup sequence s = Returns sequence' s' ->
  exists init lst,
    sequence = init ++ [lst] /\
    Forall (fun e => hasBeenBackedUp_ e = true -> has_action e) init.
Proof.
  intros Hrun.
  destruct sequence as [|e0 tl] eqn:E; [discriminate|]. rewrite <- E in *.
  assert (Hne : sequence <> []) by (rewrite E; discriminate).
  destruct (exists_last Hne) as [init [lst E']].
  exists init, lst. split; [exact E'|].
  destruct (Forall_dec _ undoable_dec init) as [H|Hnot]; [exact H|].
  exfalso. rewrite E' in Hrun. unfold undoBackup in Hrun.
  rewrite rev_app_distr in Hrun. cbn [rev app] in Hrun.
  unfold bind in Hrun.
  rewrite undo_loop_undefined in Hrun; [discriminate|].
  intros H. apply Hnot. rewrite <- (rev_involutive init). apply Forall_rev. exact H.
Qed.

(** The fields of an entry that [undoBackup] does not write. *)
Definition same_but_flag (e e' : HistoryEntry) : Prop :=
  same_step e e' /\ totalDiscountedReward_ e' = totalDiscountedReward_ e.

Lemma undo_entries_same (init : list HistoryEntry) :
  Forall2 same_but_flag init (map undo_entry init).
Proof.
  induction init as [|e init IH]; cbn [map]; constructor; [|exact IH].
  unfold same_but_flag, same_step, undo_entry.
  destruct (hasBeenBackedUp_ e); cbn; auto.
Qed.

Lemma undo_policy_elsewhere (l : list HistoryEntry) :
  forall p n a,
    Forall (fun e => entry_on n a e = false) l -> undo_policy l p n a = p n a.
Proof.
  induction l as [|e l IH]; intros p n a Hoff; [reflexivity|].
  inversion Hoff as [|? ? He Hrest]; subst.
  cbn [undo_policy]. rewrite IH by exact Hrest.
  unfold undo_policy_step. unfold entry_on in He.
  destruct (hasBeenBackedUp_ e); [|reflexivity].
  destruct (action_ e) as [a0|]; [|reflexivity].
  unfold update_entry. rewrite He. reflexivity.
Qed.

(** X7. Whenever [undoBackup] returns, it has kept the length of the
    sequence and the discount, reward, action, belief node and stored total
    of every entry, has not touched the last entry at all, and has left
    alone the statistics of every action of every belief node that no entry
    before the last is on. *)
Theorem undoBackup_frame (sequence sequence' : HistorySequence) (s s' : Solver) :
  undoBackup sequence s = Returns sequence' s' ->
  Forall2 same_but_flag sequence sequence' /\
  last sequence' default_entry = last sequence default_entry /\
  (forall n a,
     Forall (fun e => entry_on n a e = false) (removelast sequence) ->
     policy_ s' n a = policy_ s n a).
Proof.
  intros Hrun.
  destruct (undoBackup_returns_inv _ _ _ _ Hrun) as (init & lst & E & Hact).
  subst sequence. rewrite (undoBackup_run_forward init lst s Hact) in Hrun.
  injection Hrun as <- <-. cbn [policy_].
  split; [|split].
  - apply Forall2_app; [apply undo_entries_same|].
    constructor; [|constructor]. unfold same_but_flag, same_step. auto.
  - rewrite !last_last. reflexivity.
  - intros n a Hoff. rewrite removelast_last in Hoff.
    apply undo_policy_elsewhere. apply Forall_rev. exact Hoff.
Qed.

Lemma undoBackup_frame_witness :
  exists sequence' s',
    undoBackup never_backed_up_sequence empty_solver = Returns sequence' s' /\
    Forall2 same_but_flag never_backed_up_sequence sequence' /\
    last sequence' default_entry = last never_backed_up_sequence default_entry.
Proof.
  assert (Hrun : undoBackup never_backed_up_sequence empty_solver =
                 Returns never_backed_up_sequence
                   (mkSolver (policy_ empty_solver) [undo_message]))
    by reflexivity.
  destruct (undoBackup_frame _ _ _ _ Hrun) as (Hsame & Hlast & _).
  eexists. eexists. split; [exact Hrun|]. split; assumption.
Defined.

Lemma undo_entry_idem (init : list HistoryEntry) :
  map undo_entry (map undo_entry init) = map undo_entry init.
Proof.
  rewrite map_map. apply map_ext. intros e.
  destruct e as [d r a tdr [|] n]; reflexivity.
Qed.

Lemma undone_not_backed_up (init : list HistoryEntry) :
  not_backed_up (map undo_entry init) = map undo_entry init.
Proof.
  unfold not_backed_up.
  induction init as [|e init IH]; [reflexivity|].
  cbn [map filter].
  replace (hasBeenBackedUp_ (undo_entry e)) with false
    by (destruct e as [d r a tdr [|] n]; reflexivity).
  cbn [negb]. rewrite IH. reflexivity.
Qed.

(** X8. Running [undoBackup] a second time undoes nothing further: it
    returns the sequence as the first run left it, leaves every belief node
    as it is, and writes its error line once for each entry before the
    last. *)
Theorem undoBackup_again_only_reports
  (sequence sequence1 : HistorySequence) (s s1 : Solver) :
  undoBackup sequence s = Returns sequence1 s1 ->
  exists s2,
    undoBackup sequence1 s1 = Returns sequence1 s2 /\
    policy_ s2 = policy_ s1 /\
    cerr s2 = cerr s1 ++ repeat undo_message (length sequence - 1).
Proof.
  intros Hrun.
  destruct (undoBackup_returns_inv _ _ _ _ Hrun) as (init & lst & E & Hact).
  subst sequence. rewrite (undoBackup_run_forward init lst s Hact) in Hrun.
  injection Hrun as <- <-.
  assert (Hact1 : Forall (fun e => hasBeenBackedUp_ e = true -> has_action e)
                    (map undo_entry init)).
  { apply Forall_map. apply Forall_forall. intros e _.
    destruct e as [d r a tdr [|] n]; cbn; discriminate. }
  rewrite (undoBackup_run_forward (map undo_entry init) lst _ Hact1).
  rewrite undo_entry_idem.
  eexists. split; [reflexivity|]. cbn [policy_ cerr]. split.
  - apply undo_policy_none_backed_up. apply undone_not_backed_up.
  - rewrite (undo_log_length (map undo_entry init)), undone_not_backed_up,
      length_map, length_app.
    cbn [length]. replace (length init + 1 - 1)%nat with (length init) by lia.
    reflexivity.
Qed.

Lemma undoBackup_again_only_reports_witness :
  exists sequence1 s1 s2,
    undoBackup sample_sequence empty_solver = Returns sequence1 s1 /\
    undoBackup sequence1 s1 = Returns sequence1 s2 /\
    policy_ s2 = policy_ s1.
Proof.
  assert (Hact : Forall (fun e => hasBeenBackedUp_ e = true -> has_action e)
                   (removelast sample_sequence))
    by (repeat constructor; discriminate).
  pose proof (undoBackup_run_forward (removelast sample_sequence)
                (last sample_sequence default_entry) empty_solver Hact) as Hrun.
  change (removelast sample_sequence ++ [last sample_sequence default_entry])
    with sample_sequence in Hrun.
  destruct (undoBackup_again_only_reports _ _ _ _ Hrun) as (s2 & Hrun2 & Hsame & _).
  eexists. eexists. exists s2. split; [exact Hrun|]. split; assumption.
Defined.

End Backup.

(** ** The rollout: [getRolloutAction], [rolloutPolHelper], [getNNBelNode],
    [updateHeuristicProbabilities] *)

Module Rollout.

Import Exec.Notations.
Open Scope R_scope.
Open Scope exec_scope.

(** The two rollout modes; they index the arrays of size 2 of the solver
    ([ROLLOUT_RANDHEURISTIC] the first element, [ROLLOUT_POL] the second). *)
Inductive RolloutMode : Type := ROLLOUT_RANDHEURISTIC | ROLLOUT_POL.

(** An array indexed by the rollout mode. *)
Definition per_mode (A : Type) : Type := (A * A)%type.

Definition at_mode {A : Type} (arr : per_mode A) (m : RolloutMode) : A :=
  match m with
  | ROLLOUT_RANDHEURISTIC => fst arr
  | ROLLOUT_POL => snd arr
  end.

Definition set_at_mode {A : Type} (arr : per_mode A) (m : RolloutMode) (v : A)
  : per_mode A :=
  match m with
  | ROLLOUT_RANDHEURISTIC => (v, snd arr)
  | ROLLOUT_POL => (fst arr, v)
  end.

(** The POSIX value of the macro. *)
Definition CLOCKS_PER_SEC : R := 1000000.

Section WithModel.

(** The state and observation types of the POMDP, and the pseudo-random
    generator that the solver and the model share. *)
Context {State Observation RandomGenerator : Type}.

(** [std::bernoulli_distribution(p)(gen)] *)
Variable bernoulli_distribution : R -> RandomGenerator -> bool * RandomGenerator.

(** [Model::StepResult] *)
Record StepResult : Type := mkStepResult {
  action : Action;
  observation : Observation;
  reward : R;
  nextState : State;
  isTerminal : bool
}.

(** The part of the [Model] interface the rollout calls. *)
Record Model : Type := mkModel {
  generateStep : State -> Action -> RandomGenerator -> StepResult * RandomGenerator;
  getHeuristicValue : State -> R;
  getMaxNnComparisons : Z;
  getMaxNnDistance : R;
  getMaxVal : R;
  getHeuristicExploreCoefficient : R
}.

Variable model_ : Model.

#[local] Set Warnings "-register-all".

(** A belief node with the subtree it owns.  The two fields that
    [getNNBelNode] writes, [tNNComp_] and [nnBel_], live in the solver
    state, keyed by [nodeId]. *)
Inductive BeliefNode : Type := mkBeliefNode {
  nodeId : NodeId;
  getNParticles : Z;
  getNActChildren : Z;
  getBestAction : Action;
  getNextActionToTry : Action;
  tLastAddedParticle_ : R;
  getChild : Action -> Observation -> option BeliefNode
}.

(** [BeliefNode::distL1Independent] is not among the sources. *)
Variable distL1Independent : BeliefNode -> BeliefNode -> R.

Record Solver : Type := mkSolver {
  randGen_ : RandomGenerator;
  (** the values the coming calls of [std::clock()] return *)
  clock_ : nat -> Z;
  (** [BeliefNode::startTime] *)
  startTime : Z;
  (** [policy_->allNodes_] *)
  allNodes_ : list BeliefNode;
  tNNComp_ : NodeId -> R;
  nnBel_ : NodeId -> option BeliefNode;
  lastRolloutMode_ : RolloutMode;
  heuristicExploreCoefficient_ : R;
  timeUsedPerHeuristic_ : per_mode R;
  heuristicWeight_ : per_mode R;
  heuristicProbability_ : per_mode R;
  heuristicUseCount_ : per_mode Z
}.

Definition set_randGen (s : Solver) (g : RandomGenerator) : Solver :=
  mkSolver g (clock_ s) (startTime s) (allNodes_ s) (tNNComp_ s) (nnBel_ s)
    (lastRolloutMode_ s) (heuristicExploreCoefficient_ s)
    (timeUsedPerHeuristic_ s) (heuristicWeight_ s) (heuristicProbability_ s)
    (heuristicUseCount_ s).

Definition set_clock (s : Solver) (c : nat -> Z) : Solver :=
  mkSolver (randGen_ s) c (startTime s) (allNodes_ s) (tNNComp_ s) (nnBel_ s)
    (lastRolloutMode_ s) (heuristicExploreCoefficient_ s)
    (timeUsedPerHeuristic_ s) (heuristicWeight_ s) (heuristicProbability_ s)
    (heuristicUseCount_ s).

Definition set_nn_cache (s : Solver) (b : NodeId) (t : R)
  (nn : option BeliefNode) : Solver :=
  mkSolver (randGen_ s) (clock_ s) (startTime s) (allNodes_ s)
    (fun n => if Z.eqb n b then t else tNNComp_ s n)
    (fun n => if Z.eqb n b then nn else nnBel_ s n)
    (lastRolloutMode_ s) (heuristicExploreCoefficient_ s)
    (timeUsedPerHeuristic_ s) (heuristicWeight_ s) (heuristicProbability_ s)
    (heuristicUseCount_ s).

Definition set_lastRolloutMode (s : Solver) (m : RolloutMode) : Solver :=
  mkSolver (randGen_ s) (clock_ s) (startTime s) (allNodes_ s) (tNNComp_ s)
    (nnBel_ s) m (heuristicExploreCoefficient_ s)
    (timeUsedPerHeuristic_ s) (heuristicWeight_ s) (heuristicProbability_ s)
    (heuristicUseCount_ s).

Definition set_statistics (s : Solver) (time : per_mode R) (count : per_mode Z)
  : Solver :=
  mkSolver (randGen_ s) (clock_ s) (startTime s) (allNodes_ s) (tNNComp_ s)
    (nnBel_ s) (lastRolloutMode_ s) (heuristicExploreCoefficient_ s)
    time (heuristicWeight_ s) (heuristicProbability_ s) count.

Definition set_mixture (s : Solver) (weight probability : per_mode R) : Solver :=
  mkSolver (randGen_ s) (clock_ s) (startTime s) (allNodes_ s) (tNNComp_ s)
    (nnBel_ s) (lastRolloutMode_ s) (heuristicExploreCoefficient_ s)
    (timeUsedPerHeuristic_ s) weight probability (heuristicUseCount_ s).

(** [std::clock()]: the next reading. *)
Definition std_clock : M Solver Z :=
  fun s => Returns (clock_ s 0%nat) (set_clock s (fun k => clock_ s (S k))).

(** A draw from [*randGen_]. *)
Definition draw {A : Type} (f : RandomGenerator -> A * RandomGenerator)
  : M Solver A :=
  fun s => Returns (fst (f (randGen_ s))) (set_randGen s (snd (f (randGen_ s)))).

(** Milliseconds of processor time for a number of clock ticks. *)
Definition milliseconds (ticks : Z) : R := IZR ticks * 1000 / CLOCKS_PER_SEC.

(** *** [Solver::rolloutPolHelper] *)

(** The recursion on a node that is not [nullptr]; it follows the children
    that the node owns.  The only state it touches is the generator, through
    [Model::generateStep]. *)
Fixpoint rolloutPolNode (currNode : BeliefNode) (state : State)
  (discountFactor : R) (gen : RandomGenerator) {struct currNode}
  : R * RandomGenerator :=
  match currNode with
  | mkBeliefNode _ nParticles nActChildren bestAction _ _ child =>
      if Z.eqb nParticles 0 then (0, gen)
      else if Z.eqb nActChildren 0 then (0, gen)
      else
        let stepped := generateStep model_ state bestAction gen in
        let result := fst stepped in
        let qVal := reward result in
        if isTerminal result then (qVal, snd stepped)
        else
          match child bestAction (observation result) with
          | None => (qVal + discountFactor * 0, snd stepped)
          | Some next =>
              let tail :=
                rolloutPolNode next (nextState result) discountFactor (snd stepped) in
              (qVal + discountFactor * fst tail, snd tail)
          end
  end.

Definition rolloutPol (currNode : option BeliefNode) (state : State)
  (discountFactor : R) (gen : RandomGenerator) : R * RandomGenerator :=
  match currNode with
  | None => (0, gen)
  | Some node => rolloutPolNode node state discountFactor gen
  end.

Definition rolloutPolHelper (currNode : option BeliefNode) (state : State)
  (discountFactor : R) : M Solver R :=
  draw (rolloutPol currNode state discountFactor).

(** *** [Solver::getNNBelNode] *)

(** [d < minDist], where [minDist = None] stands for infinity. *)
Definition below (d : R) (minDist : option R) : bool :=
  match minDist with
  | None => true
  | Some m => if Rlt_dec d m then true else false
  end.

(** [minDist > bound], where [minDist = None] stands for infinity. *)
Definition exceeds (minDist : option R) (bound : R) : bool :=
  match minDist with
  | None => true
  | Some m => if Rgt_dec m bound then true else false
  end.

(** The [for] loop over [policy_->allNodes_]: [tNNComp] is [b->tNNComp_];
    the result is [(minDist, nnBel)]. *)
Fixpoint nn_scan (b : BeliefNode) (tNNComp : R) (nodes : list BeliefNode)
  (numTried : Z) (minDist : option R) (nnBel : option BeliefNode)
  : option R * option BeliefNode :=
  match nodes with
  | [] => (minDist, nnBel)
  | node :: nodes' =>
      if Z.geb numTried (getMaxNnComparisons model_) then (minDist, nnBel)
      else
        let found :=
          if Rlt_dec tNNComp (tLastAddedParticle_ node) then
            let d := distL1Independent b node in
            if below d minDist then (Some d, Some node) else (minDist, nnBel)
          else (minDist, nnBel) in
        nn_scan b tNNComp nodes' (numTried + 1) (fst found) (snd found)
  end.

(** What [getNNBelNode b] finds in state [s]: [(minDist, nnBel)] after the
    loop. *)
Definition nn_found (b : BeliefNode) (s : Solver) : option R * option BeliefNode :=
  nn_scan b (tNNComp_ s (nodeId b)) (allNodes_ s) 0 None (nnBel_ s (nodeId b)).

(** The node [getNNBelNode b] returns in state [s]. *)
Definition nearest (b : BeliefNode) (s : Solver) : option BeliefNode :=
  if exceeds (fst (nn_found b s)) (getMaxNnDistance model_) then None
  else snd (nn_found b s).

Definition getNNBelNode (b : BeliefNode) : M Solver (option BeliefNode) :=
  found <- gets (nn_found b) ;;
  result <- gets (nearest b) ;;
  now <- std_clock ;;
  start <- gets startTime ;;
  modify (fun s => set_nn_cache s (nodeId b) (milliseconds (now - start))
                     (snd found)) ;;;
  ret result.

(** *** [Solver::getRolloutAction] *)

Definition is_pol (m : RolloutMode) : bool :=
  match m with ROLLOUT_POL => true | ROLLOUT_RANDHEURISTIC => false end.

Definition is_randheuristic (m : RolloutMode) : bool := negb (is_pol m).

(** The locals [qVal], [startTime], [endTime].  The two times are declared
    without a value; they stand at 0 here until they are assigned, which
    on every path happens before they are read. *)
Record Locals : Type := mkLocals {
  qVal : R;
  startTime_ : Z;
  endTime_ : Z
}.

Definition getRolloutAction (belNode : BeliefNode) (state : State)
  (startDiscount discountFactor : R) : M Solver (StepResult * R) :=
  let action := getNextActionToTry belNode in
  result <- draw (generateStep model_ state action) ;;
  p <- gets (fun s => at_mode (heuristicProbability_ s) ROLLOUT_RANDHEURISTIC) ;;
  heads <- draw (bernoulli_distribution p) ;;
  modify (fun s => set_lastRolloutMode s
            (if heads then ROLLOUT_RANDHEURISTIC else ROLLOUT_POL)) ;;;
  mode <- gets lastRolloutMode_ ;;
  locals <-
    (if is_pol mode then
       t0 <- std_clock ;;
       currNode <- getNNBelNode belNode ;;
       match currNode with
       | None =>
           modify (fun s => set_lastRolloutMode s ROLLOUT_RANDHEURISTIC) ;;;
           ret (mkLocals 0 t0 0)
       | Some nn =>
           q <- rolloutPolHelper (getChild nn action (observation result))
                  (nextState result) discountFactor ;;
           modify (fun s => set_lastRolloutMode s ROLLOUT_POL) ;;;
           t1 <- std_clock ;;
           ret (mkLocals (q * (startDiscount * discountFactor)) t0 t1)
       end
     else ret (mkLocals 0 0 0)) ;;
  mode <- gets lastRolloutMode_ ;;
  locals <-
    (if is_randheuristic mode then
       t0 <- std_clock ;;
       let q :=
         if isTerminal result then qVal locals
         else getHeuristicValue model_ (nextState result)
              * (startDiscount * discountFactor) in
       modify (fun s => set_lastRolloutMode s ROLLOUT_RANDHEURISTIC) ;;;
       t1 <- std_clock ;;
       ret (mkLocals q t0 t1)
     else ret locals) ;;
  modify (fun s =>
    set_statistics s
      (set_at_mode (timeUsedPerHeuristic_ s) (lastRolloutMode_ s)
         (at_mode (timeUsedPerHeuristic_ s) (lastRolloutMode_ s)
          + milliseconds (endTime_ locals - startTime_ locals)))
      (set_at_mode (heuristicUseCount_ s) (lastRolloutMode_ s)
         (at_mode (heuristicUseCount_ s) (lastRolloutMode_ s) + 1)%Z)) ;;;
  ret (result, qVal locals).

(** *** [Solver::updateHeuristicProbabilities] *)

(** The update in exact arithmetic: sums, products, quotients and [exp]
    are those of the real numbers.  [Binary64.updateHeuristicProbabilities]
    is the same function with the operations of the [double]. *)
Definition updateHeuristicProbabilities (valImprovement : R) : M Solver unit :=
  modify (fun s =>
    let valImprovement :=
      if Rlt_dec valImprovement 0 then 0 else valImprovement in
    let m := lastRolloutMode_ s in
    let alpha := heuristicExploreCoefficient_ s in
    let weight :=
      set_at_mode (heuristicWeight_ s) m
        (at_mode (heuristicWeight_ s) m
         * exp (alpha * (valImprovement / getMaxVal model_)
                / (2 * at_mode (heuristicProbability_ s) m))) in
    let totWRollout :=
      0 + at_mode weight ROLLOUT_RANDHEURISTIC + at_mode weight ROLLOUT_POL in
    let unnormalised (i : RolloutMode) :=
      ((1 - alpha) * at_mode weight i / totWRollout + alpha / 2)
      * IZR (at_mode (heuristicUseCount_ s) i)
      / at_mode (timeUsedPerHeuristic_ s) i in
    let totP :=
      0 + unnormalised ROLLOUT_RANDHEURISTIC + unnormalised ROLLOUT_POL in
    set_mixture s weight
      (unnormalised ROLLOUT_RANDHEURISTIC / totP, unnormalised ROLLOUT_POL / totP)).


(** *** [Solver::Solver]: the values the constructor gives the mixture *)

Definition constructed (s : Solver) : Prop :=
  lastRolloutMode_ s = ROLLOUT_RANDHEURISTIC /\
  heuristicExploreCoefficient_ s = getHeuristicExploreCoefficient model_ /\
  timeUsedPerHeuristic_ s = (1, 1) /\
  heuristicWeight_ s = (1, 1) /\
  heuristicProbability_ s = (1/2, 1/2) /\
  heuristicUseCount_ s = (1%Z, 1%Z).

(** *** The three ways through [getRolloutAction] *)

(** The model step taken first, and the generator after it. *)
Definition stepped (b : BeliefNode) (st : State) (s : Solver)
  : StepResult * RandomGenerator :=
  generateStep model_ st (getNextActionToTry b) (randGen_ s).

(** The Bernoulli draw, and the generator after it. *)
Definition tossed (b : BeliefNode) (st : State) (s : Solver)
  : bool * RandomGenerator :=
  bernoulli_distribution
    (at_mode (heuristicProbability_ s) ROLLOUT_RANDHEURISTIC)
    (snd (stepped b st s)).

(** The mode the draw selects. *)
Definition drawn_mode (b : BeliefNode) (st : State) (s : Solver) : RolloutMode :=
  if fst (tossed b st s) then ROLLOUT_RANDHEURISTIC else ROLLOUT_POL.

(** The estimate of the random-heuristic mode. *)
Definition heuristic_estimate (result : StepResult)
  (startDiscount discountFactor : R) : R :=
  if isTerminal result then 0
  else getHeuristicValue model_ (nextState result)
       * (startDiscount * discountFactor).

(** The node the policy rollout starts from, below the neighbour [nn]. *)
Definition transplant_root (b : BeliefNode) (st : State) (s : Solver)
  (nn : BeliefNode) : option BeliefNode :=
  getChild nn (getNextActionToTry b) (observation (fst (stepped b st s))).

(** The policy rollout below the neighbour [nn]. *)
Definition transplanted (b : BeliefNode) (st : State) (s : Solver)
  (nn : BeliefNode) (discountFactor : R) : R * RandomGenerator :=
  rolloutPol (transplant_root b st s nn)
    (nextState (fst (stepped b st s))) discountFactor (snd (tossed b st s)).

(** The clock after [n] readings. *)
Definition later (c : nat -> Z) (n : nat) : nat -> Z := fun k => c (n + k)%nat.

Definition add_time (s : Solver) (m : RolloutMode) (ticks : Z) : per_mode R :=
  set_at_mode (timeUsedPerHeuristic_ s) m
    (at_mode (timeUsedPerHeuristic_ s) m + milliseconds ticks).

Definition add_use (s : Solver) (m : RolloutMode) : per_mode Z :=
  set_at_mode (heuristicUseCount_ s) m
    (at_mode (heuristicUseCount_ s) m + 1)%Z.

Definition cache_time (s : Solver) (b : BeliefNode) (t : R) : NodeId -> R :=
  fun n => if Z.eqb n (nodeId b) then t else tNNComp_ s n.

Definition cache_neighbour (s : Solver) (b : BeliefNode)
  (nn : option BeliefNode) : NodeId -> option BeliefNode :=
  fun n => if Z.eqb n (nodeId b) then nn else nnBel_ s n.

Lemma getRolloutAction_randheuristic (b : BeliefNode) (st : State)
  (sd df : R) (s : Solver) :
  drawn_mode b st s = ROLLOUT_RANDHEURISTIC ->
  getRolloutAction b st sd df s =
  Returns
    (fst (stepped b st s), heuristic_estimate (fst (stepped b st s)) sd df)
      (mkSolver (snd (tossed b st s)) (later (clock_ s) 2) (startTime s)
       (allNodes_ s) (tNNComp_ s) (nnBel_ s) ROLLOUT_RANDHEURISTIC
       (heuristicExploreCoefficient_ s)
       (add_time s ROLLOUT_RANDHEURISTIC (clock_ s 1%nat - clock_ s 0%nat))
       (heuristicWeight_ s) (heuristicProbability_ s)
       (add_use s ROLLOUT_RANDHEURISTIC)).
Proof.
  unfold drawn_mode. intros Hmode.
  destruct (fst (tossed b st s)) eqn:Hheads; [|discriminate].
  unfold tossed, stepped in Hheads.
  unfold getRolloutAction, bind, draw, gets, modify, ret, std_clock.
  cbn [randGen_ set_randGen heuristicProbability_ set_lastRolloutMode
       lastRolloutMode_ fst snd].
  rewrite Hheads. cbn. reflexivity.
Qed.

Lemma getRolloutAction_fallback (b : BeliefNode) (st : State)
  (sd df : R) (s : Solver) :
  drawn_mode b st s = ROLLOUT_POL ->
  nearest b s = None ->
  getRolloutAction b st sd df s =
  Returns
    (fst (stepped b st s), heuristic_estimate (fst (stepped b st s)) sd df)
      (mkSolver (snd (tossed b st s)) (later (clock_ s) 4) (startTime s)
       (allNodes_ s)
       (cache_time s b (milliseconds (clock_ s 1%nat - startTime s)))
       (cache_neighbour s b (snd (nn_found b s)))
       ROLLOUT_RANDHEURISTIC
       (heuristicExploreCoefficient_ s)
       (add_time s ROLLOUT_RANDHEURISTIC (clock_ s 3%nat - clock_ s 2%nat))
       (heuristicWeight_ s) (heuristicProbability_ s)
       (add_use s ROLLOUT_RANDHEURISTIC)).
Proof.
  unfold drawn_mode. intros Hmode Hnn.
  destruct (fst (tossed b st s)) eqn:Hheads; [discriminate|].
  unfold tossed, stepped in Hheads.
  unfold getRolloutAction, bind, draw, gets, modify, ret, std_clock.
  cbn [randGen_ set_randGen heuristicProbability_ set_lastRolloutMode
       lastRolloutMode_ fst snd].
  rewrite Hheads. cbn [is_pol].
  unfold getNNBelNode, bind, gets, modify, ret, std_clock.
  change (nearest b _) with (nearest b s). rewrite Hnn.
  cbn. reflexivity.
Qed.

Lemma getRolloutAction_transplant (b : BeliefNode) (st : State)
  (sd df : R) (s : Solver) (nn : BeliefNode) :
  drawn_mode b st s = ROLLOUT_POL ->
  nearest b s = Some nn ->
  getRolloutAction b st sd df s =
  Returns
    (fst (stepped b st s), fst (transplanted b st s nn df) * (sd * df))
      (mkSolver (snd (transplanted b st s nn df)) (later (clock_ s) 3)
       (startTime s) (allNodes_ s)
       (cache_time s b (milliseconds (clock_ s 1%nat - startTime s)))
       (cache_neighbour s b (snd (nn_found b s)))
       ROLLOUT_POL
       (heuristicExploreCoefficient_ s)
       (add_time s ROLLOUT_POL (clock_ s 2%nat - clock_ s 0%nat))
       (heuristicWeight_ s) (heuristicProbability_ s)
       (add_use s ROLLOUT_POL)).
Proof.
  unfold drawn_mode. intros Hmode Hnn.
  destruct (fst (tossed b st s)) eqn:Hheads; [discriminate|].
  unfold tossed, stepped in Hheads.
  unfold getRolloutAction, bind, draw, gets, modify, ret, std_clock.
  cbn [randGen_ set_randGen heuristicProbability_ set_lastRolloutMode
       lastRolloutMode_ fst snd].
  rewrite Hheads. cbn [is_pol].
  unfold getNNBelNode, bind, gets, modify, ret, std_clock.
  change (nearest b _) with (nearest b s). rewrite Hnn.
  unfold rolloutPolHelper, draw. cbn. reflexivity.
Qed.

Lemma getRolloutAction_returns (b : BeliefNode) (st : State) (sd df : R)
  (s : Solver) :
  exists r s', getRolloutAction b st sd df s = Returns r s'.
Proof.
  destruct (drawn_mode b st s) eqn:Hmode.
  - rewrite getRolloutAction_randheuristic by exact Hmode. eauto.
  - destruct (nearest b s) as [nn|] eqn:Hnn.
    + rewrite (getRolloutAction_transplant b st sd df s nn) by assumption. eauto.
    + rewrite getRolloutAction_fallback by assumption. eauto.
Qed.

(** *** The mixture of the two modes *)





















(** *** When the policy rollout cannot be carried out *)




(** *** The processor clock *)



(** *** What [getNNBelNode] finds *)










(** *** What every rollout does to the statistics *)

(** X11. [getRolloutAction] always returns the model step for the node's
    next action to try, whatever the mode.  It counts the rollout once: the
    use count and the time of the mode it leaves in [lastRolloutMode_] are
    the only ones that change, the count by one.  It leaves the weights and
    the probabilities alone, and a rollout drawn as random heuristic is
    never recorded as a policy rollout. *)
Theorem getRolloutAction_counts_one_use (b : BeliefNode) (st : State)
  (sd df : R) (s : Solver) :
  exists r s',
    getRolloutAction b st sd df s = Returns r s' /\
    fst r = fst (stepped b st s) /\
    heuristicUseCount_ s' = add_use s (lastRolloutMode_ s') /\
    (exists ticks,
       timeUsedPerHeuristic_ s' = add_time s (lastRolloutMode_ s') ticks) /\
    heuristicWeight_ s' = heuristicWeight_ s /\
    heuristicProbability_ s' = heuristicProbability_ s /\
    (drawn_mode b st s = ROLLOUT_RANDHEURISTIC ->
     lastRolloutMode_ s' = ROLLOUT_RANDHEURISTIC).
Proof.
  destruct (drawn_mode b st s) eqn:Hmode;
    [|destruct (nearest b s) as [nn|] eqn:Hnn].
  - rewrite getRolloutAction_randheuristic by exact Hmode.
    eexists. eexists. split; [reflexivity|].
    cbn [fst lastRolloutMode_ heuristicUseCount_ timeUsedPerHeuristic_
         heuristicWeight_ heuristicProbability_].
    repeat split. eexists. reflexivity.
  - rewrite (getRolloutAction_transplant b st sd df s nn) by assumption.
    eexists. eexists. split; [reflexivity|].
    cbn [fst lastRolloutMode_ heuristicUseCount_ timeUsedPerHeuristic_
         heuristicWeight_ heuristicProbability_].
    repeat split; try discriminate. eexists. reflexivity.
  - rewrite getRolloutAction_fallback by assumption.
    eexists. eexists. split; [reflexivity|].
    cbn [fst lastRolloutMode_ heuristicUseCount_ timeUsedPerHeuristic_
         heuristicWeight_ heuristicProbability_].
    repeat split. eexists. reflexivity.
Qed.

(** *** How large a policy rollout can get *)

Lemma geometric_bound (rmax gamma q t : R) :
  0 <= gamma < 1 -> Rabs q <= rmax -> Rabs t <= rmax / (1 - gamma) ->
  Rabs (q + gamma * t) <= rmax / (1 - gamma).
Proof.
  intros [Hg0 Hg1] Hq Ht.
  assert (Hfix : rmax / (1 - gamma) = rmax + gamma * (rmax / (1 - gamma)))
    by (field; lra).
  rewrite Hfix.
  eapply Rle_trans; [apply Rabs_triang|].
  rewrite Rabs_mult, (Rabs_pos_eq gamma) by exact Hg0.
  apply Rplus_le_compat; [exact Hq|].
  apply Rmult_le_compat_l; assumption.
Qed.

Lemma bound_nonneg (rmax gamma q : R) :
  0 <= gamma < 1 -> Rabs q <= rmax -> 0 <= rmax / (1 - gamma).
Proof.
  intros [Hg0 Hg1] Hq. pose proof (Rabs_pos q).
  apply Rmult_le_pos; [lra|]. left. apply Rinv_0_lt_compat. lra.
Qed.

Lemma rolloutPolNode_bounded (rmax gamma : R) :
  0 <= gamma < 1 ->
  (forall st a g, Rabs (reward (fst (generateStep model_ st a g))) <= rmax) ->
  forall node st g,
    Rabs (fst (rolloutPolNode node st gamma g)) <= rmax / (1 - gamma).
Proof.
  intros Hgamma Hreward.
  fix IH 1. intros [n nParticles nActChildren bestAction nextAction tLast child] st g.
  cbn [rolloutPolNode].
  pose proof (Hreward st bestAction g) as Hq.
  pose proof (bound_nonneg rmax gamma _ Hgamma Hq) as Hbound.
  destruct (Z.eqb nParticles 0); [cbn [fst]; rewrite Rabs_R0; exact Hbound|].
  destruct (Z.eqb nActChildren 0); [cbn [fst]; rewrite Rabs_R0; exact Hbound|].
  cbn zeta.
  destruct (isTerminal (fst (generateStep model_ st bestAction g))).
  - cbn [fst]. eapply Rle_trans; [exact Hq|].
    destruct Hgamma as [Hg0 Hg1].
    assert (Hfix : rmax / (1 - gamma) = rmax + gamma * (rmax / (1 - gamma)))
      by (field; lra).
    assert (0 <= gamma * (rmax / (1 - gamma))) by (apply Rmult_le_pos; assumption).
    lra.
  - destruct (child bestAction
                (observation (fst (generateStep model_ st bestAction g))))
      as [next|]; cbn [fst].
    + apply geometric_bound; [exact Hgamma|exact Hq|]. apply IH.
    + apply geometric_bound; [exact Hgamma|exact Hq|].
      rewrite Rabs_R0. exact Hbound.
Qed.

(** X12. When every reward of the model is at most [rmax] in absolute value
    and the discount factor lies in [0, 1), the estimate that
    [rolloutPolHelper] returns is at most [rmax / (1 - discountFactor)] in
    absolute value, whatever the subtree; the call returns on every subtree
    and changes nothing of the solver but the generator. *)
Theorem rolloutPolHelper_bounded (rmax gamma : R)
  (currNode : option BeliefNode) (st : State) (s : Solver) :
  0 <= gamma < 1 ->
  (forall st a g, Rabs (reward (fst (generateStep model_ st a g))) <= rmax) ->
  exists q g',
    rolloutPolHelper currNode st gamma s = Returns q (set_randGen s g') /\
    Rabs q <= rmax / (1 - gamma).
Proof.
  intros Hgamma Hreward.
  unfold rolloutPolHelper, draw. eexists. eexists. split; [reflexivity|].
  destruct currNode as [node|]; cbn [rolloutPol].
  - apply rolloutPolNode_bounded; assumption.
  - cbn [fst]. rewrite Rabs_R0.
    apply (bound_nonneg rmax gamma _ Hgamma
             (Hreward st 0%Z (randGen_ s))).
Qed.

End WithModel.

(** *** A small instance: one neighbour whose subtree ends at once *)


(** A deterministic model on the integers: an action moves the state, every
    step pays 1, nothing is terminal, the heuristic value is 7. *)
Definition example_model : @Model Z Z (list R) :=
  mkModel
    (fun st a g => (mkStepResult a 0%Z 1 (st + a)%Z false, g))
    (fun _ => 7) 10%Z 1 10 (1/2).


(** A node without particles or children. *)
Definition example_leaf : @BeliefNode Z :=
  mkBeliefNode 2%Z 0%Z 0%Z 0%Z 0%Z 0 (fun _ _ => None).

(** The neighbour: its children are all [example_leaf]; its last particle
    was added at 5 ms. *)
Definition example_neighbour : @BeliefNode Z :=
  mkBeliefNode 1%Z 3%Z 1%Z 0%Z 0%Z 5 (fun _ _ => Some example_leaf).


(** The solver as constructed, with generator [0.9, 0.9] and clock [c]. *)
Definition example_solver (c : nat -> Z) : @Solver Z (list R) :=
  mkSolver [9/10; 9/10] c 0%Z [example_neighbour] (fun _ => -1)
    (fun _ => None) ROLLOUT_RANDHEURISTIC (1/2) (1, 1) (1, 1) (1/2, 1/2)
    (1%Z, 1%Z).

(** A clock that stands at 0, and one that stands at one second. *)
Definition clock_at_start : nat -> Z := fun _ => 0%Z.



















Lemma rolloutPolHelper_bounded_witness :
  exists q g',
    rolloutPolHelper example_model (Some example_neighbour) 0%Z (1/2)
      (example_solver clock_at_start)
    = Returns q (set_randGen (example_solver clock_at_start) g') /\
    Rabs q <= 1 / (1 - 1/2).
Proof.
  apply (rolloutPolHelper_bounded example_model 1 (1/2)).
  - lra.
  - intros st a g. cbn. rewrite Rabs_R1. lra.
Defined.


End Rollout.

(** ** The rollout mixture in binary64

    [Rollout] reads a [double] as a real number.  Here the members of the
    mixture are binary64 numbers and every operation on them rounds as the
    hardware does: the constructor, the two statements that end
    [getRolloutAction], and [updateHeuristicProbabilities]. *)

Module Binary64.

Import Floats.
Import Rollout.
Open Scope float_scope.

(** The conversion of a [long] or a [clock_t] to [double], for a value
    above [-2^63]. *)
Definition of_long (z : Z) : float :=
  if (z <? 0)%Z then - of_uint63 (Uint63.of_Z (- z))
  else of_uint63 (Uint63.of_Z z).

(** The POSIX value of the macro. *)
Definition CLOCKS_PER_SEC : Z := 1000000.

(** The members of the solver that hold the mixture. *)
Record Solver : Type := mkSolver {
  lastRolloutMode_ : RolloutMode;
  heuristicExploreCoefficient_ : float;
  timeUsedPerHeuristic_ : per_mode float;
  heuristicWeight_ : per_mode float;
  heuristicProbability_ : per_mode float;
  heuristicUseCount_ : per_mode Z
}.

(** [Solver::Solver], for a model whose [getHeuristicExploreCoefficient()]
    is [heuristicExploreCoefficient]. *)
Definition constructed (heuristicExploreCoefficient : float) : Solver :=
  mkSolver ROLLOUT_RANDHEURISTIC heuristicExploreCoefficient
    (1, 1) (1, 1) (0.5, 0.5) (1%Z, 1%Z).


Section WithExp.

(** [std::exp] of the C library, and [model_->getMaxVal()]. *)
Variable exp : float -> float.
Variable getMaxVal : float.

(** [Solver::updateHeuristicProbabilities] *)
Definition updateHeuristicProbabilities (valImprovement : float) (s : Solver)
  : Solver :=
  let valImprovement := if valImprovement <? 0 then 0 else valImprovement in
  let m := lastRolloutMode_ s in
  let alpha := heuristicExploreCoefficient_ s in
  let weight :=
    set_at_mode (heuristicWeight_ s) m
      (at_mode (heuristicWeight_ s) m
       * exp (alpha * (valImprovement / getMaxVal)
              / (2 * at_mode (heuristicProbability_ s) m))) in
  let totWRollout :=
    0 + at_mode weight ROLLOUT_RANDHEURISTIC + at_mode weight ROLLOUT_POL in
  let unnormalised (i : RolloutMode) :=
    ((1 - alpha) * at_mode weight i / totWRollout + alpha / 2)
    * of_long (at_mode (heuristicUseCount_ s) i)
    / at_mode (timeUsedPerHeuristic_ s) i in
  let totP :=
    0 + unnormalised ROLLOUT_RANDHEURISTIC + unnormalised ROLLOUT_POL in
  mkSolver m alpha (timeUsedPerHeuristic_ s) weight
    (unnormalised ROLLOUT_RANDHEURISTIC / totP, unnormalised ROLLOUT_POL / totP)
    (heuristicUseCount_ s).

End WithExp.

(** The sum of the two mode probabilities. *)
Definition total (s : Solver) : float :=
  at_mode (heuristicProbability_ s) ROLLOUT_RANDHEURISTIC
  + at_mode (heuristicProbability_ s) ROLLOUT_POL.

(** *** One policy rollout of 14 clock ticks, then one update *)








End Binary64.

(** ** [Solver::improveSol] *)

Module Improve.

Import Exec.Notations.
Open Scope Z_scope.
Open Scope exec_scope.

(** A [StateInfo *]. *)
Definition StateInfoId : Type := Z.

(** The fields of a particle (a [HistoryEntry]) that [improveSol] reads;
    [startDepth_] is that of its owning sequence. *)
Record HistoryEntry : Type := mkHistoryEntry {
  stateInfo_ : StateInfoId;
  entryId_ : Z;
  startDepth_ : Z
}.

(** One call of [singleSearch(startNode, startStateInfo, startDepth,
    discountFactor, maximumDepth)]. *)
Record Search : Type := mkSearch {
  search_node : NodeId;
  search_stateInfo : StateInfoId;
  search_depth : Z;
  search_discount : R;
  search_maximumDepth : Z
}.

Section WithSearch.

Context {RandomGenerator : Type}.

(** [std::uniform_int_distribution<long>(a, b)(gen)], which draws from
    [a .. b]. *)
Variable uniform_int_distribution : Z -> Z -> RandomGenerator -> Z * RandomGenerator.
Hypothesis uniform_in_range :
  forall a b g, a <= b -> a <= fst (uniform_int_distribution a b g) <= b.

(** What the rest of the solver holds, of which [improveSol] sees nothing. *)
Context {Rest : Type}.

Record Solver : Type := mkSolver {
  randGen_ : RandomGenerator;
  (** [node->particles_] for every belief node *)
  particles_ : NodeId -> list HistoryEntry;
  (** [allStates_->statesByIndex_] *)
  statesByIndex_ : list StateInfoId;
  (** [model_->getDiscountFactor()] *)
  discountFactor : R;
  cerr : list string;
  (** the calls of [singleSearch] made so far, latest last *)
  searches : list Search;
  rest : Rest
}.

(** The five-argument [Solver::singleSearch], which runs one search trial
    from a particle.  What the trial does to the solver (histories, belief
    tree, generator) plays no part in how [improveSol] calls it, and is
    left open. *)
Variable singleSearch : Search -> Solver -> Solver.

Definition print_cerr (line : string) : M Solver unit :=
  modify (fun s => mkSolver (randGen_ s) (particles_ s) (statesByIndex_ s)
                     (discountFactor s) (cerr s ++ [line]) (searches s) (rest s)).

Definition draw {A : Type} (f : RandomGenerator -> A * RandomGenerator)
  : M Solver A :=
  fun s => Returns (fst (f (randGen_ s)))
             (mkSolver (snd (f (randGen_ s))) (particles_ s) (statesByIndex_ s)
                (discountFactor s) (cerr s) (searches s) (rest s)).

(** A call of [singleSearch]: the trial runs, and the call is added to
    the record of the calls, which the trial itself has no hand in. *)
Definition call_singleSearch (c : Search) : M Solver unit :=
  modify (fun s =>
    let s' := singleSearch c s in
    mkSolver (randGen_ s') (particles_ s') (statesByIndex_ s')
      (discountFactor s') (cerr s') (searches s ++ [c]) (rest s')).

(** [particles_.get(index)]; an index outside the vector is undefined. *)
Definition get_particle (node : NodeId) (index : Z) : M Solver HistoryEntry :=
  fun s =>
    if index <? 0 then Undefined
    else match nth_error (particles_ s node) (Z.to_nat index) with
         | Some entry => Returns entry s
         | None => Undefined
         end.

Definition getNParticles (node : NodeId) : M Solver Z :=
  gets (fun s => Z.of_nat (length (particles_ s node))).

(** The first [for] loop: [trials] more samples are drawn. *)
Fixpoint sample_loop (startNode : NodeId) (trials : nat)
  (samples : list StateInfoId) : M Solver (list StateInfoId) :=
  match trials with
  | O => ret samples
  | S trials' =>
      n <- getNParticles startNode ;;
      index <- draw (uniform_int_distribution 0 (n - 1)) ;;
      entry <- get_particle startNode index ;;
      states <- gets statesByIndex_ ;;
      (if existsb (Z.eqb (stateInfo_ entry)) states then ret tt
       else
         print_cerr "ERROR: INVALID STATE IN PARTICLE!" ;;;
         print_cerr (NilZero.string_of_int (Z.to_int index))) ;;;
      sample_loop startNode trials' (samples ++ [stateInfo_ entry])
  end.

Definition improveSol (startNode : NodeId) (maxTrials maximumDepth : Z)
  : M Solver unit :=
  n <- getNParticles startNode ;;
  if n =? 0 then
    print_cerr "ERROR: No particles in the BeliefNode!" ;;;
    exit 10
  else
    disc <- gets discountFactor ;;
    entry <- get_particle startNode 0 ;;
    let depth := entryId_ entry + startDepth_ entry in
    samples <- sample_loop startNode (Z.to_nat maxTrials) [] ;;
    for_each samples
      (fun sample =>
         call_singleSearch (mkSearch startNode sample depth disc maximumDepth)).

(** *** Running the loops *)







End WithSearch.

(** *** An instance: one node with two particles *)

Definition example_uniform (a b : Z) (g : list Z) : Z * list Z :=
  match g with
  | [] => (a, [])
  | x :: g' => (a + x mod (b - a + 1), g')
  end.


Definition example_solver (particles : list HistoryEntry) : @Solver (list Z) unit :=
  mkSolver [5; 2; 7]
    (fun node => if node =? 0 then particles else [])
    [10; 11] (1/2)%R [] [] tt.

Definition example_singleSearch (c : Search) (s : @Solver (list Z) unit)
  : @Solver (list Z) unit :=
  mkSolver (randGen_ s)
    (fun node =>
       if node =? search_node c
       then particles_ s node ++ [mkHistoryEntry (search_stateInfo c) 0 (search_depth c)]
       else particles_ s node)
    (statesByIndex_ s) (discountFactor s) (cerr s) (searches s) (rest s).

(** The three draws 5, 2 and 7 pick the particles 1, 0 and 1. *)
Example improveSol_example_searches :
  match improveSol example_uniform example_singleSearch 0 3 10
          (example_solver [mkHistoryEntry 10 0 2; mkHistoryEntry 11 0 2]) with
  | Returns _ s' => searches s'
  | _ => []
  end
  = [ mkSearch 0 11 2 (1/2)%R 10; mkSearch 0 10 2 (1/2)%R 10;
      mkSearch 0 11 2 (1/2)%R 10 ].
Proof. reflexivity. Qed.


End Improve.

(** ** [Solver::applyChanges] *)

Module Changes.

Import Exec.Notations.
Open Scope Z_scope.
Open Scope exec_scope.

(** A [HistorySequence *] and a [StateInfo *]. *)
Definition SequenceId : Type := Z.
Definition StateInfoId : Type := Z.

(** A [HistoryEntry *]: the owning sequence and [entryId_]. *)
Definition EntryRef : Type := (SequenceId * Z)%type.

Section WithSolver.

(** The change flags ([ChangeFlags.hpp] is not among the sources) and the
    state of the solver, which [applyChanges] reaches only through the
    calls below. *)
Context {ChangeFlags Solver : Type}.

Variables DELETED TRANSITION OBSERVATION OBSERVATION_BEFORE : ChangeFlags.
Variable hasFlag : ChangeFlags -> ChangeFlags -> bool.

(** What [applyChanges] reads. *)
Variable getAffectedStates : Solver -> list StateInfoId.
Variable usedInHistoryEntries_ : Solver -> StateInfoId -> list EntryRef.
Variable stateChangeFlags : Solver -> StateInfoId -> ChangeFlags.
Variable entryChangeFlags : Solver -> SequenceId -> Z -> ChangeFlags.
Variable isTerminal : Solver -> SequenceId -> bool.

(** What [applyChanges] calls: [HistorySequence::setChangeFlags],
    [Solver::undoBackup], [Histories::deleteHistorySequence],
    [HistoryCorrector::reviseHistories], [Solver::fixLinks],
    [HistorySequence::resetChangeFlags], [Solver::backup] and
    [Solver::continueSearch], each as what it does to the solver. *)
Variable setChangeFlags : SequenceId -> Z -> ChangeFlags -> Solver -> Solver.
Variable undoBackup : SequenceId -> Solver -> Solver.
Variable deleteHistorySequence : SequenceId -> Solver -> Solver.
Variable reviseHistories : list SequenceId -> Solver -> Solver.
Variable fixLinks : SequenceId -> Solver -> Solver.
Variable resetChangeFlags : SequenceId -> Solver -> Solver.
Variable backup : SequenceId -> Solver -> Solver.
Variable continueSearch : SequenceId -> Solver -> Solver.

(** The order in which the iterators of a [std::unordered_set] go through
    its elements, from [begin()] on.  The standard leaves it to the
    implementation; it is any order here. *)
Variable iteration_order : list SequenceId -> list SequenceId.

(** The calls, as they are made. *)
Inductive Event : Type :=
| SetChangeFlags (sequence : SequenceId) (entryId : Z) (flags : ChangeFlags)
| UndoBackup (sequence : SequenceId)
| DeleteHistorySequence (sequence : SequenceId)
| ReviseHistories (affectedSequences : list SequenceId)
| FixLinks (sequence : SequenceId)
| ResetChangeFlags (sequence : SequenceId)
| Backup (sequence : SequenceId)
| ContinueSearch (sequence : SequenceId).

(** The solver together with the calls made so far, latest last. *)
Record World : Type := mkWorld {
  solver : Solver;
  trace : list Event
}.

Definition call (ev : Event) (f : Solver -> Solver) : M World unit :=
  modify (fun w => mkWorld (f (solver w)) (trace w ++ [ev])).

Definition query {A : Type} (q : Solver -> A) : M World A :=
  gets (fun w => q (solver w)).

(** [affectedSequences.insert(sequence)]: the set is the list of its
    elements, each once.  The order in which its iterators go through them
    is not the order of this list but [iteration_order] of it. *)
Definition insert (sequence : SequenceId) (set : list SequenceId)
  : list SequenceId :=
  if existsb (Z.eqb sequence) set then set else set ++ [sequence].

(** [for (x : xs) acc = body(x, acc)] *)
Fixpoint for_fold {S A B : Type} (xs : list A) (acc : B)
  (body : A -> B -> M S B) : M S B :=
  match xs with
  | [] => ret acc
  | x :: xs' => acc' <- body x acc ;; for_fold xs' acc' body
  end.

(** The body of the inner loop of the first phase. *)
Definition collect_entry (stateInfo : StateInfoId) (entry : EntryRef)
  (affectedSequences : list SequenceId) : M World (list SequenceId) :=
  let sequence := fst entry in
  let entryId := snd entry in
  flags <- query (fun s => stateChangeFlags s stateInfo) ;;
  call (SetChangeFlags sequence entryId flags)
       (setChangeFlags sequence entryId flags) ;;;
  entryFlags <- query (fun s => entryChangeFlags s sequence entryId) ;;
  (if (hasFlag entryFlags DELETED && (entryId >? 0))%bool
   then call (SetChangeFlags sequence (entryId - 1) TRANSITION)
             (setChangeFlags sequence (entryId - 1) TRANSITION)
   else ret tt) ;;;
  entryFlags <- query (fun s => entryChangeFlags s sequence entryId) ;;
  (if (hasFlag entryFlags OBSERVATION_BEFORE && (entryId >? 0))%bool
   then call (SetChangeFlags sequence (entryId - 1) OBSERVATION)
             (setChangeFlags sequence (entryId - 1) OBSERVATION)
   else ret tt) ;;;
  ret (insert sequence affectedSequences).

Definition collect_state (stateInfo : StateInfoId)
  (affectedSequences : list SequenceId) : M World (list SequenceId) :=
  entries <- query (fun s => usedInHistoryEntries_ s stateInfo) ;;
  for_fold entries affectedSequences (collect_entry stateInfo).

(** The [while] loop: [todo] is what the iterator has still to visit, in
    the order in which it visits them, [kept] what it has passed and not
    erased.  Erasing an element leaves the others in their order. *)
Fixpoint purge_loop (todo kept : list SequenceId) : M World (list SequenceId) :=
  match todo with
  | [] => ret kept
  | sequence :: todo' =>
      call (UndoBackup sequence) (undoBackup sequence) ;;;
      flags <- query (fun s => entryChangeFlags s sequence 0) ;;
      if hasFlag flags DELETED then
        call (DeleteHistorySequence sequence) (deleteHistorySequence sequence) ;;;
        purge_loop todo' kept
      else purge_loop todo' (kept ++ [sequence])
  end.

(** The body of the last loop. *)
Definition reintegrate (sequence : SequenceId) : M World unit :=
  call (FixLinks sequence) (fixLinks sequence) ;;;
  call (ResetChangeFlags sequence) (resetChangeFlags sequence) ;;;
  terminal <- query (fun s => isTerminal s sequence) ;;
  if terminal then call (Backup sequence) (backup sequence)
  else call (ContinueSearch sequence) (continueSearch sequence).

(** The set is filled first and iterated afterwards: the [while] loop goes
    through it from [begin()], in the iteration order of what was inserted,
    and the last loop through what the erasures have left. *)
Definition applyChanges : M World unit :=
  states <- query getAffectedStates ;;
  affectedSequences <- for_fold states [] collect_state ;;
  affectedSequences <- purge_loop (iteration_order affectedSequences) [] ;;
  call (ReviseHistories affectedSequences) (reviseHistories affectedSequences) ;;;
  for_each affectedSequences reintegrate.

(** *** The three phases in the record of the calls *)

Definition is_collect (ev : Event) : Prop :=
  match ev with SetChangeFlags _ _ _ => True | _ => False end.

Definition is_undo (ev : Event) : Prop :=
  match ev with
  | UndoBackup _ | DeleteHistorySequence _ => True
  | _ => False
  end.

Definition is_reintegrate (ev : Event) : Prop :=
  match ev with
  | FixLinks _ | ResetChangeFlags _ | Backup _ | ContinueSearch _ => True
  | _ => False
  end.

(** What a recorded call does to the solver, and what a record of calls
    does, from its first call to its last. *)
Definition apply_event (ev : Event) : Solver -> Solver :=
  match ev with
  | SetChangeFlags sequence entryId flags => setChangeFlags sequence entryId flags
  | UndoBackup sequence => undoBackup sequence
  | DeleteHistorySequence sequence => deleteHistorySequence sequence
  | ReviseHistories affectedSequences => reviseHistories affectedSequences
  | FixLinks sequence => fixLinks sequence
  | ResetChangeFlags sequence => resetChangeFlags sequence
  | Backup sequence => backup sequence
  | ContinueSearch sequence => continueSearch sequence
  end.

Definition replay (evs : list Event) (s : Solver) : Solver :=
  fold_left (fun s ev => apply_event ev s) evs s.

(** The affected sequences of solver [s]: the owning sequence of every
    history entry that uses an affected state. *)
Definition owners (s : Solver) : list SequenceId :=
  flat_map (fun stateInfo => map fst (usedInHistoryEntries_ s stateInfo))
    (getAffectedStates s).

(** The first entry of [sequence] is flagged [DELETED]. *)
Definition first_deleted (s : Solver) (sequence : SequenceId) : bool :=
  hasFlag (entryChangeFlags s sequence 0) DELETED.

(** The calls of the second phase for one sequence, under the flags of
    solver [s]: it is undone, and deleted if its first entry is flagged
    [DELETED]. *)
Definition undo_calls (s : Solver) (sequence : SequenceId) : list Event :=
  UndoBackup sequence
  :: (if first_deleted s sequence then [DeleteHistorySequence sequence] else []).

(** [evs] is the third phase for the sequences [kept]: for each of them in
    turn, [fixLinks], [resetChangeFlags], and then one of [backup] and
    [continueSearch]. *)
Fixpoint reintegrates (kept : list SequenceId) (evs : list Event) : Prop :=
  match kept with
  | [] => evs = []
  | sequence :: kept' =>
      exists last evs',
        evs = FixLinks sequence :: ResetChangeFlags sequence :: last :: evs' /\
        (last = Backup sequence \/ last = ContinueSearch sequence) /\
        reintegrates kept' evs'
  end.

(** The iterators of the set go through its elements, each once. *)
Hypothesis iteration_order_permutes :
  forall set, Permutation (iteration_order set) set.

(** Setting change flags leaves the entries that use a state as they are. *)
Hypothesis setChangeFlags_keeps_entries :
  forall sequence entryId flags s stateInfo,
    usedInHistoryEntries_ (setChangeFlags sequence entryId flags s) stateInfo
    = usedInHistoryEntries_ s stateInfo.

(** Undoing a backup changes no change flag; deleting a sequence changes
    none of another sequence. *)
Hypothesis undoBackup_keeps_flags :
  forall sequence other s,
    entryChangeFlags (undoBackup other s) sequence 0
    = entryChangeFlags s sequence 0.
Hypothesis delete_keeps_flags :
  forall sequence other s,
    sequence <> other ->
    entryChangeFlags (deleteHistorySequence other s) sequence 0
    = entryChangeFlags s sequence 0.

Lemma replay_app (evs1 evs2 : list Event) (s : Solver) :
  replay (evs1 ++ evs2) s = replay evs2 (replay evs1 s).
Proof. apply fold_left_app. Qed.

Lemma collect_keeps_entries (evs : list Event) :
  Forall is_collect evs ->
  forall s stateInfo,
    usedInHistoryEntries_ (replay evs s) stateInfo
    = usedInHistoryEntries_ s stateInfo.
Proof.
  induction 1 as [|ev evs Hev _ IH]; intros s stateInfo; [reflexivity|].
  cbn [replay fold_left]. fold (replay evs (apply_event ev s)).
  rewrite IH. destruct ev; try contradiction.
  apply setChangeFlags_keeps_entries.
Qed.

Lemma insert_NoDup (sequence : SequenceId) (set : list SequenceId) :
  NoDup set -> NoDup (insert sequence set).
Proof.
  intros Hnd. unfold insert.
  destruct (existsb (Z.eqb sequence) set) eqn:E; [exact Hnd|].
  apply NoDup_app; [exact Hnd|repeat constructor; intros []|].
  intros x Hin [Heq|[]]. subst x.
  assert (existsb (Z.eqb sequence) set = true)
    by (apply existsb_exists; exists sequence;
        split; [exact Hin|apply Z.eqb_refl]).
  congruence.
Qed.

Lemma insert_In (x sequence : SequenceId) (set : list SequenceId) :
  In x (insert sequence set) <-> In x set \/ x = sequence.
Proof.
  unfold insert.
  destruct (existsb (Z.eqb sequence) set) eqn:E.
  - apply existsb_exists in E. destruct E as (y & Hin & Heq).
    apply Z.eqb_eq in Heq. subst y.
    split; [auto|]. intros [H| ->]; assumption.
  - rewrite in_app_iff. cbn [In]. split.
    + intros [H|[H|[]]]; auto.
    + intros [H|H]; auto.
Qed.

Lemma collect_entry_run (stateInfo : StateInfoId) (entry : EntryRef)
  (affected : list SequenceId) (w : World) :
  exists w' evs,
    collect_entry stateInfo entry affected w
    = Returns (insert (fst entry) affected) w' /\
    trace w' = trace w ++ evs /\
    solver w' = replay evs (solver w) /\
    Forall is_collect evs.
Proof.
  unfold collect_entry, bind, call, query, gets, modify, ret.
  cbn [solver trace].
  destruct (hasFlag _ DELETED && (snd entry >? 0))%bool;
    cbn [solver trace];
    destruct (hasFlag _ OBSERVATION_BEFORE && (snd entry >? 0))%bool;
    cbn [solver trace];
    eexists; eexists; (split; [reflexivity|]); cbn [solver trace];
    rewrite <- ?app_assoc; (split; [reflexivity|]);
    (split; [reflexivity|]);
    repeat constructor.
Qed.

Lemma collect_entries_run (stateInfo : StateInfoId) (entries : list EntryRef) :
  forall affected w,
    NoDup affected ->
    exists affected' w' evs,
      for_fold entries affected (collect_entry stateInfo) w
      = Returns affected' w' /\
      NoDup affected' /\
      (forall sequence,
         In sequence affected' <->
         In sequence affected \/ In sequence (map fst entries)) /\
      trace w' = trace w ++ evs /\
      solver w' = replay evs (solver w) /\
      Forall is_collect evs.
Proof.
  induction entries as [|entry entries IH]; intros affected w Hnd.
  - exists affected, w, []. cbn. rewrite app_nil_r.
    repeat split; auto. intros [H|[]]. exact H.
  - cbn [for_fold]. unfold bind.
    destruct (collect_entry_run stateInfo entry affected w)
      as (w1 & evs1 & Hrun1 & Htr1 & Hs1 & Hall1).
    rewrite Hrun1.
    destruct (IH (insert (fst entry) affected) w1 (insert_NoDup _ _ Hnd))
      as (affected' & w' & evs & Hrun & Hnd' & Hin & Htr & Hs & Hall).
    exists affected', w', (evs1 ++ evs).
    split; [exact Hrun|]. split; [exact Hnd'|].
    split.
    { intros sequence. rewrite Hin, insert_In. cbn [map In].
      split.
      - intros [[H|H]|H]; auto.
      - intros [H|[H|H]]; auto. }
    split; [rewrite Htr, Htr1, app_assoc; reflexivity|].
    split; [rewrite Hs, Hs1, replay_app; reflexivity|].
    apply Forall_app; split; assumption.
Qed.

Lemma collect_states_run (states : list StateInfoId) :
  forall affected w,
    NoDup affected ->
    exists affected' w' evs,
      for_fold states affected collect_state w = Returns affected' w' /\
      NoDup affected' /\
      (forall sequence,
         In sequence affected' <->
         In sequence affected \/
         In sequence
           (flat_map (fun stateInfo =>
                        map fst (usedInHistoryEntries_ (solver w) stateInfo))
              states)) /\
      trace w' = trace w ++ evs /\
      solver w' = replay evs (solver w) /\
      Forall is_collect evs.
Proof.
  induction states as [|stateInfo states IH]; intros affected w Hnd.
  - exists affected, w, []. cbn. rewrite app_nil_r.
    repeat split; auto. intros [H|[]]. exact H.
  - cbn [for_fold]. unfold bind at 1. unfold collect_state at 1.
    unfold bind at 1. unfold query at 1, gets.
    destruct (collect_entries_run stateInfo
                (usedInHistoryEntries_ (solver w) stateInfo) affected w Hnd)
      as (affected1 & w1 & evs1 & Hrun1 & Hnd1 & Hin1 & Htr1 & Hs1 & Hall1).
    rewrite Hrun1.
    destruct (IH affected1 w1 Hnd1)
      as (affected' & w' & evs & Hrun & Hnd' & Hin & Htr & Hs & Hall).
    exists affected', w', (evs1 ++ evs).
    split; [exact Hrun|]. split; [exact Hnd'|].
    split.
    { intros sequence. rewrite Hin, Hin1. cbn [flat_map].
      rewrite in_app_iff.
      rewrite (flat_map_ext
                 (fun stateInfo =>
                    map fst (usedInHistoryEntries_ (solver w1) stateInfo))
                 (fun stateInfo =>
                    map fst (usedInHistoryEntries_ (solver w) stateInfo)))
        by (intros a; rewrite Hs1, collect_keeps_entries by exact Hall1;
            reflexivity).
      split.
      - intros [[H|H]|H]; auto.
      - intros [H|[H|H]]; auto. }
    split; [rewrite Htr, Htr1, app_assoc; reflexivity|].
    split; [rewrite Hs, Hs1, replay_app; reflexivity|].
    apply Forall_app; split; assumption.
Qed.

Lemma flat_map_undo_calls_ext (s s' : Solver) (todo : list SequenceId) :
  (forall sequence, In sequence todo ->
                    first_deleted s' sequence = first_deleted s sequence) ->
  flat_map (undo_calls s') todo = flat_map (undo_calls s) todo.
Proof.
  induction todo as [|sequence todo IH]; intros Hsame; [reflexivity|].
  cbn [flat_map]. unfold undo_calls at 1 3.
  rewrite Hsame by (left; reflexivity).
  rewrite IH by (intros other Hin; apply Hsame; right; exact Hin).
  reflexivity.
Qed.

Lemma purge_loop_run (todo : list SequenceId) :
  forall kept w,
    NoDup todo ->
    exists w',
      purge_loop todo kept w
      = Returns (kept ++ filter (fun sequence =>
                                   negb (first_deleted (solver w) sequence)) todo)
                w' /\
      trace w' = trace w ++ flat_map (undo_calls (solver w)) todo /\
      solver w' = replay (flat_map (undo_calls (solver w)) todo) (solver w).
Proof.
  induction todo as [|sequence todo IH]; intros kept w Hnd.
  - exists w. cbn [purge_loop filter flat_map]. rewrite !app_nil_r.
    split; [reflexivity|]. split; reflexivity.
  - inversion Hnd as [|? ? Hnotin Hnd']; subst.
    cbn [purge_loop filter flat_map].
    unfold bind at 1. unfold call at 1, modify.
    unfold bind at 1. unfold query at 1, gets. cbn [solver].
    rewrite undoBackup_keeps_flags.
    fold (first_deleted (solver w) sequence).
    unfold undo_calls at 1 3.
    destruct (first_deleted (solver w) sequence) eqn:Hdel; cbn [negb].
    + unfold bind at 1. unfold call at 1, modify. cbn [solver trace].
      match goal with
      | |- context [purge_loop todo kept ?w2] =>
          destruct (IH kept w2 Hnd') as (w' & Hrun & Htr & Hs)
      end.
      cbn [solver trace] in *.
      assert (Hsame : forall other, In other todo ->
                first_deleted (deleteHistorySequence sequence
                                 (undoBackup sequence (solver w))) other
                = first_deleted (solver w) other).
      { intros other Hin. unfold first_deleted.
        rewrite delete_keeps_flags, undoBackup_keeps_flags; [reflexivity|].
        intros ->. contradiction. }
      rewrite (flat_map_undo_calls_ext _ _ _ Hsame) in Htr, Hs.
      exists w'.
      split.
      { rewrite Hrun. f_equal. f_equal. apply filter_ext_in.
        intros other Hin. rewrite Hsame by exact Hin. reflexivity. }
      split; [rewrite Htr, <- !app_assoc; reflexivity|].
      rewrite Hs. reflexivity.
    + match goal with
      | |- context [purge_loop todo (kept ++ [sequence]) ?w1] =>
          destruct (IH (kept ++ [sequence]) w1 Hnd') as (w' & Hrun & Htr & Hs)
      end.
      cbn [solver trace] in *.
      assert (Hsame : forall other, In other todo ->
                first_deleted (undoBackup sequence (solver w)) other
                = first_deleted (solver w) other).
      { intros other _. unfold first_deleted.
        rewrite undoBackup_keeps_flags. reflexivity. }
      rewrite (flat_map_undo_calls_ext _ _ _ Hsame) in Htr, Hs.
      exists w'.
      split.
      { rewrite Hrun, <- app_assoc. cbn [app]. f_equal. f_equal. f_equal.
        apply filter_ext_in. intros other Hin.
        rewrite Hsame by exact Hin. reflexivity. }
      split; [rewrite Htr, <- !app_assoc; reflexivity|].
      rewrite Hs. reflexivity.
Qed.

Lemma reintegrate_run (kept : list SequenceId) :
  forall w,
    exists w' evs,
      for_each kept reintegrate w = Returns tt w' /\
      trace w' = trace w ++ evs /\
      solver w' = replay evs (solver w) /\
      reintegrates kept evs.
Proof.
  induction kept as [|sequence kept IH]; intros w.
  - exists w, []. cbn [for_each]. rewrite app_nil_r.
    split; [reflexivity|]. split; [reflexivity|]. split; reflexivity.
  - cbn [for_each]. unfold bind at 1. unfold reintegrate at 1.
    unfold bind, call, query, gets, modify. cbn [solver trace].
    destruct (isTerminal _ sequence) eqn:Hterm; cbn [solver trace].
    + match goal with
      | |- context [for_each kept reintegrate ?w1] =>
          destruct (IH w1) as (w' & evs & Hrun & Htr & Hs & Hre)
      end.
      fold (@bind World) in *. cbn [solver trace] in Htr, Hs.
      exists w', (FixLinks sequence :: ResetChangeFlags sequence
                  :: Backup sequence :: evs).
      split; [exact Hrun|].
      split; [rewrite Htr, <- !app_assoc; reflexivity|].
      split; [rewrite Hs; reflexivity|].
      cbn [reintegrates]. exists (Backup sequence), evs.
      split; [reflexivity|]. split; [left; reflexivity|exact Hre].
    + match goal with
      | |- context [for_each kept reintegrate ?w1] =>
          destruct (IH w1) as (w' & evs & Hrun & Htr & Hs & Hre)
      end.
      fold (@bind World) in *. cbn [solver trace] in Htr, Hs.
      exists w', (FixLinks sequence :: ResetChangeFlags sequence
                  :: ContinueSearch sequence :: evs).
      split; [exact Hrun|].
      split; [rewrite Htr, <- !app_assoc; reflexivity|].
      split; [rewrite Hs; reflexivity|].
      cbn [reintegrates]. exists (ContinueSearch sequence), evs.
      split; [reflexivity|]. split; [right; reflexivity|exact Hre].
Qed.

(** What the second phase holds: nothing but undoing and deleting, one
    [undoBackup] for every sequence, one deletion for every sequence whose
    first entry is flagged. *)
Lemma undo_calls_undo (s : Solver) (order : list SequenceId) :
  Forall is_undo (flat_map (undo_calls s) order) /\
  (forall sequence,
     In (UndoBackup sequence) (flat_map (undo_calls s) order) <->
     In sequence order) /\
  (forall sequence,
     In (DeleteHistorySequence sequence) (flat_map (undo_calls s) order) <->
     In sequence order /\ first_deleted s sequence = true).
Proof.
  induction order as [|x order (IHall & IHundo & IHdelete)].
  - cbn. split; [constructor|]. split; intros sequence; tauto.
  - cbn [flat_map In]. unfold undo_calls at 1 3 5.
    split; [|split].
    + destruct (first_deleted s x); repeat constructor; exact IHall.
    + intros sequence. cbn [app In]. rewrite in_app_iff, IHundo.
      destruct (first_deleted s x); cbn [In]; split.
      * intros [E|[[E|[]]|H]]; try discriminate; auto.
        injection E as ->. auto.
      * intros [->|H]; auto.
      * intros [E|[[]|H]]; auto. injection E as ->. auto.
      * intros [->|H]; auto.
    + intros sequence. cbn [app In]. rewrite in_app_iff, IHdelete.
      destruct (first_deleted s x) eqn:Hx; cbn [In]; split.
      * intros [E|[[E|[]]|H]]; try discriminate; auto.
        -- injection E as <-. auto.
        -- destruct H; auto.
      * intros [[->|H] Hd]; auto.
      * intros [E|[[]|[H Hd]]]; try discriminate; auto.
      * intros [[->|H] Hd]; [congruence|auto].
Qed.

(** What the third phase holds: nothing but relinking, clearing, backing
    up and searching, and a [backup] or a [continueSearch] for every
    sequence that was kept and for no other. *)
Lemma reintegrates_covers (kept : list SequenceId) :
  forall evs,
    reintegrates kept evs ->
    Forall is_reintegrate evs /\
    (forall sequence,
       In sequence kept <->
       In (Backup sequence) evs \/ In (ContinueSearch sequence) evs).
Proof.
  induction kept as [|x kept IH]; intros evs Hre; cbn [reintegrates] in Hre.
  - subst evs. split; [constructor|]. intros sequence. cbn [In]. tauto.
  - destruct Hre as (last & evs' & -> & Hlast & Hre).
    destruct (IH evs' Hre) as [Hall Hin].
    split.
    + destruct Hlast as [->| ->]; repeat constructor; exact Hall.
    + intros sequence. cbn [In]. rewrite Hin.
      destruct Hlast as [->| ->]; split.
      * intros [->|[H|H]]; auto 6.
      * intros [[E|[E|[E|H]]]|[E|[E|[E|H]]]]; try discriminate; auto.
        injection E as ->. auto.
      * intros [->|[H|H]]; auto 6.
      * intros [[E|[E|[E|H]]]|[E|[E|[E|H]]]]; try discriminate; auto.
        injection E as ->. auto.
Qed.

(** C3. [applyChanges] returns, and the calls it makes fall into three
    phases, in this order.  First the change flags are set ([collected]).
    Then every affected sequence, that is every sequence that owns a
    history entry of an affected state, is undone ([undoBackup]), in the
    order in which the set yields them; and those whose first entry is
    flagged [DELETED], under the flags as the first phase has left them,
    are deleted from the histories, each right after it is undone.  Then
    the history corrector is called, once, on the affected sequences that
    were not deleted.  Only then is each of these, in turn, relinked,
    cleared, and either backed up or searched further.  So every
    [undoBackup] comes before the revision and the revision before every
    [backup] and [continueSearch], every affected sequence is undone, every
    one that is not deleted is revised and reintegrated, and a sequence that
    was deleted is neither revised nor reintegrated. *)
Theorem applyChanges_phases (w : World) :
  exists w' affected collected reintegrated,
    let flagged := replay collected (solver w) in
    let order := iteration_order affected in
    let undone := flat_map (undo_calls flagged) order in
    let kept :=
      filter (fun sequence => negb (first_deleted flagged sequence)) order in
    applyChanges w = Returns tt w' /\
    NoDup affected /\
    (forall sequence, In sequence affected <-> In sequence (owners (solver w))) /\
    trace w' =
      trace w ++ collected ++ undone ++ ReviseHistories kept :: reintegrated /\
    solver w' =
      replay (collected ++ undone ++ ReviseHistories kept :: reintegrated)
        (solver w) /\
    Forall is_collect collected /\
    Forall is_undo undone /\
    Forall is_reintegrate reintegrated /\
    reintegrates kept reintegrated /\
    (forall sequence,
       In (UndoBackup sequence) undone <-> In sequence (owners (solver w))) /\
    (forall sequence,
       In (DeleteHistorySequence sequence) undone <->
       In sequence (owners (solver w)) /\
       first_deleted flagged sequence = true) /\
    (forall sequence,
       In sequence kept <->
       In sequence (owners (solver w)) /\
       first_deleted flagged sequence = false) /\
    (forall sequence,
       In sequence kept <->
       In (Backup sequence) reintegrated \/
       In (ContinueSearch sequence) reintegrated).
Proof.
  unfold applyChanges.
  unfold bind at 1. unfold query at 1, gets.
  unfold bind at 1.
  destruct (collect_states_run (getAffectedStates (solver w)) [] w (NoDup_nil _))
    as (affected & w1 & collected & Hrun1 & Hnd & Hin1 & Htr1 & Hs1 & Hall1).
  rewrite Hrun1.
  unfold bind at 1.
  pose proof (iteration_order_permutes affected) as Hperm.
  assert (Hnd' : NoDup (iteration_order affected))
    by (apply (Permutation_NoDup (Permutation_sym Hperm)); exact Hnd).
  destruct (purge_loop_run (iteration_order affected) [] w1 Hnd')
    as (w2 & Hrun2 & Htr2 & Hs2).
  rewrite Hrun2. cbn [app].
  rewrite Hs1 in *.
  set (flagged := replay collected (solver w)) in *.
  set (order := iteration_order affected) in *.
  set (undone := flat_map (undo_calls flagged) order) in *.
  set (kept := filter (fun sequence => negb (first_deleted flagged sequence))
                 order).
  unfold bind at 1. unfold call at 1, modify.
  match goal with
  | |- context [for_each kept reintegrate ?w3] =>
      destruct (reintegrate_run kept w3)
        as (w' & reintegrated & Hrun3 & Htr3 & Hs3 & Hre)
  end.
  cbn [solver trace] in Htr3, Hs3.
  destruct (undo_calls_undo flagged order) as (Hall2 & Hundo & Hdelete).
  destruct (reintegrates_covers kept reintegrated Hre) as [Hall3 Hin3].
  assert (Haff : forall sequence,
            In sequence affected <-> In sequence (owners (solver w))).
  { intros sequence. rewrite Hin1. unfold owners. cbn [In]. tauto. }
  assert (Hown : forall sequence,
            In sequence order <-> In sequence (owners (solver w))).
  { intros sequence. rewrite <- Haff.
    split; apply Permutation_in;
      [exact Hperm|apply Permutation_sym; exact Hperm]. }
  exists w', affected, collected, reintegrated.
  cbv zeta. fold flagged. fold order. fold undone. fold kept.
  split; [exact Hrun3|].
  split; [exact Hnd|].
  split; [exact Haff|].
  split.
  { rewrite Htr3, Htr2, Htr1, <- !app_assoc. reflexivity. }
  split.
  { rewrite Hs3, Hs2. unfold flagged.
    rewrite !replay_app. reflexivity. }
  split; [exact Hall1|]. split; [exact Hall2|]. split; [exact Hall3|].
  split; [exact Hre|].
  split; [intros sequence; rewrite <- Hown; apply Hundo|].
  split; [intros sequence; rewrite <- Hown; apply Hdelete|].
  split; [|exact Hin3].
  intros sequence. unfold kept. rewrite filter_In, Hown.
  destruct (first_deleted flagged sequence); cbn [negb];
    split; intros [H1 H2]; split; auto; discriminate.
Qed.

End WithSolver.

(** *** An instance: two affected sequences, the first of them deleted *)

(** The solver state is the list of the sequences the histories hold.  The
    set yields its elements last inserted first. *)
Definition example_world : @World Z (list SequenceId) :=
  mkWorld [10; 20] [].

Definition example_applyChanges : M (@World Z (list SequenceId)) unit :=
  applyChanges 1 4 8 16
    (fun flags flag => Z.land flags flag =? flag)
    (fun _ => [1; 2])
    (fun _ stateInfo => if stateInfo =? 1 then [(10, 0)] else [(20, 1)])
    (fun _ stateInfo => if stateInfo =? 1 then 1 else 2)
    (fun _ sequence _ => if sequence =? 10 then 1 else 2)
    (fun _ sequence => sequence =? 20)
    (fun _ _ _ s => s)
    (fun _ s => s)
    (fun sequence s => filter (fun x => negb (x =? sequence)) s)
    (fun _ s => s) (fun _ s => s) (fun _ s => s) (fun _ s => s) (fun _ s => s)
    (@rev SequenceId).

Lemma applyChanges_phases_witness :
  exists w' affected collected undone kept reintegrated,
    example_applyChanges example_world = Returns tt w' /\
    (forall sequence, In sequence affected <-> In sequence [10; 20]) /\
    trace w' =
      trace example_world ++ collected ++ undone
      ++ ReviseHistories kept :: reintegrated /\
    Forall is_collect collected /\
    Forall is_undo undone /\
    Forall is_reintegrate reintegrated /\
    (forall sequence,
       In (UndoBackup sequence) undone <-> In sequence [10; 20]) /\
    (forall sequence,
       In sequence kept <->
       In (Backup sequence) reintegrated \/
       In (ContinueSearch sequence) reintegrated).
Proof.
  destruct (applyChanges_phases 1 4 8 16
    (fun flags flag => Z.land flags flag =? flag)
    (fun _ => [1; 2])
    (fun _ stateInfo => if stateInfo =? 1 then [(10, 0)] else [(20, 1)])
    (fun _ stateInfo => if stateInfo =? 1 then 1 else 2)
    (fun _ sequence _ => if sequence =? 10 then 1 else 2)
    (fun _ sequence => sequence =? 20)
    (fun _ _ _ s => s)
    (fun _ s => s)
    (fun sequence s => filter (fun x => negb (x =? sequence)) s)
    (fun _ s => s) (fun _ s => s) (fun _ s => s) (fun _ s => s) (fun _ s => s)
    (@rev SequenceId)
    (fun set => Permutation_sym (Permutation_rev set))
    (fun _ _ _ _ _ => eq_refl)
    (fun _ _ _ => eq_refl) (fun _ _ _ _ => eq_refl) example_world)
    as (w' & affected & collected & reintegrated & H).
  cbv zeta in H.
  destruct H as (Hrun & _ & Haff & Htrace & _ & Hcollect & Hundone & Hre & _
                 & Hundo & _ & _ & Hkept).
  exists w', affected, collected.
  eexists. eexists. exists reintegrated.
  split; [exact Hrun|]. split; [exact Haff|]. split; [exact Htrace|].
  split; [exact Hcollect|]. split; [exact Hundone|]. split; [exact Hre|].
  split; [exact Hundo|exact Hkept].
Defined.

(** What the instance does, call by call. *)
Example example_applyChanges_trace :
  example_applyChanges example_world =
  Returns tt
    (mkWorld [20]
       [ SetChangeFlags 10 0 1; SetChangeFlags 20 1 2;
         UndoBackup 20; UndoBackup 10; DeleteHistorySequence 10;
         ReviseHistories [20];
         FixLinks 20; ResetChangeFlags 20; Backup 20 ]).
Proof. reflexivity. Qed.

End Changes.

(** ** [Solver.cpp]: the search driver *)

Module Search.

Import Exec.Notations.
Open Scope R_scope.
Open Scope exec_scope.

(** A [StateInfo *]. *)
Definition StateInfoId : Type := Z.

(** [f] applied to the last element of a vector. *)
Fixpoint on_last {A : Type} (f : A -> A) (l : list A) : list A :=
  match l with
  | [] => []
  | [x] => [f x]
  | x :: rest => x :: on_last f rest
  end.

(** [l[l.size() - 1]] *)
Definition back {A : Type} (l : list A) : option A :=
  nth_error l (length l - 1).

Lemma on_last_app {A : Type} (f : A -> A) (l : list A) (x : A) :
  on_last f (l ++ [x]) = l ++ [f x].
Proof.
  induction l as [|y l IH]; [reflexivity|].
  cbn [app]. cbn [on_last]. rewrite IH.
  destruct (l ++ [x]) eqn:Hl; [|reflexivity].
  destruct l; discriminate.
Qed.

Lemma back_app {A : Type} (l : list A) (x : A) : back (l ++ [x]) = Some x.
Proof.
  unfold back. rewrite length_app. cbn [length].
  rewrite nth_error_app2 by lia.
  replace (length l + 1 - 1 - length l)%nat with 0%nat by lia. reflexivity.
Qed.

Section WithSolver.

#[local] Set Default Proof Using "Type".

Context {State Observation TransitionParameters : Type}.

(** [Model::StepResult] *)
Record StepResult : Type := mkStepResult {
  action : Action;
  transitionParameters : TransitionParameters;
  observation : Observation;
  reward : R;
  nextState : State;
  isTerminal : bool
}.

(** The members of a [HistoryEntry] that [Solver.cpp] names. *)
Record HistoryEntry : Type := mkHistoryEntry {
  stateInfo_ : StateInfoId;
  discount_ : R;
  reward_ : R;
  action_ : option Action;
  transitionParameters_ : option TransitionParameters;
  observation_ : option Observation;
  owningBeliefNode_ : option NodeId;
  totalDiscountedReward_ : R;
  hasBeenBackedUp_ : bool;
  entryId_ : Z
}.

(** The members of a [HistorySequence] that [Solver.cpp] names. *)
Record HistorySequence : Type := mkHistorySequence {
  id_ : Z;
  startDepth_ : Z;
  histSeq_ : list HistoryEntry;
  isTerminal_ : bool
}.

Definition set_histSeq (sequence : HistorySequence) (entries : list HistoryEntry)
  : HistorySequence :=
  mkHistorySequence (id_ sequence) (startDepth_ sequence) entries
    (isTerminal_ sequence).

Definition set_isTerminal (sequence : HistorySequence) (terminal : bool)
  : HistorySequence :=
  mkHistorySequence (id_ sequence) (startDepth_ sequence) (histSeq_ sequence)
    terminal.

(** [entry->reward_ = ...; entry->action_ = ...;
    entry->transitionParameters_ = ...; entry->observation_ = ...] *)
Definition record_step (result : StepResult) (entry : HistoryEntry)
  : HistoryEntry :=
  mkHistoryEntry (stateInfo_ entry) (discount_ entry) (reward result)
    (Some (action result)) (Some (transitionParameters result))
    (Some (observation result)) (owningBeliefNode_ entry)
    (totalDiscountedReward_ entry) (hasBeenBackedUp_ entry) (entryId_ entry).

Definition set_owningBeliefNode (node : NodeId) (entry : HistoryEntry)
  : HistoryEntry :=
  mkHistoryEntry (stateInfo_ entry) (discount_ entry) (reward_ entry)
    (action_ entry) (transitionParameters_ entry) (observation_ entry)
    (Some node) (totalDiscountedReward_ entry) (hasBeenBackedUp_ entry)
    (entryId_ entry).

Definition set_totalDiscountedReward (total : R) (entry : HistoryEntry)
  : HistoryEntry :=
  mkHistoryEntry (stateInfo_ entry) (discount_ entry) (reward_ entry)
    (action_ entry) (transitionParameters_ entry) (observation_ entry)
    (owningBeliefNode_ entry) total (hasBeenBackedUp_ entry) (entryId_ entry).

(** What the solver holds besides the sequence that is searched: the
    model with its generator, the state pool, the belief tree, the rollout
    statistics. *)
Context {Solver : Type}.

(** The operations of the classes that are not among the sources. *)
(** [StateInfo::getState] *)
Variable getState : StateInfoId -> Solver -> State.
(** [BeliefNode::hasActionToTry], [BeliefNode::getSearchAction] (which may
    return [nullptr]) and [BeliefNode::getBestMeanQValue] *)
Variable hasActionToTry : NodeId -> Solver -> bool.
Variable getSearchAction : NodeId -> R -> Solver -> option Action.
Variable getBestMeanQValue : NodeId -> Solver -> R.
(** [Model::getUcbExploreCoefficient], [Model::generateStep] *)
Variable getUcbExploreCoefficient : R.
Variable generateStep : State -> Action -> Solver -> StepResult * Solver.
(** [StatePool::createOrGetInfo], [BeliefTree::createOrGetChild] *)
Variable createOrGetInfo : State -> Solver -> StateInfoId * Solver.
Variable createOrGetChild :
  NodeId -> Action -> Observation -> Solver -> NodeId * Solver.
(** [Histories::addNew] *)
Variable addNew : Z -> Solver -> HistorySequence * Solver.
(** The entry that [HistorySequence::addEntry(stateInfo, discount)] makes
    for a sequence. *)
Variable newEntry : StateInfoId -> R -> HistorySequence -> HistoryEntry.
(** What [HistoryEntry::registerNode] does to the belief nodes. *)
Variable registerParticle : HistorySequence -> NodeId -> Solver -> Solver.

(** The functions of [Solver.cpp] that the search calls: [getRolloutAction],
    [backup] and [updateHeuristicProbabilities]. *)
Variable getRolloutAction :
  NodeId -> State -> R -> R -> Solver -> (StepResult * R) * Solver.
Variable backup : HistorySequence -> M Solver HistorySequence.
Variable updateHeuristicProbabilities : R -> Solver -> Solver.

Definition call {A : Type} (f : Solver -> A * Solver) : M Solver A :=
  fun s => Returns (fst (f s)) (snd (f s)).

Definition defined {A : Type} (o : option A) : M Solver A :=
  match o with
  | Some a => ret a
  | None => undefined
  end.

(** [sequence->addEntry(stateInfo, discount)]; the new entry is the last
    one. *)
Definition addEntry (stateInfo : StateInfoId) (discount : R)
  (sequence : HistorySequence) : HistorySequence :=
  set_histSeq sequence
    (histSeq_ sequence ++ [newEntry stateInfo discount sequence]).

(** [entry->registerNode(node)] on the last entry of the sequence. *)
Definition registerNode (node : NodeId) (sequence : HistorySequence)
  : M Solver HistorySequence :=
  let sequence :=
    set_histSeq sequence (on_last (set_owningBeliefNode node) (histSeq_ sequence)) in
  modify (registerParticle sequence node) ;;;
  ret sequence.

(** *** [Solver::continueSearch] *)

(** The locals of [continueSearch] that the loop changes; [currHistEntry]
    is the last entry of [sequence] throughout. *)
Record Locals : Type := mkLocals {
  sequence : HistorySequence;
  currentDiscount : R;
  currNode : option NodeId;
  rolloutUsed : bool;
  done : bool;
  currentDepth : Z
}.

(** The body of the [while] loop. *)
Definition descend_step (discountFactor : R) (l : Locals) : M Solver Locals :=
  let currentDepth := (currentDepth l + 1)%Z in
  node <- defined (currNode l) ;;
  currHistEntry <- defined (back (histSeq_ (sequence l))) ;;
  has <- gets (hasActionToTry node) ;;
  state <- gets (getState (stateInfo_ currHistEntry)) ;;
  chosen <-
    (if negb has then
       found <- gets (getSearchAction node getUcbExploreCoefficient) ;;
       act <- defined found ;;
       result <- call (generateStep state act) ;;
       ret (result, 0, rolloutUsed l, isTerminal result)
     else
       rolled <- call (getRolloutAction node state (currentDiscount l)
                         discountFactor) ;;
       ret (fst rolled, snd rolled, true, true)) ;;
  let '(result, qVal, rolloutUsed, done) := chosen in
  let sequence := set_isTerminal (sequence l) (isTerminal result) in
  let sequence :=
    set_histSeq sequence (on_last (record_step result) (histSeq_ sequence)) in
  nextStateInfo <- call (createOrGetInfo (nextState result)) ;;
  let currentDiscount := currentDiscount l * discountFactor in
  let sequence := addEntry nextStateInfo currentDiscount sequence in
  child <- call (createOrGetChild node (action result) (observation result)) ;;
  sequence <- registerNode child sequence ;;
  let sequence :=
    if rolloutUsed : bool then
      set_histSeq sequence
        (on_last (set_totalDiscountedReward qVal) (histSeq_ sequence))
    else sequence in
  ret (mkLocals sequence currentDiscount (Some child) rolloutUsed done
         currentDepth).

(** The [while] loop; [fuel] bounds the number of rounds, and
    [maximumDepth - currentDepth + 1] rounds are always enough. *)
Fixpoint descend (fuel : nat) (discountFactor : R) (maximumDepth : Z)
  (l : Locals) : M Solver Locals :=
  if done l || (currentDepth l >? maximumDepth)%Z then ret l
  else
    match fuel with
    | O => undefined
    | S fuel' =>
        l' <- descend_step discountFactor l ;;
        descend fuel' discountFactor maximumDepth l'
    end.

(** What follows the loop. *)
Definition finish (sequenceRoot : NodeId) (initialRootQValue : R) (l : Locals)
  : M Solver HistorySequence :=
  currHistSeq <- backup (sequence l) ;;
  (if rolloutUsed l then
     q <- gets (getBestMeanQValue sequenceRoot) ;;
     modify (updateHeuristicProbabilities (q - initialRootQValue))
   else ret tt) ;;;
  ret currHistSeq.

Definition continueSearch (sequence : HistorySequence) (discountFactor : R)
  (maximumDepth : Z) : M Solver HistorySequence :=
  currHistEntry <- defined (back (histSeq_ sequence)) ;;
  let currentDiscount := discount_ currHistEntry in
  let currNode := owningBeliefNode_ currHistEntry in
  first <- defined (nth_error (histSeq_ sequence) 0) ;;
  sequenceRoot <- defined (owningBeliefNode_ first) ;;
  initialRootQValue <- gets (getBestMeanQValue sequenceRoot) ;;
  let currentDepth :=
    (startDepth_ sequence + entryId_ currHistEntry + 1)%Z in
  l <- descend (Z.to_nat (maximumDepth - currentDepth + 1)) discountFactor
         maximumDepth
         (mkLocals sequence currentDiscount currNode false false currentDepth) ;;
  finish sequenceRoot initialRootQValue l.

(** *** [Solver::singleSearch] with five arguments *)

Definition singleSearch (startNode : NodeId) (startStateInfo : StateInfoId)
  (startDepth : Z) (discountFactor : R) (maximumDepth : Z)
  : M Solver HistorySequence :=
  sequence <- call (addNew startDepth) ;;
  let sequence :=
    addEntry startStateInfo (powerRZ discountFactor startDepth) sequence in
  sequence <- registerNode startNode sequence ;;
  continueSearch sequence discountFactor maximumDepth.

(** *** How far and with what discounts the search descends *)

(** The discounts [d], [d * gamma], [d * gamma ^ 2], ..., [n] of them. *)
Definition geometric (d gamma : R) (n : nat) : list R :=
  map (fun k => d * gamma ^ k) (seq 0 n).

(** [HistorySequence::addEntry] gives the new entry the discount it is
    passed. *)
Definition newEntry_has_discount : Prop :=
  forall stateInfo discount sequence,
    discount_ (newEntry stateInfo discount sequence) = discount.

(** [HistorySequence::addEntry] numbers the entries from 0. *)
Definition newEntry_has_entryId : Prop :=
  forall stateInfo discount sequence,
    entryId_ (newEntry stateInfo discount sequence)
    = Z.of_nat (length (histSeq_ sequence)).

(** A node without an action left to try has a search action. *)
Definition search_action_exists : Prop :=
  forall node s,
    hasActionToTry node s = false ->
    exists act, getSearchAction node getUcbExploreCoefficient s = Some act.

(** [Histories::addNew(startDepth)] returns an empty sequence that starts
    at [startDepth]. *)
Definition addNew_is_empty : Prop :=
  forall startDepth s,
    histSeq_ (fst (addNew startDepth s)) = [] /\
    startDepth_ (fst (addNew startDepth s)) = startDepth.

(** What holds of the locals after [n] rounds of the loop, on a sequence
    that was [init ++ [e0]] with [e0] at depth [depth0 - 1]. *)
Definition descended (init : list HistoryEntry) (e0 : HistoryEntry)
  (startDepth depth0 : Z) (gamma : R) (maximumDepth : Z) (l : Locals)
  (n : nat) : Prop :=
  exists chain e,
    histSeq_ (sequence l) = init ++ chain ++ [e] /\
    length chain = n /\
    map discount_ (chain ++ [e]) = geometric (discount_ e0) gamma (S n) /\
    (forall x, In x chain -> action_ x <> None) /\
    currentDiscount l = discount_ e0 * gamma ^ n /\
    currentDepth l = (depth0 + Z.of_nat n)%Z /\
    startDepth_ (sequence l) = startDepth /\
    (exists node, currNode l = Some node) /\
    (n = 0%nat \/ (depth0 + Z.of_nat n <= maximumDepth + 1)%Z).

Lemma geometric_S (d gamma : R) (n : nat) :
  geometric d gamma (S n) = geometric d gamma n ++ [d * gamma ^ n].
Proof. unfold geometric. rewrite seq_S, map_app. reflexivity. Qed.

(** The locals after a round that took the step [result] with estimate
    [qVal], found or made [nextStateInfo] and [child], and left the two
    flags at [used] and [fin]. *)
Definition advance (gamma : R) (l : Locals) (result : StepResult) (qVal : R)
  (used fin : bool) (nextStateInfo : StateInfoId) (child : NodeId) : Locals :=
  let sequence := set_isTerminal (sequence l) (isTerminal result) in
  let sequence :=
    set_histSeq sequence (on_last (record_step result) (histSeq_ sequence)) in
  let currentDiscount := currentDiscount l * gamma in
  let sequence := addEntry nextStateInfo currentDiscount sequence in
  let sequence :=
    set_histSeq sequence (on_last (set_owningBeliefNode child) (histSeq_ sequence)) in
  let sequence :=
    if used then
      set_histSeq sequence
        (on_last (set_totalDiscountedReward qVal) (histSeq_ sequence))
    else sequence in
  mkLocals sequence currentDiscount (Some child) used fin (currentDepth l + 1)%Z.

Lemma advance_descended (init : list HistoryEntry) (e0 : HistoryEntry)
  (startDepth depth0 : Z) (gamma : R) (maximumDepth : Z) (l : Locals)
  (n : nat) (result : StepResult) (qVal : R) (used fin : bool)
  (nextStateInfo : StateInfoId) (child : NodeId) :
  newEntry_has_discount ->
  descended init e0 startDepth depth0 gamma maximumDepth l n ->
  (currentDepth l <= maximumDepth)%Z ->
  descended init e0 startDepth depth0 gamma maximumDepth
    (advance gamma l result qVal used fin nextStateInfo child) (S n).
Proof.
  intros Hdiscount
    (chain & e & Hseq & Hlen & Hgeo & Hact & Hcur & Hdepth & Hstart
     & _ & Hbound) Hgo.
  unfold advance.
  cbn [histSeq_ set_isTerminal set_histSeq addEntry].
  rewrite Hseq, (app_assoc init chain [e]), on_last_app, on_last_app.
  set (fresh := set_owningBeliefNode _ (newEntry _ _ _)).
  exists (chain ++ [record_step result e]).
  exists (if used then set_totalDiscountedReward qVal fresh else fresh).
  cbn [sequence currentDiscount currNode currentDepth].
  assert (Hfresh : discount_ (if used then set_totalDiscountedReward qVal fresh
                              else fresh)
                   = discount_ e0 * gamma ^ S n).
  { assert (Hd : discount_ fresh = currentDiscount l * gamma)
      by (unfold fresh; cbn [discount_ set_owningBeliefNode]; apply Hdiscount).
    destruct used; cbn [discount_ set_totalDiscountedReward];
      rewrite Hd, Hcur; cbn [pow]; ring. }
  split.
  { destruct used; cbn [histSeq_ set_histSeq]; rewrite ?on_last_app;
      rewrite <- !app_assoc; reflexivity. }
  split; [rewrite length_app; cbn [length]; lia|].
  split.
  { rewrite geometric_S, map_app. cbn [map]. rewrite Hfresh. f_equal.
    rewrite map_app in Hgeo |- *. cbn [map] in Hgeo |- *.
    cbn [discount_ record_step]. exact Hgeo. }
  split.
  { intros x Hin. apply in_app_or in Hin. destruct Hin as [Hin|[<-|[]]].
    - apply Hact. exact Hin.
    - cbn. discriminate. }
  split; [rewrite Hcur; cbn [pow]; ring|].
  split; [rewrite Hdepth; lia|].
  split; [destruct used; cbn; exact Hstart|].
  split; [eexists; reflexivity|].
  right. lia.
Qed.

Lemma descend_step_run (init : list HistoryEntry) (e0 : HistoryEntry)
  (startDepth depth0 : Z) (gamma : R) (maximumDepth : Z) (l : Locals)
  (n : nat) (s : Solver) :
  search_action_exists ->
  descended init e0 startDepth depth0 gamma maximumDepth l n ->
  exists result qVal used fin nextStateInfo child s',
    descend_step gamma l s
    = Returns (advance gamma l result qVal used fin nextStateInfo child) s'.
Proof.
  intros Hsearch
    (chain & e & Hseq & _ & _ & _ & _ & _ & _ & [node Hnode] & _).
  assert (Hback : back (histSeq_ (sequence l)) = Some e)
    by (rewrite Hseq, app_assoc; apply back_app).
  unfold descend_step. rewrite Hnode, Hback.
  unfold bind, gets, call, registerNode, modify. cbn [defined ret].
  destruct (hasActionToTry node s) eqn:Has; cbn [negb].
  - unfold ret. cbv beta iota zeta.
    eexists. eexists. exists true, true. do 3 eexists.
    unfold advance. reflexivity.
  - destruct (Hsearch node s Has) as [act Hfound]. rewrite Hfound.
    cbn [defined ret]. unfold ret. cbv beta iota zeta.
    eexists. eexists. exists (rolloutUsed l). do 4 eexists.
    unfold advance. reflexivity.
Qed.

Lemma descend_run (init : list HistoryEntry) (e0 : HistoryEntry)
  (startDepth depth0 : Z) (gamma : R) (maximumDepth : Z) :
  newEntry_has_discount -> search_action_exists ->
  forall (fuel : nat) (l : Locals) (n : nat) (s : Solver),
    descended init e0 startDepth depth0 gamma maximumDepth l n ->
    (Z.to_nat (maximumDepth - currentDepth l + 1) <= fuel)%nat ->
    exists l' n' s',
      descend fuel gamma maximumDepth l s = Returns l' s' /\
      descended init e0 startDepth depth0 gamma maximumDepth l' n' /\
      (n <= n')%nat /\
      (n' = n -> l' = l /\ s' = s) /\
      (done l' = true \/ (maximumDepth < currentDepth l')%Z).
Proof.
  intros Hdiscount Hsearch.
  induction fuel as [|fuel IH]; intros l n s Hinv Hfuel.
  - cbn [descend].
    destruct (done l) eqn:Hdone; cbn [orb].
    { exists l, n, s. repeat split; try assumption; auto. }
    destruct (Z.gtb_spec (currentDepth l) maximumDepth) as [Hover|Hgo]; [|lia].
    exists l, n, s. repeat split; try assumption; auto.
  - cbn [descend].
    destruct (done l) eqn:Hdone; cbn [orb].
    { exists l, n, s. repeat split; try assumption; auto. }
    destruct (Z.gtb_spec (currentDepth l) maximumDepth) as [Hover|Hgo].
    { exists l, n, s. repeat split; try assumption; auto. }
    destruct (descend_step_run init e0 startDepth depth0 gamma maximumDepth
                l n s Hsearch Hinv)
      as (result & qVal & used & fin & info & child & s1 & Hstep).
    pose proof (advance_descended init e0 startDepth depth0 gamma maximumDepth
                  l n result qVal used fin info child Hdiscount Hinv Hgo)
      as Hinv1.
    unfold bind. rewrite Hstep.
    destruct (IH _ (S n) s1 Hinv1) as (l' & n' & s' & Hrun & Hinv' & Hle & _ & Hexit).
    { cbn [currentDepth advance]. lia. }
    exists l', n', s'. split; [exact Hrun|]. split; [exact Hinv'|].
    split; [lia|]. split; [intros ->; lia|exact Hexit].
Qed.

(** The number of rounds the loop can still make from depth [depth]. *)
Definition rounds_left (maximumDepth depth : Z) : Z :=
  Z.max 0 (maximumDepth - depth + 1).

Lemma continueSearch_run (sequence0 : HistorySequence)
  (init : list HistoryEntry) (e0 : HistoryEntry) (node root : NodeId)
  (gamma : R) (maximumDepth : Z) (s : Solver) :
  newEntry_has_discount -> search_action_exists ->
  histSeq_ sequence0 = init ++ [e0] ->
  owningBeliefNode_ e0 = Some node ->
  (exists first, nth_error (histSeq_ sequence0) 0 = Some first /\
                 owningBeliefNode_ first = Some root) ->
  exists l s1 added,
    continueSearch sequence0 gamma maximumDepth s
    = finish root (getBestMeanQValue root s) l s1 /\
    histSeq_ (sequence l) = init ++ added /\
    startDepth_ (sequence l) = startDepth_ sequence0 /\
    (1 <= length added)%nat /\
    (Z.of_nat (length added)
     <= 1 + rounds_left maximumDepth
              (startDepth_ sequence0 + entryId_ e0 + 1))%Z /\
    map discount_ added = geometric (discount_ e0) gamma (length added) /\
    (forall x, In x (removelast added) -> action_ x <> None) /\
    (length added = 1%nat ->
     sequence l = sequence0 /\ s1 = s /\ rolloutUsed l = false) /\
    ((maximumDepth < startDepth_ sequence0 + entryId_ e0 + 1)%Z ->
     length added = 1%nat).
Proof.
  intros Hdiscount Hsearch Hseq Howner (first & Hfirst & Hroot).
  unfold continueSearch.
  rewrite Hseq, back_app. rewrite <- Hseq, Hfirst.
  unfold bind at 1. cbn [defined ret].
  unfold bind at 1. cbn [defined ret].
  unfold bind at 1. rewrite Hroot. cbn [defined ret].
  unfold bind at 1. unfold gets at 1.
  set (depth0 := (startDepth_ sequence0 + entryId_ e0 + 1)%Z).
  set (l0 := mkLocals sequence0 (discount_ e0) (owningBeliefNode_ e0) false
               false depth0).
  assert (Hinv0 : descended init e0 (startDepth_ sequence0) depth0 gamma
                    maximumDepth l0 0).
  { exists [], e0. cbn [app length sequence currentDiscount currentDepth
                        currNode l0 map].
    split; [exact Hseq|]. split; [reflexivity|].
    split; [unfold geometric; cbn; f_equal; ring|].
    split; [intros x []|].
    split; [cbn; ring|]. split; [lia|]. split; [reflexivity|].
    split; [exists node; exact Howner|]. left. reflexivity. }
  destruct (descend_run init e0 (startDepth_ sequence0) depth0 gamma
              maximumDepth Hdiscount Hsearch
              (Z.to_nat (maximumDepth - depth0 + 1)) l0 0%nat s Hinv0)
    as (l & n & s1 & Hrun & Hinv & _ & Hsame & Hexit).
  { cbn [currentDepth l0]. lia. }
  unfold bind at 1. rewrite Hrun.
  destruct Hinv as (chain & e & Hseq' & Hlen & Hgeo & Hact & _ & Hdepth
                    & Hstart & _ & Hbound).
  exists l, s1, (chain ++ [e]). split; [reflexivity|].
  split; [exact Hseq'|]. split; [exact Hstart|].
  rewrite length_app, Hlen. cbn [length].
  split; [lia|].
  split; [unfold rounds_left; lia|].
  split; [replace (n + 1)%nat with (S n) by lia; exact Hgeo|].
  split; [rewrite removelast_last; exact Hact|].
  split.
  - intros Hone. assert (Hzero : n = 0%nat) by lia.
    destruct (Hsame Hzero) as [-> ->]. repeat split.
  - intros Hover. destruct Hbound as [->|Hbound]; [reflexivity|lia].
Qed.

(** X19. On a sequence whose last entry has a belief node and whose first
    entry has one, [continueSearch] gets through its loop (given that a node
    with no action left to try has a search action, and that [addEntry]
    gives an entry the discount it is passed) and hands [backup] a sequence
    that keeps all entries before the last, and from the last entry on
    carries the discounts [d], [d * discountFactor], [d * discountFactor^2],
    ..., [d] being the discount of the last entry.  Every entry but the new
    last one has an action.  The loop adds at most
    [maximumDepth - (startDepth_ + entryId_)] entries ([entryId_] being that
    of the last entry), and none when that difference is not positive: the
    sequence then goes to [backup] as it came, and no rollout is recorded. *)
Theorem continueSearch_extends_geometrically (sequence0 : HistorySequence)
  (init : list HistoryEntry) (e0 : HistoryEntry) (node root : NodeId)
  (gamma : R) (maximumDepth : Z) (s : Solver) :
  newEntry_has_discount -> search_action_exists ->
  histSeq_ sequence0 = init ++ [e0] ->
  owningBeliefNode_ e0 = Some node ->
  (exists first, nth_error (histSeq_ sequence0) 0 = Some first /\
                 owningBeliefNode_ first = Some root) ->
  exists l s1 added,
    continueSearch sequence0 gamma maximumDepth s
    = finish root (getBestMeanQValue root s) l s1 /\
    histSeq_ (sequence l) = init ++ added /\
    startDepth_ (sequence l) = startDepth_ sequence0 /\
    (1 <= length added)%nat /\
    (Z.of_nat (length added)
     <= 1 + rounds_left maximumDepth
              (startDepth_ sequence0 + entryId_ e0 + 1))%Z /\
    map discount_ added = geometric (discount_ e0) gamma (length added) /\
    (forall x, In x (removelast added) -> action_ x <> None) /\
    (length added = 1%nat ->
     sequence l = sequence0 /\ s1 = s /\ rolloutUsed l = false) /\
    ((maximumDepth < startDepth_ sequence0 + entryId_ e0 + 1)%Z ->
     length added = 1%nat).
Proof. apply continueSearch_run. Qed.

(** X20. [singleSearch] (with five arguments) hands [backup] a sequence
    that starts at [startDepth], has between 1 and
    [1 + max 0 (maximumDepth - startDepth)] entries, the k-th of them (from
    0) with discount [discountFactor^startDepth * discountFactor^k], and
    each but the last with an action; this given that [addNew] returns an
    empty sequence at the start depth, that [addEntry] numbers the entries
    from 0 and gives them the discount it is passed, and that a node with
    no action left to try has a search action. *)
Theorem singleSearch_discounts_by_depth (startNode : NodeId)
  (startStateInfo : StateInfoId) (startDepth : Z) (gamma : R)
  (maximumDepth : Z) (s : Solver) :
  addNew_is_empty -> newEntry_has_discount -> newEntry_has_entryId ->
  search_action_exists ->
  exists l s0 s1,
    singleSearch startNode startStateInfo startDepth gamma maximumDepth s
    = finish startNode (getBestMeanQValue startNode s0) l s1 /\
    startDepth_ (sequence l) = startDepth /\
    (1 <= length (histSeq_ (sequence l)))%nat /\
    (Z.of_nat (length (histSeq_ (sequence l)))
     <= 1 + Z.max 0 (maximumDepth - startDepth))%Z /\
    map discount_ (histSeq_ (sequence l))
    = geometric (powerRZ gamma startDepth) gamma
        (length (histSeq_ (sequence l))) /\
    (forall x, In x (removelast (histSeq_ (sequence l))) -> action_ x <> None).
Proof.
  intros Hnew Hdiscount Hid Hsearch.
  destruct (Hnew startDepth s) as [Hempty Hstart].
  unfold singleSearch.
  unfold bind at 1. unfold call at 1.
  unfold registerNode. unfold bind at 1. unfold bind at 1.
  unfold modify at 1. unfold ret at 1.
  cbn [histSeq_ addEntry set_histSeq]. rewrite Hempty. cbn [app on_last].
  set (sequenceA := fst (addNew startDepth s)) in *.
  set (e0 := set_owningBeliefNode startNode
               (newEntry startStateInfo (powerRZ gamma startDepth) sequenceA)).
  match goal with
  | |- context [continueSearch ?sequence0 _ _ ?s0] =>
      destruct (continueSearch_run sequence0 [] e0 startNode startNode gamma
                  maximumDepth s0 Hdiscount Hsearch)
        as (l & s1 & added & Hrun & Hseq & Hstart' & Hlen1 & Hlen2 & Hgeo
            & Hact & _);
        [reflexivity|reflexivity|exists e0; split; reflexivity|];
        exists l, s0, s1
  end.
  split; [exact Hrun|].
  cbn [app] in Hseq. rewrite Hseq.
  cbn [startDepth_ set_histSeq addEntry] in Hstart', Hlen2.
  split; [rewrite Hstart'; exact Hstart|].
  split; [exact Hlen1|].
  assert (Hd0 : discount_ e0 = powerRZ gamma startDepth)
    by (unfold e0; cbn [discount_ set_owningBeliefNode]; apply Hdiscount).
  assert (Hid0 : entryId_ e0 = 0%Z).
  { unfold e0. cbn [entryId_ set_owningBeliefNode]. rewrite Hid.
    fold sequenceA. rewrite Hempty. reflexivity. }
  split.
  { rewrite Hid0, Hstart in Hlen2. unfold rounds_left in Hlen2. lia. }
  split; [rewrite <- Hd0; exact Hgeo|exact Hact].
Qed.

End WithSolver.
(** *** An instance: a chain of nodes, the third with an action to try *)

(** States, state infos and nodes are integers; a step moves the state by
    one and pays 1; the child of node [n] is node [n + 1]; the nodes from 2
    on have an action left to try; the solver state counts the model
    steps. *)
Definition chain_step (act : Action) (st : Z) : @StepResult Z unit unit :=
  mkStepResult act tt tt 1 (st + 1)%Z false.

Definition chain_newEntry (stateInfo : StateInfoId) (discount : R)
  (sequence : @HistorySequence unit unit) : @HistoryEntry unit unit :=
  mkHistoryEntry stateInfo discount 0 None None None None 0 false
    (Z.of_nat (length (histSeq_ sequence))).

Definition chain_continueSearch
  : @HistorySequence unit unit -> R -> Z -> M nat (@HistorySequence unit unit) :=
  continueSearch (fun stateInfo _ => stateInfo) (fun node _ => (2 <=? node)%Z)
    (fun _ _ _ => Some 1%Z) (fun _ _ => 0) 1
    (fun st act s => (chain_step act st, S s))
    (fun st s => (st, s)) (fun node _ _ s => ((node + 1)%Z, s))
    chain_newEntry (fun _ _ s => s)
    (fun _ st _ _ s => (chain_step 0%Z st, 5, S s))
    (fun sequence => ret sequence) (fun _ s => s).

Definition chain_singleSearch
  : NodeId -> StateInfoId -> Z -> R -> Z -> M nat (@HistorySequence unit unit) :=
  singleSearch (fun stateInfo _ => stateInfo) (fun node _ => (2 <=? node)%Z)
    (fun _ _ _ => Some 1%Z) (fun _ _ => 0) 1
    (fun st act s => (chain_step act st, S s))
    (fun st s => (st, s)) (fun node _ _ s => ((node + 1)%Z, s))
    (fun startDepth s => (mkHistorySequence 0%Z startDepth [] false, s))
    chain_newEntry (fun _ _ s => s)
    (fun _ st _ _ s => (chain_step 0%Z st, 5, S s))
    (fun sequence => ret sequence) (fun _ s => s).

Definition chain_finish
  : NodeId -> R -> @Locals unit unit -> M nat (@HistorySequence unit unit) :=
  finish (fun _ _ => 0) (fun sequence => ret sequence) (fun _ s => s).

(** A sequence of one entry at the root. *)
Definition chain_entry : @HistoryEntry unit unit :=
  mkHistoryEntry 7%Z 1 0 None None None (Some 0%Z) 0 false 0%Z.

Definition chain_sequence : @HistorySequence unit unit :=
  mkHistorySequence 0%Z 0%Z [chain_entry] false.

Lemma continueSearch_extends_geometrically_witness :
  exists l s1 added,
    chain_continueSearch chain_sequence (1/2) 10 0%nat
    = chain_finish 0%Z 0 l s1 /\
    histSeq_ (sequence l) = [] ++ added /\
    startDepth_ (sequence l) = 0%Z /\
    (1 <= length added)%nat /\
    (Z.of_nat (length added) <= 1 + rounds_left 10 (0 + 0 + 1))%Z /\
    map discount_ added = geometric 1 (1/2) (length added) /\
    (forall x, In x (removelast added) -> action_ x <> None) /\
    (length added = 1%nat ->
     sequence l = chain_sequence /\ s1 = 0%nat /\ rolloutUsed l = false) /\
    ((10 < 0 + 0 + 1)%Z -> length added = 1%nat).
Proof.
  apply (continueSearch_extends_geometrically
           (fun stateInfo _ => stateInfo) (fun node _ => (2 <=? node)%Z)
           (fun _ _ _ => Some 1%Z) (fun _ _ => 0) 1
           (fun st act s => (chain_step act st, S s))
           (fun st s => (st, s)) (fun node _ _ s => ((node + 1)%Z, s))
           chain_newEntry (fun _ _ s => s)
           (fun _ st _ _ s => (chain_step 0%Z st, 5, S s))
           (fun sequence => ret sequence) (fun _ s => s)
           chain_sequence [] chain_entry 0%Z 0%Z (1/2) 10%Z 0%nat).
  - intros stateInfo discount sequence. reflexivity.
  - intros node s _. exists 1%Z. reflexivity.
  - reflexivity.
  - reflexivity.
  - exists chain_entry. split; reflexivity.
Defined.

Lemma singleSearch_discounts_by_depth_witness :
  exists l s1,
    chain_singleSearch 0%Z 7%Z 3%Z (1/2) 10%Z 0%nat
    = chain_finish 0%Z 0 l s1 /\
    startDepth_ (sequence l) = 3%Z /\
    (1 <= length (histSeq_ (sequence l)))%nat /\
    (Z.of_nat (length (histSeq_ (sequence l))) <= 1 + Z.max 0 (10 - 3))%Z /\
    map discount_ (histSeq_ (sequence l))
    = geometric (powerRZ (1/2) 3) (1/2) (length (histSeq_ (sequence l))) /\
    (forall x, In x (removelast (histSeq_ (sequence l))) -> action_ x <> None).
Proof.
  destruct (singleSearch_discounts_by_depth
              (fun stateInfo _ => stateInfo) (fun node _ => (2 <=? node)%Z)
              (fun _ _ _ => Some 1%Z) (fun _ _ => 0) 1
              (fun st act s => (chain_step act st, S s))
              (fun st s => (st, s)) (fun node _ _ s => ((node + 1)%Z, s))
              (fun startDepth s => (mkHistorySequence 0%Z startDepth [] false, s))
              chain_newEntry (fun _ _ s => s)
              (fun _ st _ _ s => (chain_step 0%Z st, 5, S s))
              (fun sequence => ret sequence) (fun _ s => s)
              0%Z 7%Z 3%Z (1/2) 10%Z 0%nat)
    as (l & s0 & s1 & Hrun & Hrest).
  - intros startDepth s. split; reflexivity.
  - intros stateInfo discount sequence. reflexivity.
  - intros stateInfo discount sequence. reflexivity.
  - intros node s _. exists 1%Z. reflexivity.
  - exists l, s1. split; [exact Hrun|exact Hrest].
Defined.

(** The search of the example: two search steps, then a rollout at the
    third node; four entries with the discounts 1, 1/2, 1/4, 1/8. *)
Example chain_singleSearch_discounts :
  match chain_singleSearch 0%Z 7%Z 0%Z (1/2) 10%Z 0%nat with
  | Returns sequence _ => map entryId_ (histSeq_ sequence)
  | _ => []
  end = [0; 1; 2; 3]%Z.
Proof. reflexivity. Qed.

End Search.

(** ** [TagModel.cpp] *)

Module Tag.

Import Exec.Notations.
Open Scope Z_scope.
Open Scope exec_scope.

(** A [GridPosition]: the row [i] and the column [j], both [long]. *)
Record GridPosition : Type := mkGridPosition { i : Z; j : Z }.

(** [operator==] on grid positions. *)
Definition GridPosition_eqb (p q : GridPosition) : bool :=
  (i p =? i q) && (j p =? j q).

(** [sVals.vals]: the state variables.  They are [double]s that only ever
    hold whole numbers (cell codes and the tag flag, written from [long]
    values), and are carried as integers. *)
Definition VectorState : Type := list Z.

(** What a call that throws or reads outside a vector gives. *)
Definition index {A : Type} (l : list A) (k : Z) : option A :=
  if k <? 0 then None else nth_error l (Z.to_nat k).

(** [l[k] = x] *)
Fixpoint assign {A : Type} (k : nat) (x : A) (l : list A) : option (list A) :=
  match l, k with
  | [], _ => None
  | _ :: rest, O => Some (x :: rest)
  | y :: rest, S k' =>
      match assign k' x rest with
      | Some rest' => Some (y :: rest')
      | None => None
      end
  end.

(** [l.resize(n)], new elements being [d]. *)
Definition resize {A : Type} (n : nat) (d : A) (l : list A) : list A :=
  firstn n l ++ repeat d (n - length l).

(** [text[col]] of a [std::string]: the character, or the terminating zero
    at [col = text.size()]; past that it is undefined. *)
Definition char_at (text : string) (col : nat) : option Ascii.ascii :=
  match String.get col text with
  | Some c => Some c
  | None => if Nat.eqb col (String.length text) then Some Ascii.zero else None
  end.

(** The character ['X'], which marks a wall in the map file. *)
Definition char_X : Ascii.ascii := Ascii.ascii_of_nat 88.

(** [env[row][col]] *)
Definition cell (env : list (list Z)) (row col : nat) : option Z :=
  match nth_error env row with
  | Some cells => nth_error cells col
  | None => None
  end.

(** [env[row][col] = v] *)
Definition set_cell (row col : nat) (v : Z) (env : list (list Z))
  : option (list (list Z)) :=
  match nth_error env row with
  | Some cells =>
      match assign col v cells with
      | Some cells' => assign row cells' env
      | None => None
      end
  | None => None
  end.

Lemma assign_same {A : Type} (k : nat) (x : A) :
  forall l l', assign k x l = Some l' -> nth_error l' k = Some x.
Proof.
  induction k as [|k IH]; intros [|y rest] l' H; cbn in H; try discriminate.
  - injection H as <-. reflexivity.
  - destruct (assign k x rest) as [rest'|] eqn:Hrest; [|discriminate].
    injection H as <-. cbn. apply (IH rest). exact Hrest.
Qed.

Lemma assign_other {A : Type} (k : nat) (x : A) :
  forall l l' k', assign k x l = Some l' -> k' <> k ->
                  nth_error l' k' = nth_error l k'.
Proof.
  induction k as [|k IH]; intros [|y rest] l' k' H Hk; cbn in H; try discriminate.
  - injection H as <-. destruct k'; [contradiction|reflexivity].
  - destruct (assign k x rest) as [rest'|] eqn:Hrest; [|discriminate].
    injection H as <-. destruct k'; [reflexivity|]. cbn.
    apply (IH rest); [exact Hrest|]. intros ->. apply Hk. reflexivity.
Qed.

Lemma assign_length {A : Type} (k : nat) (x : A) :
  forall l l', assign k x l = Some l' -> length l' = length l.
Proof.
  induction k as [|k IH]; intros [|y rest] l' H; cbn in H; try discriminate.
  - injection H as <-. reflexivity.
  - destruct (assign k x rest) as [rest'|] eqn:Hrest; [|discriminate].
    injection H as <-. cbn. f_equal. apply (IH rest). exact Hrest.
Qed.

Lemma assign_defined {A : Type} (k : nat) (x : A) :
  forall l, (k < length l)%nat -> exists l', assign k x l = Some l'.
Proof.
  induction k as [|k IH]; intros [|y rest] H; cbn in H; try lia.
  - eexists. reflexivity.
  - destruct (IH rest) as [rest' Hrest]; [lia|].
    exists (y :: rest'). cbn. rewrite Hrest. reflexivity.
Qed.

Lemma resize_length {A : Type} (n : nat) (d : A) (l : list A) :
  length (resize n d l) = n.
Proof.
  unfold resize. rewrite length_app, length_firstn, repeat_length. lia.
Qed.

Lemma cell_set_same (row col : nat) (v : Z) (env env' : list (list Z)) :
  set_cell row col v env = Some env' -> cell env' row col = Some v.
Proof.
  unfold set_cell, cell. intros H.
  destruct (nth_error env row) as [cells|]; [|discriminate].
  destruct (assign col v cells) as [cells'|] eqn:Hcells; [|discriminate].
  rewrite (assign_same _ _ _ _ H). apply (assign_same _ _ _ _ Hcells).
Qed.

Lemma cell_set_other (row col : nat) (v : Z) (env env' : list (list Z))
  (r c : nat) :
  set_cell row col v env = Some env' -> r <> row \/ c <> col ->
  cell env' r c = cell env r c.
Proof.
  unfold set_cell, cell. intros H Hother.
  destruct (nth_error env row) as [cells|] eqn:Hrow; [|discriminate].
  destruct (assign col v cells) as [cells'|] eqn:Hcells; [|discriminate].
  destruct (Nat.eq_dec r row) as [->|Hr].
  - rewrite (assign_same _ _ _ _ H), Hrow.
    apply (assign_other _ _ _ _ _ Hcells). destruct Hother; congruence.
  - rewrite (assign_other _ _ _ _ _ H Hr). reflexivity.
Qed.

Lemma set_cell_length (row col : nat) (v : Z) (env env' : list (list Z)) :
  set_cell row col v env = Some env' -> length env' = length env.
Proof.
  unfold set_cell. intros H.
  destruct (nth_error env row) as [cells|]; [|discriminate].
  destruct (assign col v cells) as [cells'|]; [|discriminate].
  apply (assign_length _ _ _ _ H).
Qed.

Lemma set_cell_defined (row col : nat) (v : Z) (env : list (list Z)) :
  (exists w, cell env row col = Some w) ->
  exists env', set_cell row col v env = Some env'.
Proof.
  unfold set_cell, cell. intros [w Hw].
  destruct (nth_error env row) as [cells|] eqn:Hrow; [|discriminate].
  destruct (assign_defined col v cells) as [cells' Hcells].
  { apply nth_error_Some. congruence. }
  rewrite Hcells. apply assign_defined. apply nth_error_Some. congruence.
Qed.

Lemma char_at_defined (text : string) :
  forall col, (col < String.length text)%nat -> exists c, char_at text col = Some c.
Proof.
  unfold char_at.
  induction text as [|a text IH]; intros col H; cbn in H; [lia|].
  destruct col as [|col]; cbn [String.get].
  - eexists. reflexivity.
  - destruct (IH col) as [c Hc]; [lia|].
    destruct (String.get col text) as [c'|]; [eexists; reflexivity|].
    cbn [String.length Nat.eqb].
    destruct (Nat.eqb col (String.length text)); [eexists; reflexivity|discriminate].
Qed.

Section WithConstants.

#[local] Set Default Proof Using "Type".

(** The enumerators of [TagModel.hpp], which is not among the sources: the
    actions, the two cell types, the tag flag. *)
Variables NORTH EAST SOUTH WEST TAG : Z.
Variables EMPTY WALL : Z.
Variables TAGGED UNTAGGED : Z.
Variables SEEN UNSEEN : Z.

(** [global_resources::rand01] and [global_resources::randIntBetween], which
    draw from a generator that is global to the program. *)
Context {RandomGenerator : Type}.
Variable rand01 : RandomGenerator -> R * RandomGenerator.
Variable randIntBetween : Z -> Z -> RandomGenerator -> Z * RandomGenerator.

(** The members of [TagModel] that the functions below read or write. *)
Record TagModel : Type := mkTagModel {
  nRows : Z;
  nCols : Z;
  mapText : list string;
  nEmptyCells : Z;
  emptyCells : list GridPosition;
  envMap : list (list Z);
  nActions : Z;
  nObservations : Z;
  nStVars : Z;
  minVal : R;
  maxVal : R;
  discount : R;
  moveCost : R;
  tagReward : R;
  failedTagPenalty : R;
  opponentStayProbability : R
}.

Definition set_envMap (m : TagModel) (env : list (list Z)) : TagModel :=
  mkTagModel (nRows m) (nCols m) (mapText m) (nEmptyCells m) (emptyCells m)
    env (nActions m) (nObservations m) (nStVars m) (minVal m) (maxVal m)
    (discount m) (moveCost m) (tagReward m) (failedTagPenalty m)
    (opponentStayProbability m).

Definition set_empty (m : TagModel) (n : Z) (cells : list GridPosition)
  : TagModel :=
  mkTagModel (nRows m) (nCols m) (mapText m) n cells
    (envMap m) (nActions m) (nObservations m) (nStVars m) (minVal m) (maxVal m)
    (discount m) (moveCost m) (tagReward m) (failedTagPenalty m)
    (opponentStayProbability m).

(** *** [TagModel::initialise] *)

(** [mapText[row][col] == 'X'] *)
Definition is_X (m : TagModel) (row col : nat) : option bool :=
  match nth_error (mapText m) row with
  | Some text =>
      match char_at text col with
      | Some c => Some (Ascii.eqb c char_X)
      | None => None
      end
  | None => None
  end.

(** The body of the inner loop at [p = (row, col)]. *)
Definition fill_cell (row col : nat) (m : TagModel) : option TagModel :=
  match is_X m row col with
  | None => None
  | Some true =>
      match set_cell row col WALL (envMap m) with
      | Some env => Some (set_envMap m env)
      | None => None
      end
  | Some false =>
      let cellType := EMPTY + nEmptyCells m in
      let m1 :=
        set_empty m (nEmptyCells m + 1)
          (emptyCells m ++ [mkGridPosition (Z.of_nat row) (Z.of_nat col)]) in
      match set_cell row col cellType (envMap m1) with
      | Some env => Some (set_envMap m1 env)
      | None => None
      end
  end.

(** The inner loop: [p.j] runs over [cols]. *)
Fixpoint fill_cols (row : nat) (cols : list nat) (m : TagModel)
  : option TagModel :=
  match cols with
  | [] => Some m
  | col :: cols' =>
      match fill_cell row col m with
      | Some m' => fill_cols row cols' m'
      | None => None
      end
  end.

(** The outer loop, with [p.i + 1 = rows] rows still to do: [p.i] runs
    from [nRows - 1] down to 0.  A negative [nCols] makes [resize] throw. *)
Fixpoint fill_rows (rows : nat) (m : TagModel) : option TagModel :=
  match rows with
  | O => Some m
  | S row =>
      if nCols m <? 0 then None
      else
        match nth_error (envMap m) row with
        | None => None
        | Some cells =>
            match assign row (resize (Z.to_nat (nCols m)) 0 cells) (envMap m) with
            | None => None
            | Some env =>
                match fill_cols row (seq 0 (Z.to_nat (nCols m))) (set_envMap m env) with
                | Some m' => fill_rows row m'
                | None => None
                end
            end
        end
  end.

(** [None] when the call throws (a negative size) or reads outside
    [mapText]. *)
Definition initialise (m : TagModel) : option TagModel :=
  if nRows m <? 0 then None
  else
    let m0 :=
      set_envMap (set_empty m 0 (emptyCells m))
        (resize (Z.to_nat (nRows m)) [] (envMap m)) in
    match fill_rows (Z.to_nat (nRows m)) m0 with
    | None => None
    | Some m1 =>
        Some (mkTagModel (nRows m1) (nCols m1) (mapText m1) (nEmptyCells m1)
                (emptyCells m1) (envMap m1) 5 (nEmptyCells m1 * 2) 3
                (- failedTagPenalty m1 / (1 - discount m1))%R (tagReward m1)
                (discount m1) (moveCost m1) (tagReward m1)
                (failedTagPenalty m1) (opponentStayProbability m1))
    end.

(** *** [encodeGridPosition], [decodeGridPosition] *)

Definition encodeGridPosition (m : TagModel) (c : GridPosition) : option Z :=
  if (i c <? 0) || (j c <? 0) then None
  else cell (envMap m) (Z.to_nat (i c)) (Z.to_nat (j c)).

Definition decodeGridPosition (m : TagModel) (code : Z) : option GridPosition :=
  index (emptyCells m) code.

(** *** [getMovedPos], [isValid] *)

Definition getMovedPos (p : GridPosition) (actId : Z) : GridPosition :=
  if actId =? NORTH then mkGridPosition (i p - 1) (j p)
  else if actId =? EAST then mkGridPosition (i p) (j p + 1)
  else if actId =? SOUTH then mkGridPosition (i p + 1) (j p)
  else if actId =? WEST then mkGridPosition (i p) (j p - 1)
  else p.

Definition isValid (m : TagModel) (p : GridPosition) : option bool :=
  if (i p <? 0) || (i p >=? nRows m) || (j p <? 0) || (j p >=? nCols m)
  then Some false
  else
    match cell (envMap m) (Z.to_nat (i p)) (Z.to_nat (j p)) with
    | Some v => Some (negb (v =? WALL))
    | None => None
    end.

(** *** The opponent *)

Definition makeOpponentActions (robotPos opponentPos : GridPosition)
  (actions : list Z) : list Z :=
  let actions :=
    if i robotPos >? i opponentPos then actions ++ [NORTH; NORTH]
    else if i robotPos <? i opponentPos then actions ++ [SOUTH; SOUTH]
    else actions ++ [NORTH; SOUTH] in
  if j robotPos >? j opponentPos then actions ++ [WEST; WEST]
  else if j robotPos <? j opponentPos then actions ++ [EAST; EAST]
  else actions ++ [EAST; WEST].

Definition draw {A : Type} (f : RandomGenerator -> A * RandomGenerator)
  : M RandomGenerator A :=
  fun g => Returns (fst (f g)) (snd (f g)).

(** A read or a write that is undefined outside the vector. *)
Definition defined {A : Type} (o : option A) : M RandomGenerator A :=
  match o with
  | Some a => ret a
  | None => undefined
  end.

(** [moveOpponent(robotPos, opponentPos)]; the result is [opponentPos]
    after the call. *)
Definition moveOpponent (m : TagModel) (robotPos opponentPos : GridPosition)
  : M RandomGenerator GridPosition :=
  u <- draw rand01 ;;
  if Rlt_dec u (opponentStayProbability m) then ret opponentPos
  else
    let actions := makeOpponentActions robotPos opponentPos [] in
    k <- draw (randIntBetween 0 (Z.of_nat (length actions) - 1)) ;;
    actId <- defined (index actions k) ;;
    let newOpponentPos := getMovedPos opponentPos actId in
    valid <- defined (isValid m newOpponentPos) ;;
    ret (if valid : bool then newOpponentPos else opponentPos).

(** *** [makeNextState], [makeObs], [getReward], [isTerm], [getNextState] *)

(** The result is the returned flag and [nxtSVals]. *)
Definition makeNextState (m : TagModel) (sVals : VectorState) (actId : Z)
  : M RandomGenerator (bool * VectorState) :=
  let nxtSVals := sVals in
  tag <- defined (index sVals 2) ;;
  if tag =? TAGGED then ret (false, nxtSVals)
  else
    robot <- defined (index sVals 0) ;;
    robotPos <- defined (decodeGridPosition m robot) ;;
    opponent <- defined (index sVals 1) ;;
    opponentPos <- defined (decodeGridPosition m opponent) ;;
    if (actId =? TAG) && GridPosition_eqb robotPos opponentPos then
      nxtSVals <- defined (assign 2 TAGGED nxtSVals) ;;
      ret (true, nxtSVals)
    else
      opponentPos <- moveOpponent m robotPos opponentPos ;;
      code <- defined (encodeGridPosition m opponentPos) ;;
      nxtSVals <- defined (assign 1 code nxtSVals) ;;
      let robotPos := getMovedPos robotPos actId in
      valid <- defined (isValid m robotPos) ;;
      if negb valid then ret (false, nxtSVals)
      else
        code <- defined (encodeGridPosition m robotPos) ;;
        nxtSVals <- defined (assign 0 code nxtSVals) ;;
        ret (true, nxtSVals).

(** [makeObs(nxtSVals, actId, obsVals)]; the result is [obsVals]. *)
Definition makeObs (nxtSVals : VectorState) (actId : Z) (obsVals : list Z)
  : option (list Z) :=
  match index nxtSVals 0 with
  | None => None
  | Some robot =>
      match assign 0 robot obsVals with
      | None => None
      | Some obsVals =>
          match index nxtSVals 1 with
          | None => None
          | Some opponent =>
              if robot =? opponent then assign 1 SEEN obsVals
              else assign 1 UNSEEN obsVals
          end
      end
  end.

Definition getReward (m : TagModel) (sVals : VectorState) (actId : Z)
  : option R :=
  if actId =? TAG then
    match index sVals 0, index sVals 1 with
    | Some robot, Some opponent =>
        if robot =? opponent then Some (tagReward m)
        else Some (- failedTagPenalty m)%R
    | _, _ => None
    end
  else Some (- moveCost m)%R.

Definition isTerm (sVals : VectorState) : option bool :=
  match index sVals 2 with
  | Some tag => Some (tag =? TAGGED)
  | None => None
  end.

(** The result is the returned flag, [*immediateRew], [nxtSVals] and
    [obs]. *)
Definition getNextState (m : TagModel) (sVals : VectorState) (actId : Z)
  (obs : list Z) : M RandomGenerator (bool * R * VectorState * list Z) :=
  immediateRew <- defined (getReward m sVals actId) ;;
  made <- makeNextState m sVals actId ;;
  let nxtSVals := snd made in
  let obs := resize 2 0 obs in
  obs <- defined (makeObs nxtSVals actId obs) ;;
  terminal <- defined (isTerm nxtSVals) ;;
  ret (terminal, immediateRew, nxtSVals, obs).

(** *** What [initialise] builds *)

(** The cells in [done] are numbered: [emptyCells] lists, in the order of
    their codes, the cells of [done] that are not walls, and [envMap] holds
    at each cell of [done] the wall mark or [EMPTY] plus the cell's code. *)
Definition numbered (m : TagModel) (done : nat -> nat -> Prop) : Prop :=
  nEmptyCells m = Z.of_nat (length (emptyCells m)) /\
  (forall k p,
     nth_error (emptyCells m) k = Some p ->
     exists row col,
       p = mkGridPosition (Z.of_nat row) (Z.of_nat col) /\ done row col /\
       is_X m row col = Some false /\
       cell (envMap m) row col = Some (EMPTY + Z.of_nat k)) /\
  (forall row col,
     done row col ->
     (is_X m row col = Some true /\ cell (envMap m) row col = Some WALL) \/
     (is_X m row col = Some false /\
      exists k,
        nth_error (emptyCells m) k
        = Some (mkGridPosition (Z.of_nat row) (Z.of_nat col)) /\
        cell (envMap m) row col = Some (EMPTY + Z.of_nat k))).

(** What the loops leave alone. *)
Definition kept (m m' : TagModel) : Prop :=
  nRows m' = nRows m /\ nCols m' = nCols m /\ mapText m' = mapText m /\
  length (envMap m') = length (envMap m) /\
  discount m' = discount m /\ moveCost m' = moveCost m /\
  tagReward m' = tagReward m /\ failedTagPenalty m' = failedTagPenalty m /\
  opponentStayProbability m' = opponentStayProbability m.

Lemma kept_refl (m : TagModel) : kept m m.
Proof. repeat split. Qed.

Lemma kept_trans (m1 m2 m3 : TagModel) : kept m1 m2 -> kept m2 m3 -> kept m1 m3.
Proof.
  unfold kept. intros H1 H2.
  destruct H1 as (? & ? & ? & ? & ? & ? & ? & ? & ?).
  destruct H2 as (? & ? & ? & ? & ? & ? & ? & ? & ?).
  repeat split; congruence.
Qed.

Lemma is_X_kept (m m' : TagModel) (row col : nat) :
  mapText m' = mapText m -> is_X m' row col = is_X m row col.
Proof. unfold is_X. intros ->. reflexivity. Qed.

Lemma numbered_ext (m : TagModel) (done done' : nat -> nat -> Prop) :
  (forall row col, done row col <-> done' row col) ->
  numbered m done -> numbered m done'.
Proof.
  intros Hext (Hn & Hcells & Hdone). split; [exact Hn|]. split.
  - intros k p Hk. destruct (Hcells k p Hk) as (row & col & Hp & Hd & Hx & Hc).
    exists row, col. repeat split; try assumption. apply Hext. exact Hd.
  - intros row col Hd. apply Hdone. apply Hext. exact Hd.
Qed.

Lemma fill_cell_run (row col : nat) (m : TagModel) (done : nat -> nat -> Prop) :
  numbered m done -> ~ done row col ->
  (exists b, is_X m row col = Some b) ->
  (exists v, cell (envMap m) row col = Some v) ->
  exists m',
    fill_cell row col m = Some m' /\
    numbered m' (fun r c => done r c \/ (r = row /\ c = col)) /\
    kept m m' /\
    (forall r c, (exists v, cell (envMap m) r c = Some v) ->
                 exists v, cell (envMap m') r c = Some v).
Proof.
  intros (Hn & Hcells & Hdone) Hfresh [b Hb] Hcell.
  unfold fill_cell. rewrite Hb.
  assert (Hother : forall env' v r c,
             set_cell row col v (envMap m) = Some env' ->
             done r c -> cell env' r c = cell (envMap m) r c).
  { intros env' v r c Hset Hd. apply (cell_set_other _ _ _ _ _ _ _ Hset).
    destruct (Nat.eq_dec r row) as [->|]; [|left; assumption].
    destruct (Nat.eq_dec c col) as [->|]; [contradiction|right; assumption]. }
  assert (Hdefined : forall env' v r c,
             set_cell row col v (envMap m) = Some env' ->
             (exists w, cell (envMap m) r c = Some w) ->
             exists w, cell env' r c = Some w).
  { intros env' v r c Hset Hw.
    destruct (Nat.eq_dec r row) as [->|Hr].
    - destruct (Nat.eq_dec c col) as [->|Hc].
      + exists v. apply (cell_set_same _ _ _ _ _ Hset).
      + rewrite (cell_set_other _ _ _ _ _ _ _ Hset) by (right; exact Hc). exact Hw.
    - rewrite (cell_set_other _ _ _ _ _ _ _ Hset) by (left; exact Hr). exact Hw. }
  destruct b.
  - destruct (set_cell_defined row col WALL (envMap m) Hcell) as [env' Hset].
    rewrite Hset. eexists. split; [reflexivity|].
    split; [|split].
    + split; [exact Hn|]. split.
      * intros k p Hk. cbn in Hk.
        destruct (Hcells k p Hk) as (r & c & Hp & Hd & Hx & Hc).
        exists r, c. split; [exact Hp|]. split; [left; exact Hd|].
        split; [exact Hx|].
        cbn. rewrite (Hother _ _ _ _ Hset Hd). exact Hc.
      * intros r c [Hd|[-> ->]].
        -- cbn [envMap set_envMap emptyCells].
           rewrite (Hother _ _ _ _ Hset Hd). apply (Hdone r c Hd).
        -- left. split; [exact Hb|]. cbn. apply (cell_set_same _ _ _ _ _ Hset).
    + repeat split. cbn. apply (set_cell_length _ _ _ _ _ Hset).
    + intros r c Hw. cbn. apply (Hdefined _ _ _ _ Hset Hw).
  - cbn [envMap set_empty].
    destruct (set_cell_defined row col (EMPTY + nEmptyCells m) (envMap m) Hcell)
      as [env' Hset].
    rewrite Hset. eexists. split; [reflexivity|].
    split; [|split].
    + split; [|split].
      * cbn. rewrite length_app. cbn [length]. lia.
      * intros k p Hk. cbn [emptyCells set_envMap set_empty envMap] in *.
        destruct (Nat.lt_ge_cases k (length (emptyCells m))) as [Hlt|Hge].
        -- rewrite nth_error_app1 in Hk by exact Hlt.
           destruct (Hcells k p Hk) as (r & c & Hp & Hd & Hx & Hc).
           exists r, c. split; [exact Hp|]. split; [left; exact Hd|].
           split; [exact Hx|].
           rewrite (Hother _ _ _ _ Hset Hd). exact Hc.
        -- rewrite nth_error_app2 in Hk by exact Hge.
           destruct (k - length (emptyCells m))%nat as [|k'] eqn:Hk';
             [|destruct k'; discriminate].
           cbn in Hk. injection Hk as <-.
           exists row, col. split; [reflexivity|]. split; [right; split; reflexivity|].
           split; [exact Hb|].
           rewrite (cell_set_same _ _ _ _ _ Hset). f_equal. lia.
      * intros r c [Hd|[-> ->]]; cbn [emptyCells set_envMap set_empty envMap].
        -- rewrite (Hother _ _ _ _ Hset Hd).
           destruct (Hdone r c Hd) as [Hwall|(Hfree & k & Hk & Hc)];
             [left; exact Hwall|right].
           split; [exact Hfree|]. exists k. split; [|exact Hc].
           rewrite nth_error_app1; [exact Hk|].
           apply nth_error_Some. congruence.
        -- right. split; [exact Hb|]. exists (length (emptyCells m)).
           split.
           ++ rewrite nth_error_app2 by lia. rewrite Nat.sub_diag. reflexivity.
           ++ rewrite (cell_set_same _ _ _ _ _ Hset). f_equal. lia.
    + repeat split. cbn. apply (set_cell_length _ _ _ _ _ Hset).
    + intros r c Hw. cbn. apply (Hdefined _ _ _ _ Hset Hw).
Qed.

Lemma fill_cols_run (row : nat) (cols : list nat) :
  forall (m : TagModel) (done : nat -> nat -> Prop),
    NoDup cols ->
    (forall col, In col cols -> ~ done row col) ->
    numbered m done ->
    (forall col, In col cols -> exists b, is_X m row col = Some b) ->
    (forall col, In col cols -> exists v, cell (envMap m) row col = Some v) ->
    exists m',
      fill_cols row cols m = Some m' /\
      numbered m' (fun r c => done r c \/ (r = row /\ In c cols)) /\
      kept m m'.
Proof.
  induction cols as [|col cols IH]; intros m done Hnodup Hfresh Hnum Htext Hcell.
  - exists m. split; [reflexivity|]. split; [|apply kept_refl].
    apply (numbered_ext m done); [|exact Hnum].
    intros r c. cbn [In]. split; [intros H; left; exact H|].
    intros [H|[_ []]]. exact H.
  - cbn [fill_cols].
    apply NoDup_cons_iff in Hnodup. destruct Hnodup as [Hnotin Hnodup'].
    destruct (fill_cell_run row col m done Hnum)
      as (m1 & Hrun & Hnum1 & Hkept1 & Hdef1).
    { apply Hfresh. left. reflexivity. }
    { apply Htext. left. reflexivity. }
    { apply Hcell. left. reflexivity. }
    rewrite Hrun.
    destruct (IH m1 (fun r c => done r c \/ (r = row /\ c = col)) Hnodup')
      as (m' & Hrun' & Hnum' & Hkept').
    + intros c Hin [Hd|[_ ->]]; [|contradiction].
      apply (Hfresh c); [right; exact Hin|exact Hd].
    + exact Hnum1.
    + intros c Hin. rewrite (is_X_kept m m1) by apply Hkept1.
      apply Htext. right. exact Hin.
    + intros c Hin. apply Hdef1. apply Hcell. right. exact Hin.
    + exists m'. split; [exact Hrun'|]. split; [|eapply kept_trans; eassumption].
      eapply numbered_ext; [|exact Hnum'].
      intros r c. cbn beta. cbn [In]. split.
      * intros [[Hd|[Hr Hc]]|[Hr Hin]];
          [left; exact Hd
          |right; split; [exact Hr|left; symmetry; exact Hc]
          |right; split; [exact Hr|right; exact Hin]].
      * intros [Hd|[Hr [Hc|Hin]]];
          [left; left; exact Hd
          |left; right; split; [exact Hr|symmetry; exact Hc]
          |right; split; assumption].
Qed.

(** The map file gives every row of the grid, each with a character for
    every column. *)
Definition text_ok (m : TagModel) : Prop :=
  forall row, (row < Z.to_nat (nRows m))%nat ->
    exists text, nth_error (mapText m) row = Some text /\
                 (Z.to_nat (nCols m) <= String.length text)%nat.

Lemma is_X_defined (m : TagModel) (row col : nat) :
  text_ok m -> (row < Z.to_nat (nRows m))%nat -> (col < Z.to_nat (nCols m))%nat ->
  exists b, is_X m row col = Some b.
Proof.
  intros Htext Hrow Hcol. destruct (Htext row Hrow) as (text & Hnth & Hlen).
  unfold is_X. rewrite Hnth.
  destruct (char_at_defined text col) as [c Hc]; [lia|].
  rewrite Hc. eexists. reflexivity.
Qed.

Lemma fill_rows_run (m0 : TagModel) :
  text_ok m0 -> 0 <= nCols m0 ->
  forall (rows : nat) (m : TagModel),
    (rows <= Z.to_nat (nRows m0))%nat ->
    kept m0 m ->
    length (envMap m) = Z.to_nat (nRows m0) ->
    numbered m (fun r c => (rows <= r < Z.to_nat (nRows m0))%nat /\
                           (c < Z.to_nat (nCols m0))%nat) ->
    exists m',
      fill_rows rows m = Some m' /\
      numbered m' (fun r c => (r < Z.to_nat (nRows m0))%nat /\
                              (c < Z.to_nat (nCols m0))%nat) /\
      kept m0 m'.
Proof.
  intros Htext Hcols.
  induction rows as [|row IH]; intros m Hrows Hkept Hlen Hnum.
  - exists m. split; [reflexivity|]. split; [|exact Hkept].
    eapply numbered_ext; [|exact Hnum].
    intros r c. cbn beta. split.
    + intros [[_ H1] H2]. split; assumption.
    + intros [H1 H2]. repeat split; try assumption. lia.
  - cbn [fill_rows].
    assert (HnCols : nCols m = nCols m0) by apply Hkept.
    assert (HmapText : mapText m = mapText m0) by apply Hkept.
    rewrite HnCols.
    destruct (Z.ltb_spec (nCols m0) 0) as [Hneg|_]; [lia|].
    destruct (nth_error (envMap m) row) as [cells|] eqn:Hcells.
    2:{ apply nth_error_None in Hcells. lia. }
    destruct (assign_defined row (resize (Z.to_nat (nCols m0)) 0 cells) (envMap m))
      as [env Henv]; [lia|].
    rewrite Henv.
    set (m1 := set_envMap m env).
    assert (Hnum1 : numbered m1
              (fun r c => (S row <= r < Z.to_nat (nRows m0))%nat /\
                          (c < Z.to_nat (nCols m0))%nat)).
    { destruct Hnum as (Hn & Hcode & Hdone).
      assert (Hsame : forall r c, (S row <= r)%nat ->
                cell (envMap m1) r c = cell (envMap m) r c).
      { intros r c Hr. unfold cell. cbn [envMap m1 set_envMap].
        rewrite (assign_other _ _ _ _ r Henv) by lia. reflexivity. }
      split; [exact Hn|]. split.
      - intros k p Hk. destruct (Hcode k p Hk) as (r & c & Hp & Hd & Hx & Hc).
        exists r, c. repeat split; try apply Hd; try assumption.
        rewrite Hsame by apply Hd. exact Hc.
      - intros r c Hd. rewrite Hsame by apply Hd. apply (Hdone r c Hd). }
    destruct (fill_cols_run row (seq 0 (Z.to_nat (nCols m0))) m1
                (fun r c => (S row <= r < Z.to_nat (nRows m0))%nat /\
                            (c < Z.to_nat (nCols m0))%nat)
                (seq_NoDup _ _)) as (m2 & Hrun & Hnum2 & Hkept2).
    + intros c _ [[Hr _] _]. lia.
    + exact Hnum1.
    + intros c Hin. apply in_seq in Hin.
      rewrite (is_X_kept m0 m1) by exact HmapText.
      apply is_X_defined; try assumption; lia.
    + intros c Hin. apply in_seq in Hin.
      unfold cell. cbn [envMap m1 set_envMap].
      rewrite (assign_same _ _ _ _ Henv).
      destruct (nth_error (resize (Z.to_nat (nCols m0)) 0 cells) c) as [v|] eqn:Hv;
        [exists v; reflexivity|].
      apply nth_error_None in Hv. rewrite resize_length in Hv. lia.
    + rewrite Hrun.
      assert (Hkept02 : kept m0 m2).
      { apply (kept_trans m0 m); [exact Hkept|].
        apply (kept_trans m m1); [|exact Hkept2].
        repeat split. cbn. apply (assign_length _ _ _ _ Henv). }
      apply IH; [lia|exact Hkept02| |].
      * destruct Hkept2 as (_ & _ & _ & Hl & _). rewrite Hl. cbn.
        rewrite (assign_length _ _ _ _ Henv). exact Hlen.
      * eapply numbered_ext; [|exact Hnum2].
        intros r c. cbn beta. split.
        -- intros [[Hr Hc]|[-> Hin]].
           ++ split; [lia|exact Hc].
           ++ apply in_seq in Hin. split; lia.
        -- intros [Hr Hc].
           destruct (Nat.eq_dec r row) as [->|Hne].
           ++ right. split; [reflexivity|]. apply in_seq. lia.
           ++ left. split; [lia|exact Hc].
Qed.

(** [p] lies on the grid. *)
Definition on_grid (m : TagModel) (p : GridPosition) : Prop :=
  0 <= i p < nRows m /\ 0 <= j p < nCols m.

(** [code] is the code of an empty cell. *)
Definition valid_code (m : TagModel) (code : Z) : Prop :=
  0 <= code < nEmptyCells m.

(** The character of the map file at [p]. *)
Definition text_is_X (m : TagModel) (p : GridPosition) : option bool :=
  is_X m (Z.to_nat (i p)) (Z.to_nat (j p)).

Lemma initialise_run (m : TagModel) :
  emptyCells m = [] -> 0 <= nRows m -> 0 <= nCols m -> text_ok m ->
  exists m',
    initialise m = Some m' /\
    nRows m' = nRows m /\ nCols m' = nCols m /\ mapText m' = mapText m /\
    numbered m' (fun r c => (r < Z.to_nat (nRows m))%nat /\
                            (c < Z.to_nat (nCols m))%nat).
Proof.
  intros Hfresh Hrows Hcols Htext. unfold initialise.
  destruct (Z.ltb_spec (nRows m) 0) as [Hneg|_]; [lia|].
  set (m0 := set_envMap (set_empty m 0 (emptyCells m))
               (resize (Z.to_nat (nRows m)) [] (envMap m))).
  destruct (fill_rows_run m0 Htext Hcols (Z.to_nat (nRows m)) m0)
    as (m1 & Hrun & Hnum & Hkept).
  - cbn. lia.
  - apply kept_refl.
  - cbn. apply resize_length.
  - split; [cbn; rewrite Hfresh; reflexivity|]. split.
    + intros k p Hk. cbn in Hk. rewrite Hfresh in Hk.
      destruct k; discriminate.
    + intros r c [[Hr1 Hr2] _]. cbn in Hr2. lia.
  - rewrite Hrun. eexists. split; [reflexivity|].
    destruct Hkept as (H1 & H2 & H3 & _).
    destruct Hnum as (Hn & Hcode & Hdone).
    cbn [nRows nCols mapText].
    split; [exact H1|]. split; [exact H2|]. split; [exact H3|].
    split; [exact Hn|]. split.
    + intros k p Hk. cbn [emptyCells] in Hk.
      destruct (Hcode k p Hk) as (r & c & Hp & Hd & Hx & Hc).
      exists r, c. repeat split; try apply Hd; try assumption.
    + intros r c Hd. exact (Hdone r c Hd).
Qed.

(** X14. On a model whose list of empty cells is still empty (as in the
    constructor) and whose map text has [nRows] rows of at least [nCols]
    characters, [initialise] returns, and codes and positions then
    translate into each other: [decodeGridPosition] of every code below
    [nEmptyCells] is a cell of the grid that is not marked ['X'] and that
    [encodeGridPosition] maps to [EMPTY] plus the code, and every cell of
    the grid is either marked ['X'] and encoded as [WALL], or not marked
    and encoded as [EMPTY] plus a code that decodes back to it. *)
Theorem initialise_numbers_the_cells (m : TagModel) :
  emptyCells m = [] -> 0 <= nRows m -> 0 <= nCols m -> text_ok m ->
  exists m',
    initialise m = Some m' /\
    (forall code,
       valid_code m' code ->
       exists p,
         decodeGridPosition m' code = Some p /\ on_grid m p /\
         text_is_X m p = Some false /\
         encodeGridPosition m' p = Some (EMPTY + code)) /\
    (forall p,
       on_grid m p ->
       (text_is_X m p = Some true /\ encodeGridPosition m' p = Some WALL) \/
       (text_is_X m p = Some false /\
        exists code,
          valid_code m' code /\ decodeGridPosition m' code = Some p /\
          encodeGridPosition m' p = Some (EMPTY + code))).
Proof.
  intros Hfresh Hrows Hcols Htext.
  destruct (initialise_run m Hfresh Hrows Hcols Htext)
    as (m' & Hrun & _ & _ & HmapText & Hn & Hcode & Hdone).
  exists m'. split; [exact Hrun|]. split.
  - intros code [Hlo Hhi].
    unfold decodeGridPosition, index.
    destruct (Z.ltb_spec code 0) as [Hneg|_]; [lia|].
    destruct (nth_error (emptyCells m') (Z.to_nat code)) as [p|] eqn:Hp.
    2:{ apply nth_error_None in Hp. lia. }
    destruct (Hcode _ _ Hp) as (r & c & -> & [Hr Hc] & Hx & Hcell).
    exists (mkGridPosition (Z.of_nat r) (Z.of_nat c)).
    split; [reflexivity|]. split; [unfold on_grid; cbn; lia|].
    unfold text_is_X, encodeGridPosition. cbn [i j].
    rewrite !Nat2Z.id.
    split; [rewrite <- (is_X_kept m m') by exact HmapText; exact Hx|].
    destruct (Z.ltb_spec (Z.of_nat r) 0) as [Hneg|_]; [lia|].
    destruct (Z.ltb_spec (Z.of_nat c) 0) as [Hneg|_]; [lia|].
    cbn [orb]. rewrite Hcell. f_equal. lia.
  - intros p [[Hi0 Hi1] [Hj0 Hj1]].
    unfold text_is_X, encodeGridPosition.
    destruct (Z.ltb_spec (i p) 0) as [Hneg|_]; [lia|].
    destruct (Z.ltb_spec (j p) 0) as [Hneg|_]; [lia|].
    cbn [orb].
    destruct (Hdone (Z.to_nat (i p)) (Z.to_nat (j p)))
      as [[Hx Hcell]|(Hx & k & Hk & Hcell)]; [split; lia| |].
    + left. split; [|exact Hcell].
      rewrite <- (is_X_kept m m') by exact HmapText. exact Hx.
    + right. split; [rewrite <- (is_X_kept m m') by exact HmapText; exact Hx|].
      exists (Z.of_nat k).
      assert (Hlt : (k < length (emptyCells m'))%nat)
        by (apply nth_error_Some; congruence).
      split; [unfold valid_code; lia|].
      split; [|exact Hcell].
      unfold decodeGridPosition, index.
      destruct (Z.ltb_spec (Z.of_nat k) 0) as [Hneg|_]; [lia|].
      rewrite Nat2Z.id, Hk, !Z2Nat.id by lia.
      destruct p; reflexivity.
Qed.

(** *** Codes and positions on a numbered grid *)

(** What the transition functions rely on: a state variable is a code, and
    what [encodeGridPosition] returns is written into a state variable, so
    that [EMPTY] has to be 0 and [WALL] no code. *)
Definition consistent (m : TagModel) : Prop :=
  (forall p, on_grid m p ->
     exists v,
       encodeGridPosition m p = Some v /\
       (v = WALL \/ (valid_code m v /\ decodeGridPosition m v = Some p))) /\
  (forall code, valid_code m code ->
     exists p,
       decodeGridPosition m code = Some p /\ on_grid m p /\
       encodeGridPosition m p = Some code) /\
  ~ valid_code m WALL.

Lemma initialise_consistent (m m' : TagModel) :
  EMPTY = 0 -> WALL < 0 ->
  emptyCells m = [] -> 0 <= nRows m -> 0 <= nCols m -> text_ok m ->
  initialise m = Some m' -> consistent m'.
Proof.
  intros HEMPTY HWALL Hfresh Hrows Hcols Htext Hrun.
  destruct (initialise_run m Hfresh Hrows Hcols Htext)
    as (m1 & Hrun1 & HnRows & HnCols & _ & Hn & Hcode & Hdone).
  rewrite Hrun in Hrun1. injection Hrun1 as <-.
  split; [|split].
  - intros p [[Hi0 Hi1] [Hj0 Hj1]]. unfold encodeGridPosition.
    destruct (Z.ltb_spec (i p) 0) as [Hneg|_]; [lia|].
    destruct (Z.ltb_spec (j p) 0) as [Hneg|_]; [lia|].
    cbn [orb].
    destruct (Hdone (Z.to_nat (i p)) (Z.to_nat (j p)))
      as [[_ Hcell]|(_ & k & Hk & Hcell)]; [split; lia| |].
    + exists WALL. split; [exact Hcell|]. left. reflexivity.
    + exists (Z.of_nat k). split; [rewrite Hcell; f_equal; lia|]. right.
      assert (Hlt : (k < length (emptyCells m'))%nat)
        by (apply nth_error_Some; congruence).
      split; [unfold valid_code; lia|].
      unfold decodeGridPosition, index.
      destruct (Z.ltb_spec (Z.of_nat k) 0) as [Hneg|_]; [lia|].
      rewrite Nat2Z.id, Hk, !Z2Nat.id by lia.
      destruct p; reflexivity.
  - intros code [Hlo Hhi].
    unfold decodeGridPosition, index.
    destruct (Z.ltb_spec code 0) as [Hneg|_]; [lia|].
    destruct (nth_error (emptyCells m') (Z.to_nat code)) as [p|] eqn:Hp.
    2:{ apply nth_error_None in Hp. lia. }
    destruct (Hcode _ _ Hp) as (r & c & -> & [Hr Hc] & _ & Hcell).
    exists (mkGridPosition (Z.of_nat r) (Z.of_nat c)).
    split; [reflexivity|]. split; [unfold on_grid; cbn; lia|].
    unfold encodeGridPosition. cbn [i j].
    destruct (Z.ltb_spec (Z.of_nat r) 0) as [Hneg|_]; [lia|].
    destruct (Z.ltb_spec (Z.of_nat c) 0) as [Hneg|_]; [lia|].
    cbn [orb]. rewrite !Nat2Z.id, Hcell. f_equal. lia.
  - unfold valid_code. lia.
Qed.

Lemma isValid_on_grid (m : TagModel) (p : GridPosition) :
  consistent m ->
  exists b, isValid m p = Some b /\
            (b = true ->
             exists code, valid_code m code /\
                          encodeGridPosition m p = Some code /\
                          decodeGridPosition m code = Some p).
Proof.
  intros (Hgrid & _ & HWALL). unfold isValid.
  destruct (Z.ltb_spec (i p) 0) as [Hi0|Hi0];
    [exists false; split; [reflexivity|discriminate]|].
  destruct (Z.geb_spec (i p) (nRows m)) as [Hi1|Hi1];
    [exists false; split; [reflexivity|discriminate]|].
  destruct (Z.ltb_spec (j p) 0) as [Hj0|Hj0];
    [exists false; split; [reflexivity|discriminate]|].
  destruct (Z.geb_spec (j p) (nCols m)) as [Hj1|Hj1];
    [exists false; split; [reflexivity|discriminate]|].
  cbn [orb].
  destruct (Hgrid p) as (v & Hv & Hcases); [unfold on_grid; lia|].
  assert (Hcell : cell (envMap m) (Z.to_nat (i p)) (Z.to_nat (j p)) = Some v).
  { unfold encodeGridPosition in Hv.
    destruct (Z.ltb_spec (i p) 0) as [Hneg|_]; [lia|].
    destruct (Z.ltb_spec (j p) 0) as [Hneg|_]; [lia|].
    exact Hv. }
  rewrite Hcell. eexists. split; [reflexivity|].
  intros Hvalid. apply negb_true_iff, Z.eqb_neq in Hvalid.
  destruct Hcases as [->|[Hcode Hdecode]]; [contradiction|].
  exists v. repeat split; try assumption; apply Hcode.
Qed.

Lemma decode_valid (m : TagModel) (code : Z) :
  consistent m -> valid_code m code ->
  exists p, decodeGridPosition m code = Some p /\
            isValid m p = Some true /\
            encodeGridPosition m p = Some code.
Proof.
  intros Hcons Hcode. pose proof Hcons as (_ & Hcodes & HWALL).
  destruct (Hcodes code Hcode) as (p & Hdecode & [[Hi0 Hi1] [Hj0 Hj1]] & Hencode).
  exists p. split; [exact Hdecode|]. split; [|exact Hencode].
  unfold isValid.
  destruct (Z.ltb_spec (i p) 0) as [Hneg|_]; [lia|].
  destruct (Z.geb_spec (i p) (nRows m)) as [Hneg|_]; [lia|].
  destruct (Z.ltb_spec (j p) 0) as [Hneg|_]; [lia|].
  destruct (Z.geb_spec (j p) (nCols m)) as [Hneg|_]; [lia|].
  cbn [orb]. unfold encodeGridPosition in Hencode.
  destruct (Z.ltb_spec (i p) 0) as [Hneg|_]; [lia|].
  destruct (Z.ltb_spec (j p) 0) as [Hneg|_]; [lia|].
  cbn [orb] in Hencode. rewrite Hencode. f_equal.
  apply negb_true_iff, Z.eqb_neq. intros ->. contradiction.
Qed.

Lemma GridPosition_eqb_eq (p q : GridPosition) :
  GridPosition_eqb p q = true <-> p = q.
Proof.
  unfold GridPosition_eqb. rewrite andb_true_iff, !Z.eqb_eq.
  destruct p, q; cbn. split; [intros [-> ->]; reflexivity|].
  intros H. injection H as -> ->. split; reflexivity.
Qed.

(** *** Where the opponent goes *)

(** The number of steps between two cells. *)
Definition manhattan (p q : GridPosition) : Z :=
  Z.abs (i p - i q) + Z.abs (j p - j q).

(** The four moves are different actions, as the [switch] of
    [getMovedPos] needs them to be. *)
Definition distinct_moves : Prop := NoDup [NORTH; EAST; SOUTH; WEST].

Lemma getMovedPos_moves (p : GridPosition) :
  distinct_moves ->
  getMovedPos p NORTH = mkGridPosition (i p - 1) (j p) /\
  getMovedPos p EAST = mkGridPosition (i p) (j p + 1) /\
  getMovedPos p SOUTH = mkGridPosition (i p + 1) (j p) /\
  getMovedPos p WEST = mkGridPosition (i p) (j p - 1).
Proof.
  intros Hmoves. unfold distinct_moves in Hmoves.
  inversion Hmoves as [|? ? HN Hrest]; subst.
  inversion Hrest as [|? ? HE Hrest']; subst.
  inversion Hrest' as [|? ? HS _]; subst.
  cbn [In] in HN, HE, HS.
  unfold getMovedPos. rewrite !Z.eqb_refl.
  destruct (Z.eqb_spec EAST NORTH) as [Heq|_]; [exfalso; apply HN; auto|].
  destruct (Z.eqb_spec SOUTH NORTH) as [Heq|_]; [exfalso; apply HN; auto|].
  destruct (Z.eqb_spec SOUTH EAST) as [Heq|_]; [exfalso; apply HE; auto|].
  destruct (Z.eqb_spec WEST NORTH) as [Heq|_]; [exfalso; apply HN; auto|].
  destruct (Z.eqb_spec WEST EAST) as [Heq|_]; [exfalso; apply HE; auto|].
  destruct (Z.eqb_spec WEST SOUTH) as [Heq|_]; [exfalso; apply HS; auto|].
  repeat split.
Qed.

Lemma makeOpponentActions_away (robotPos opponentPos : GridPosition) (actId : Z) :
  distinct_moves ->
  In actId (makeOpponentActions robotPos opponentPos []) ->
  manhattan robotPos (getMovedPos opponentPos actId)
  = manhattan robotPos opponentPos + 1.
Proof.
  intros Hmoves Hin.
  destruct (getMovedPos_moves opponentPos Hmoves) as (HN & HE & HS & HW).
  unfold makeOpponentActions in Hin.
  destruct (Z.gtb_spec (i robotPos) (i opponentPos)) as [Hi|Hi];
    [|destruct (Z.ltb_spec (i robotPos) (i opponentPos)) as [Hi'|Hi']];
    (destruct (Z.gtb_spec (j robotPos) (j opponentPos)) as [Hj|Hj];
     [|destruct (Z.ltb_spec (j robotPos) (j opponentPos)) as [Hj'|Hj']]);
    cbn [app In] in Hin;
    repeat (destruct Hin as [<-|Hin]);
    try contradiction;
    rewrite ?HN, ?HE, ?HS, ?HW; unfold manhattan; cbn [i j]; lia.
Qed.

Lemma makeOpponentActions_length (robotPos opponentPos : GridPosition) :
  length (makeOpponentActions robotPos opponentPos []) = 4%nat.
Proof.
  unfold makeOpponentActions.
  destruct (i robotPos >? i opponentPos), (i robotPos <? i opponentPos),
    (j robotPos >? j opponentPos), (j robotPos <? j opponentPos); reflexivity.
Qed.

(** [randIntBetween(a, b)] draws from [a .. b]. *)
Definition randIntBetween_in_range : Prop :=
  forall a b g, a <= b -> a <= fst (randIntBetween a b g) <= b.

(** X15. The opponent only ever has moves that take it away from the robot:
    [makeOpponentActions] always lists four moves, and each of them, carried
    out by [getMovedPos], puts the opponent exactly one step farther from
    the robot than it was. *)
Theorem opponent_actions_lead_away (robotPos opponentPos : GridPosition) :
  distinct_moves ->
  length (makeOpponentActions robotPos opponentPos []) = 4%nat /\
  forall actId,
    In actId (makeOpponentActions robotPos opponentPos []) ->
    manhattan robotPos (getMovedPos opponentPos actId)
    = manhattan robotPos opponentPos + 1.
Proof.
  intros Hmoves. split; [apply makeOpponentActions_length|].
  intros actId Hin. apply makeOpponentActions_away; assumption.
Qed.

Lemma moveOpponent_run (m : TagModel) (robotPos opponentPos : GridPosition)
  (g : RandomGenerator) :
  consistent m -> distinct_moves -> randIntBetween_in_range ->
  exists p g',
    moveOpponent m robotPos opponentPos g = Returns p g' /\
    (p = opponentPos \/
     (isValid m p = Some true /\
      manhattan robotPos p = manhattan robotPos opponentPos + 1)).
Proof.
  intros Hcons Hmoves Hrange.
  unfold moveOpponent, bind, draw.
  destruct (Rlt_dec (fst (rand01 g)) (opponentStayProbability m)).
  { eexists. eexists. split; [reflexivity|]. left. reflexivity. }
  rewrite makeOpponentActions_length.
  set (k := fst (randIntBetween 0 (Z.of_nat 4 - 1) (snd (rand01 g)))).
  assert (Hk : 0 <= k <= 3) by (apply Hrange; lia).
  unfold index. destruct (Z.ltb_spec k 0) as [Hneg|_]; [lia|].
  destruct (nth_error (makeOpponentActions robotPos opponentPos []) (Z.to_nat k))
    as [actId|] eqn:HactId.
  2:{ apply nth_error_None in HactId.
      rewrite makeOpponentActions_length in HactId. lia. }
  cbn [defined ret].
  destruct (isValid_on_grid m (getMovedPos opponentPos actId) Hcons)
    as (b & Hb & _).
  rewrite Hb. cbn [defined ret].
  eexists. eexists. split; [reflexivity|].
  destruct b; [right|left; reflexivity].
  split; [exact Hb|].
  apply makeOpponentActions_away; [exact Hmoves|].
  eapply nth_error_In. exact HactId.
Qed.

(** X16. On a consistent grid [moveOpponent] always returns, and the
    opponent either stays where it is or ends on a cell of the grid that is
    no wall, exactly one step farther from the robot: by its own move it
    never comes nearer to the robot, and it never leaves the grid. *)
Theorem opponent_never_approaches (m : TagModel)
  (robotPos opponentPos : GridPosition) (g : RandomGenerator) :
  consistent m -> distinct_moves -> randIntBetween_in_range ->
  exists p g',
    moveOpponent m robotPos opponentPos g = Returns p g' /\
    manhattan robotPos opponentPos <= manhattan robotPos p /\
    (p = opponentPos \/
     (isValid m p = Some true /\
      manhattan robotPos p = manhattan robotPos opponentPos + 1)).
Proof.
  intros Hcons Hmoves Hrange.
  destruct (moveOpponent_run m robotPos opponentPos g Hcons Hmoves Hrange)
    as (p & g' & Hrun & Hcases).
  exists p, g'. split; [exact Hrun|]. split; [|exact Hcases].
  destruct Hcases as [->|[_ Hfar]]; lia.
Qed.

(** *** One step of the model *)

(** The three ways [makeNextState] ends on a state of three variables whose
    two codes are valid. *)
Lemma makeNextState_run (m : TagModel) (robot opponent tag actId : Z)
  (g : RandomGenerator) :
  consistent m -> distinct_moves -> randIntBetween_in_range ->
  valid_code m robot -> valid_code m opponent ->
  (tag = TAGGED /\
   makeNextState m [robot; opponent; tag] actId g
   = Returns (false, [robot; opponent; tag]) g) \/
  (tag <> TAGGED /\ actId = TAG /\ robot = opponent /\
   makeNextState m [robot; opponent; tag] actId g
   = Returns (true, [robot; opponent; TAGGED]) g) \/
  (tag <> TAGGED /\ ~ (actId = TAG /\ robot = opponent) /\
   exists moved robot' opponent' g',
     makeNextState m [robot; opponent; tag] actId g
     = Returns (moved, [robot'; opponent'; tag]) g' /\
     valid_code m robot' /\ valid_code m opponent' /\
     (moved = false -> robot' = robot)).
Proof.
  intros Hcons Hmoves Hrange Hrobot Hopponent.
  destruct (decode_valid m robot Hcons Hrobot) as (rp & Hrp & Hrvalid & Hrcode).
  destruct (decode_valid m opponent Hcons Hopponent) as (op & Hop & Hovalid & Hocode).
  unfold makeNextState, bind.
  change (index [robot; opponent; tag] 2) with (Some tag).
  change (index [robot; opponent; tag] 0) with (Some robot).
  change (index [robot; opponent; tag] 1) with (Some opponent).
  cbn [defined ret].
  destruct (Z.eqb_spec tag TAGGED) as [Htag|Htag].
  { left. split; [exact Htag|reflexivity]. }
  right. rewrite Hrp, Hop. cbn [defined ret].
  destruct ((actId =? TAG) && GridPosition_eqb rp op) eqn:Htagging.
  - apply andb_true_iff in Htagging. destruct Htagging as [HTAG Hsame].
    apply Z.eqb_eq in HTAG. apply GridPosition_eqb_eq in Hsame. subst op.
    assert (robot = opponent) by congruence.
    left. repeat split; assumption.
  - right. split; [exact Htag|]. split.
    { intros [-> ->].
      assert (rp = op) by congruence. subst op.
      rewrite Z.eqb_refl in Htagging.
      assert (Hrefl : GridPosition_eqb rp rp = true)
        by (apply GridPosition_eqb_eq; reflexivity).
      rewrite Hrefl in Htagging. discriminate. }
    destruct (moveOpponent_run m rp op g Hcons Hmoves Hrange)
      as (op' & g' & Hmove & Hcases).
    rewrite Hmove.
    assert (Hovalid' : isValid m op' = Some true)
      by (destruct Hcases as [->|[H _]]; assumption).
    destruct (isValid_on_grid m op' Hcons) as (b & Hb & Hbcode).
    rewrite Hovalid' in Hb. injection Hb as <-.
    destruct (Hbcode eq_refl) as (ocode & Hocode_valid & Hoenc & _).
    rewrite Hoenc. cbn [defined ret assign].
    destruct (isValid_on_grid m (getMovedPos rp actId) Hcons)
      as (valid & Hvalid & Hvcode).
    rewrite Hvalid. cbn [defined ret].
    destruct valid; cbn [negb].
    + destruct (Hvcode eq_refl) as (rcode & Hrcode_valid & Hrenc & _).
      rewrite Hrenc. cbn [defined ret assign].
      exists true, rcode, ocode, g'. split; [reflexivity|].
      repeat split; try apply Hrcode_valid; try apply Hocode_valid.
      discriminate.
    + exists false, robot, ocode, g'. split; [reflexivity|].
      repeat split; try apply Hrobot; try apply Hocode_valid.
Qed.

(** X17. On a consistent grid, from a state whose two position codes are
    valid, [makeNextState] always returns a state of the same shape whose
    two codes are valid again: the robot and the opponent never end on a
    wall or off the grid.  The tag flag changes only when the robot tags on
    the opponent's cell, and then nothing else changes; a tagged state is
    returned as it is, with [false]; and whenever the call returns [false]
    the robot is where it was. *)
Theorem makeNextState_keeps_codes_valid (m : TagModel)
  (robot opponent tag actId : Z) (g : RandomGenerator) :
  consistent m -> distinct_moves -> randIntBetween_in_range ->
  valid_code m robot -> valid_code m opponent ->
  exists moved robot' opponent' tag' g',
    makeNextState m [robot; opponent; tag] actId g
    = Returns (moved, [robot'; opponent'; tag']) g' /\
    valid_code m robot' /\ valid_code m opponent' /\
    (tag' = tag \/
     (tag' = TAGGED /\ actId = TAG /\ robot = opponent /\
      robot' = robot /\ opponent' = opponent /\ moved = true)) /\
    (moved = false -> robot' = robot /\ tag' = tag) /\
    (tag = TAGGED ->
     moved = false /\ robot' = robot /\ opponent' = opponent /\ g' = g).
Proof.
  intros Hcons Hmoves Hrange Hrobot Hopponent.
  destruct (makeNextState_run m robot opponent tag actId g Hcons Hmoves Hrange
              Hrobot Hopponent)
    as [[Htag Hrun]|[(Htag & HTAG & Hsame & Hrun)
                    |(Htag & _ & moved & robot' & opponent' & g' & Hrun
                      & Hr' & Ho' & Hmoved)]].
  - exists false, robot, opponent, tag, g. split; [exact Hrun|].
    repeat split; try apply Hrobot; try apply Hopponent. left. reflexivity.
  - exists true, robot, opponent, TAGGED, g. split; [exact Hrun|].
    split; [exact Hrobot|]. split; [exact Hopponent|].
    split; [right; repeat split; assumption|].
    split; [discriminate|]. intros ->. contradiction.
  - exists moved, robot', opponent', tag, g'. split; [exact Hrun|].
    split; [exact Hr'|]. split; [exact Ho'|].
    split; [left; reflexivity|].
    split; [intros H; split; [apply Hmoved; exact H|reflexivity]|].
    intros ->. contradiction.
Qed.

(** X18. On a consistent grid, from an untagged state whose two codes are
    valid, [getNextState] always returns, and it reports a terminal state
    exactly when the action is [TAG] and the robot is on the opponent's
    cell, which is exactly when the reward is [tagReward] rather than the
    failed-tag penalty or the move cost: the positions that
    [makeNextState] compares and the codes that [getReward] compares agree.
    The observation is the robot's code in the next state and whether the
    opponent shares its cell. *)
Theorem getNextState_terminal_iff_tagged (m : TagModel)
  (robot opponent tag actId : Z) (obs : list Z) (g : RandomGenerator) :
  consistent m -> distinct_moves -> randIntBetween_in_range ->
  valid_code m robot -> valid_code m opponent -> tag <> TAGGED ->
  exists (terminal : bool) robot' opponent' tag' g',
    getNextState m [robot; opponent; tag] actId obs g
    = Returns (terminal,
               if terminal then tagReward m
               else if actId =? TAG then (- failedTagPenalty m)%R
               else (- moveCost m)%R,
               [robot'; opponent'; tag'],
               [robot'; if robot' =? opponent' then SEEN else UNSEEN]) g' /\
    (terminal = true <-> actId = TAG /\ robot = opponent).
Proof.
  intros Hcons Hmoves Hrange Hrobot Hopponent Htag.
  assert (Hobs : forall r o t,
            makeObs [r; o; t] actId (resize 2 0 obs)
            = Some [r; if r =? o then SEEN else UNSEEN]).
  { intros r o t. unfold makeObs.
    change (index [r; o; t] 0) with (Some r).
    change (index [r; o; t] 1) with (Some o).
    destruct obs as [|a [|b rest]]; cbn; destruct (r =? o); reflexivity. }
  unfold getNextState, bind.
  destruct (makeNextState_run m robot opponent tag actId g Hcons Hmoves Hrange
              Hrobot Hopponent)
    as [[Htag' _]|[(_ & HTAG & Hsame & Hrun)
                  |(_ & Hnot & moved & robot' & opponent' & g' & Hrun & _)]];
    [contradiction| |].
  - unfold getReward.
    change (index [robot; opponent; tag] 0) with (Some robot).
    change (index [robot; opponent; tag] 1) with (Some opponent).
    subst actId opponent. rewrite !Z.eqb_refl. cbn [defined ret].
    rewrite Hrun. cbn [snd]. rewrite Hobs. cbn [defined ret].
    unfold isTerm. change (index [robot; robot; TAGGED] 2) with (Some TAGGED).
    rewrite Z.eqb_refl. cbn [defined ret].
    exists true, robot, robot, TAGGED, g.
    split; [unfold ret; rewrite ?Z.eqb_refl; reflexivity|]. split; [intros _; split; reflexivity|reflexivity].
  - unfold getReward.
    change (index [robot; opponent; tag] 0) with (Some robot).
    change (index [robot; opponent; tag] 1) with (Some opponent).
    assert (Hterm : isTerm [robot'; opponent'; tag] = Some false).
    { unfold isTerm. change (index [robot'; opponent'; tag] 2) with (Some tag).
      cbv beta iota. f_equal. apply Z.eqb_neq. exact Htag. }
    destruct (Z.eqb_spec actId TAG) as [HTAG|HTAG].
    + destruct (Z.eqb_spec robot opponent) as [Hsame|Hdiff];
        [exfalso; apply Hnot; split; assumption|].
      cbn [defined ret]. rewrite Hrun. cbn [snd].
      rewrite Hobs. cbn [defined ret]. rewrite Hterm. cbn [defined ret].
      exists false, robot', opponent', tag, g'.
      split; [reflexivity|]. split; [discriminate|].
      intros H. exfalso. exact (Hnot H).
    + cbn [defined ret]. rewrite Hrun. cbn [snd].
      rewrite Hobs. cbn [defined ret]. rewrite Hterm. cbn [defined ret].
      exists false, robot', opponent', tag, g'.
      split; [reflexivity|]. split; [discriminate|].
      intros H. exfalso. exact (Hnot H).
Qed.

End WithConstants.
(** *** An instance: a grid of two rows and three columns *)

(** Values for the enumerators: the moves 0 to 3, [TAG] 4, [EMPTY] 0,
    [WALL] -1, [TAGGED] 1, [SEEN] 1, [UNSEEN] 0. *)
Lemma example_distinct_moves : distinct_moves 0 1 2 3.
Proof.
  unfold distinct_moves.
  repeat (constructor; [cbn [In]; lia|]). constructor.
Qed.

(** The map, its upper right cell a wall, before [initialise]. *)
Definition example_map : TagModel :=
  mkTagModel 2 3 ["..X"%string; "..."%string] 0 [] [] 0 0 0 0 0
    (95/100) 1 10 10 (8/10).

(** The same after [initialise]: the lower row is numbered first. *)
Definition example_grid : TagModel :=
  mkTagModel 2 3 ["..X"%string; "..."%string] 5
    [ mkGridPosition 1 0; mkGridPosition 1 1; mkGridPosition 1 2;
      mkGridPosition 0 0; mkGridPosition 0 1 ]
    [ [3; 4; -1]; [0; 1; 2] ] 5 10 3
    (- 10 / (1 - 95/100)) 10 (95/100) 1 10 10 (8/10).

Example example_initialise : initialise 0 (-1) example_map = Some example_grid.
Proof. reflexivity. Qed.

Lemma example_text_ok : text_ok example_map.
Proof.
  intros row Hrow. cbn in Hrow.
  destruct row as [|[|row]]; [| |lia]; eexists; (split; [reflexivity|]); cbn; lia.
Qed.

Lemma example_consistent : consistent (-1) example_grid.
Proof.
  apply (initialise_consistent 0 (-1) example_map).
  - reflexivity.
  - lia.
  - reflexivity.
  - cbn. lia.
  - cbn. lia.
  - exact example_text_ok.
  - exact example_initialise.
Qed.

(** A generator that hands out the numbers of a list: [rand01] returns
    tenths, [randIntBetween] reduces into the range. *)
Definition example_rand01 (g : list Z) : R * list Z :=
  match g with
  | [] => (0%R, [])
  | x :: g' => ((IZR x / 10)%R, g')
  end.

Definition example_randIntBetween (a b : Z) (g : list Z) : Z * list Z :=
  match g with
  | [] => (a, [])
  | x :: g' => (a + x mod (b - a + 1), g')
  end.

Lemma example_randIntBetween_in_range :
  randIntBetween_in_range example_randIntBetween.
Proof.
  intros a b g H. destruct g as [|x g]; cbn [example_randIntBetween fst]; [lia|].
  pose proof (Z.mod_pos_bound x (b - a + 1)). lia.
Qed.

Lemma initialise_numbers_the_cells_witness :
  exists m',
    initialise 0 (-1) example_map = Some m' /\
    (forall code,
       valid_code m' code ->
       exists p,
         decodeGridPosition m' code = Some p /\ on_grid example_map p /\
         text_is_X example_map p = Some false /\
         encodeGridPosition m' p = Some (0 + code)) /\
    (forall p,
       on_grid example_map p ->
       (text_is_X example_map p = Some true /\
        encodeGridPosition m' p = Some (-1)) \/
       (text_is_X example_map p = Some false /\
        exists code,
          valid_code m' code /\ decodeGridPosition m' code = Some p /\
          encodeGridPosition m' p = Some (0 + code))).
Proof.
  apply (initialise_numbers_the_cells 0 (-1) example_map).
  - reflexivity.
  - cbn. lia.
  - cbn. lia.
  - exact example_text_ok.
Defined.

Lemma opponent_actions_lead_away_witness :
  length (makeOpponentActions 0 1 2 3 (mkGridPosition 1 0) (mkGridPosition 0 1) [])
  = 4%nat /\
  forall actId,
    In actId (makeOpponentActions 0 1 2 3 (mkGridPosition 1 0) (mkGridPosition 0 1) []) ->
    manhattan (mkGridPosition 1 0) (getMovedPos 0 1 2 3 (mkGridPosition 0 1) actId)
    = manhattan (mkGridPosition 1 0) (mkGridPosition 0 1) + 1.
Proof.
  apply (opponent_actions_lead_away 0 1 2 3).
  exact example_distinct_moves.
Defined.

Lemma opponent_never_approaches_witness :
  exists p g',
    moveOpponent 0 1 2 3 (-1) example_rand01 example_randIntBetween
      example_grid (mkGridPosition 1 0) (mkGridPosition 1 1) [9; 2] = Returns p g' /\
    manhattan (mkGridPosition 1 0) (mkGridPosition 1 1)
    <= manhattan (mkGridPosition 1 0) p /\
    (p = mkGridPosition 1 1 \/
     (isValid (-1) example_grid p = Some true /\
      manhattan (mkGridPosition 1 0) p
      = manhattan (mkGridPosition 1 0) (mkGridPosition 1 1) + 1)).
Proof.
  apply (opponent_never_approaches 0 1 2 3 (-1)).
  - exact example_consistent.
  - exact example_distinct_moves.
  - exact example_randIntBetween_in_range.
Defined.

Lemma makeNextState_keeps_codes_valid_witness :
  exists moved robot' opponent' tag' g',
    makeNextState 0 1 2 3 4 (-1) 1 example_rand01 example_randIntBetween
      example_grid [0; 4; 0] 0 [9; 2]
    = Returns (moved, [robot'; opponent'; tag']) g' /\
    valid_code example_grid robot' /\ valid_code example_grid opponent' /\
    (tag' = 0 \/
     (tag' = 1 /\ 0 = 4 /\ 0 = 4 /\ robot' = 0 /\ opponent' = 4 /\ moved = true)) /\
    (moved = false -> robot' = 0 /\ tag' = 0) /\
    (0 = 1 -> moved = false /\ robot' = 0 /\ opponent' = 4 /\ g' = [9; 2]).
Proof.
  apply (makeNextState_keeps_codes_valid 0 1 2 3 4 (-1) 1).
  - exact example_consistent.
  - exact example_distinct_moves.
  - exact example_randIntBetween_in_range.
  - unfold valid_code. cbn. lia.
  - unfold valid_code. cbn. lia.
Defined.

Lemma getNextState_terminal_iff_tagged_witness :
  exists (terminal : bool) robot' opponent' tag' g',
    getNextState 0 1 2 3 4 (-1) 1 1 0 example_rand01 example_randIntBetween
      example_grid [4; 4; 0] 4 [] [9; 2]
    = Returns (terminal,
               if terminal then tagReward example_grid
               else if 4 =? 4 then (- failedTagPenalty example_grid)%R
               else (- moveCost example_grid)%R,
               [robot'; opponent'; tag'],
               [robot'; if robot' =? opponent' then 1 else 0]) g' /\
    (terminal = true <-> 4 = 4 /\ 4 = 4).
Proof.
  apply (getNextState_terminal_iff_tagged 0 1 2 3 4 (-1) 1 1 0).
  - exact example_consistent.
  - exact example_distinct_moves.
  - exact example_randIntBetween_in_range.
  - unfold valid_code. cbn. lia.
  - unfold valid_code. cbn. lia.
  - lia.
Defined.

End Tag.
